(** * Receipt reconciliation engine of ai-invoice-scanner

    A shallow embedding of [services/geminiService.ts] (the receipt parser:
    [recalculateFinancials], [parseViaRegex], [parseReceiptWithGemini]), of
    [services/mistralService.ts] (the OCR client: [processDocument]) and of
    the record types of [types.ts]; then the vocabulary in which the
    properties are stated; then a theory of binary64 rounding over
    [SpecFloat], the properties of the specification with their proofs, and
    further properties of the same code.

    JavaScript numbers are IEEE 754 binary64 values: they are modelled by
    Rocq's primitive floats, whose operations are the hardware ones.
    JavaScript strings are sequences of UTF-16 code units. *)

From Stdlib Require Import Ascii String.
From Stdlib Require Import ZArith NArith List Permutation Sorted Bool Lia.
From Stdlib Require Import QArith Qabs Lqa Qpower Morphisms.
From Stdlib Require Import Floats.
Import ListNotations.

#[local] Set Warnings "-inexact-float".

Local Open Scope Z_scope.

(** ** JavaScript numbers *)

Module JsNumber.

Definition number := PrimFloat.float.

Definition is_finite (x : number) : bool :=
  match Prim2SF x with
  | S754_zero _ | S754_finite _ _ _ => true
  | _ => false
  end.

(** [ToBoolean] on a number: [0], [-0] and [NaN] are falsy. *)
Definition truthy (x : number) : bool :=
  match Prim2SF x with
  | S754_zero _ | S754_nan => false
  | _ => true
  end.

(** [x || d] on numbers. *)
Definition or_else (x d : number) : number := if truthy x then x else d.

(** [a > b]. *)
Definition gt (a b : number) : bool := PrimFloat.ltb b a.

Definition isNaN (x : number) : bool := negb (PrimFloat.eqb x x).

(** [Number(v)] for a value that is a number or [undefined]. *)
Definition Number_ (v : option number) : number :=
  match v with
  | Some x => x
  | None => nan
  end.

(** The number nearest to the decimal [n / d] (ties to even), with the sign
    [neg]: what [Number] and [parseFloat] make of the digits of a decimal
    literal.  The quotient is taken with enough bits, its remainder gives
    the rounding direction. *)
Definition of_decimal (neg : bool) (n : Z) (d : positive) : number :=
  match n with
  | Z0 => if neg then (-0)%float else 0%float
  | Zpos _ =>
      let '(q, e, l) := SFdiv_core_binary prec emax n 0 (Zpos d) 0 in
      SF2Prim (binary_round_aux prec emax neg q e l)
  | Zneg _ => nan
  end.

(** The integer [n] for which [n / 100 - m * 2^e] is closest to zero, the
    larger one when there are two (step 10.a of [Number.prototype.toFixed]). *)
Definition hundredths (m : positive) (e : Z) : Z :=
  match e with
  | Zneg k => (200 * Zpos m + Z.pow_pos 2 k) / Z.pow_pos 2 (Pos.succ k)
  | _ => 100 * Zpos m * 2 ^ e
  end.

(** [Number(x.toFixed(2))].  [toFixed] prints a finite [x] below [10^21] as
    the digits of [hundredths |x|] with a point before the last two, after a
    ["-"] when [x < 0]; it prints larger values, infinities and [NaN] as
    [String(x)] does, which [Number] reads back as [x].  [Number] then
    rounds the printed decimal to the nearest number. *)
Definition toFixed2 (x : number) : number :=
  match Prim2SF x with
  | S754_zero _ => 0%float
  | S754_finite s m e =>
      if PrimFloat.leb 1e21%float (PrimFloat.abs x) then x
      else of_decimal s (hundredths m e) 100
  | _ => x
  end.

End JsNumber.
Import JsNumber.

(** ** JavaScript strings *)

Module JsString.

Definition codeunit := N.
Definition jsstring := list codeunit.

Local Open Scope N_scope.

(** Code units of an ASCII literal. *)
Fixpoint lit (s : String.string) : jsstring :=
  match s with
  | String.EmptyString => []
  | String.String c t => Ascii.N_of_ascii c :: lit t
  end.

Arguments lit s%_string.

Fixpoint eqb (a b : jsstring) : bool :=
  match a, b with
  | [], [] => true
  | x :: a', y :: b' => N.eqb x y && eqb a' b'
  | _, _ => false
  end.

(** WhiteSpace and LineTerminator code points: what [\s] matches and what
    [trim] strips. *)
Definition is_space (c : codeunit) : bool :=
  ((9 <=? c) && (c <=? 13)) || (c =? 32) || (c =? 160) || (c =? 5760)
  || ((8192 <=? c) && (c <=? 8202)) || (c =? 8232) || (c =? 8233)
  || (c =? 8239) || (c =? 8287) || (c =? 12288) || (c =? 65279).

(** LineTerminator: what [.] does not match. *)
Definition is_line_terminator (c : codeunit) : bool :=
  (c =? 10) || (c =? 13) || (c =? 8232) || (c =? 8233).

Definition is_digit (c : codeunit) : bool := (48 <=? c) && (c <=? 57).

(** Canonicalisation of an ignore-case match without the [u] flag: the
    upper-case mapping, which is not applied when it would take a non-ASCII
    code unit to an ASCII one; for a pattern of ASCII letters only the two
    cases of the letter match. *)
Definition upper_ascii (c : codeunit) : codeunit :=
  if (97 <=? c) && (c <=? 122) then c - 32 else c.

Definition eq_ignore_case (p c : codeunit) : bool :=
  upper_ascii p =? upper_ascii c.

Fixpoint drop_while (p : codeunit -> bool) (s : jsstring) : jsstring :=
  match s with
  | c :: t => if p c then drop_while p t else s
  | [] => []
  end.

Fixpoint take_while (p : codeunit -> bool) (s : jsstring) : jsstring :=
  match s with
  | c :: t => if p c then c :: take_while p t else []
  | [] => []
  end.

(** [s.trim()]. *)
Definition trim (s : jsstring) : jsstring :=
  rev (drop_while is_space (rev (drop_while is_space s))).

(** [s.split('\n')]: never empty. *)
Fixpoint split_on (sep : codeunit) (s : jsstring) : list jsstring :=
  match s with
  | [] => [[]]
  | c :: t =>
      if c =? sep then [] :: split_on sep t
      else match split_on sep t with
           | l :: ls => (c :: l) :: ls
           | [] => [[c]]
           end
  end.

(** [s.replace(a, b)] with a one-unit string pattern: the first occurrence
    only. *)
Fixpoint replace_first (a b : codeunit) (s : jsstring) : jsstring :=
  match s with
  | [] => []
  | c :: t => if c =? a then b :: t else c :: replace_first a b t
  end.

(** [arr.slice(start, -k)]. *)
Definition slice_from_to_last {A} (start k : nat) (l : list A) : list A :=
  skipn start (firstn (length l - k) l).

End JsString.
Import JsString.

(** ** Regular expressions

    The backtracking matcher of the language specification, for the
    constructs the source's patterns use.  A matcher takes a continuation;
    a quantifier tries its alternatives in priority order and an iteration
    that consumes nothing is rejected. *)

Module Regex.

Inductive regex :=
| Chr (p : codeunit -> bool)
| Eps
| Seq (a b : regex)
| Alt (a b : regex)
| Star (greedy : bool) (a : regex)
| Group (i : nat) (a : regex)
| Bol
| Eol.

(** Capture [i] is the pair of the positions where it starts and ends. *)
Definition captures := list (nat * (nat * nat)).

Record match_result := { m_end : nat; m_caps : captures }.

Definition cont := jsstring -> nat -> captures -> option match_result.

Fixpoint run (r : regex) (k : cont) (rest : jsstring) (pos : nat)
  (caps : captures) {struct r} : option match_result :=
  match r with
  | Chr p =>
      match rest with
      | c :: t => if p c then k t (S pos) caps else None
      | [] => None
      end
  | Eps => k rest pos caps
  | Seq a b => run a (run b k) rest pos caps
  | Alt a b =>
      match run a k rest pos caps with
      | Some x => Some x
      | None => run b k rest pos caps
      end
  | Star greedy a =>
      (fix loop (fuel : nat) (rest : jsstring) (pos : nat) (caps : captures)
         {struct fuel} : option match_result :=
         match fuel with
         | O => k rest pos caps
         | S fuel' =>
             let again :=
               run a (fun rest' pos' caps' =>
                        if Nat.eqb pos' pos then None
                        else loop fuel' rest' pos' caps') in
             if greedy then
               match again rest pos caps with
               | Some x => Some x
               | None => k rest pos caps
               end
             else
               match k rest pos caps with
               | Some x => Some x
               | None => again rest pos caps
               end
         end) (length rest) rest pos caps
  | Group i a =>
      run a (fun rest' pos' caps' => k rest' pos' ((i, (pos, pos')) :: caps'))
        rest pos caps
  | Bol => if Nat.eqb pos 0 then k rest pos caps else None
  | Eol => match rest with [] => k rest pos caps | _ => None end
  end.

Definition accept : cont := fun _ pos caps => Some {| m_end := pos; m_caps := caps |}.

(** The leftmost match: the first start position at which the pattern
    matches. *)
Fixpoint search (r : regex) (rest : jsstring) (pos : nat)
  : option (nat * match_result) :=
  match run r accept rest pos [] with
  | Some m => Some (pos, m)
  | None =>
      match rest with
      | [] => None
      | _ :: t => search r t (S pos)
      end
  end.

Definition substring (s : jsstring) (from to : nat) : jsstring :=
  firstn (to - from) (skipn from s).

Fixpoint capture (i : nat) (caps : captures) : option (nat * nat) :=
  match caps with
  | [] => None
  | (j, span) :: t => if Nat.eqb i j then Some span else capture i t
  end.

(** [s.match(r)] for a pattern without the [g] flag: the matched text
    (element 0) and a reader of the groups. *)
Record match_array := { whole : jsstring; group : nat -> option jsstring }.

Definition exec (r : regex) (s : jsstring) : option match_array :=
  match search r s 0 with
  | None => None
  | Some (start, m) =>
      Some {| whole := substring s start (m_end m);
              group := fun i =>
                match capture i (m_caps m) with
                | Some (a, b) => Some (substring s a b)
                | None => None
                end |}
  end.

(** [r.test(s)]. *)
Definition test (r : regex) (s : jsstring) : bool :=
  match search r s 0 with Some _ => true | None => false end.

(** [s.replace(r, '')] for a pattern without the [g] flag. *)
Definition remove_first (r : regex) (s : jsstring) : jsstring :=
  match search r s 0 with
  | None => s
  | Some (start, m) => firstn start s ++ skipn (m_end m) s
  end.

(** Pattern syntax. *)
Definition plus (greedy : bool) (a : regex) : regex := Seq a (Star greedy a).
Definition opt (a : regex) : regex := Alt a Eps.
Definition chr (c : codeunit) : regex := Chr (N.eqb c).
Definition one_of (cs : list codeunit) : regex :=
  Chr (fun c => existsb (N.eqb c) cs).
Definition dot : regex := Chr (fun c => negb (is_line_terminator c)).
Definition digit : regex := Chr is_digit.
Definition space : regex := Chr is_space.

Fixpoint seq_of (rs : list regex) : regex :=
  match rs with
  | [] => Eps
  | [r] => r
  | r :: t => Seq r (seq_of t)
  end.

Fixpoint alt_of (rs : list regex) : regex :=
  match rs with
  | [] => Eps
  | [r] => r
  | r :: t => Alt r (alt_of t)
  end.

(** A literal word under the [i] flag. *)
Definition word_i (w : String.string) : regex :=
  seq_of (map (fun p => Chr (eq_ignore_case p)) (lit w)).

Arguments word_i w%_string.

End Regex.
Import Regex.

(** ** [parseFloat]

    The source calls [parseFloat] on text matched by [[\d,.]+] in which the
    first comma was replaced by a dot: leading white space is skipped, then
    the longest prefix [digits], [digits.digits] or [.digits] is read
    (signs, exponents and [Infinity] cannot occur in such text); there is no
    number when neither side of the point has a digit. *)

Module JsParse.

Fixpoint digits_value (acc : Z) (ds : jsstring) : Z :=
  match ds with
  | [] => acc
  | c :: t => digits_value (10 * acc + (Z.of_N c - 48)) t
  end.

Fixpoint pow10 (n : nat) : positive :=
  match n with
  | O => 1%positive
  | S n' => (10 * pow10 n')%positive
  end.

Definition parseFloat (s : jsstring) : number :=
  let s := drop_while is_space s in
  let int_part := take_while is_digit s in
  let frac_part :=
    match drop_while is_digit s with
    | 46%N :: t => take_while is_digit t
    | _ => []
    end in
  match int_part ++ frac_part with
  | [] => nan
  | ds => of_decimal false (digits_value 0 ds) (pow10 (length frac_part))
  end.

End JsParse.
Import JsParse.

(** ** Record types ([types.ts])

    An optional field ([name?: T]) is an [option].  [items], [subtotal] and
    [tax] are declared mandatory, but a record parsed from the model's JSON
    may lack them and the reconciler tests for that, so they are options as
    well. *)

Record ReceiptItem := {
  description : jsstring;
  quantity : number;
  unitPrice : number;
  totalPrice : number;
  category : option jsstring;
  vatRate : option number
}.

Record TaxBreakdown := {
  rate : number;
  amount : number;
  base : number
}.

Record ReceiptData := {
  merchantName : jsstring;
  merchantAddress : option jsstring;
  taxNumber : option jsstring;
  taxOffice : option jsstring;
  sicilNumber : option jsstring;
  date : jsstring;
  time : option jsstring;
  items : option (list ReceiptItem);
  subtotal : option number;
  tax : option number;
  taxBreakdown : option (list TaxBreakdown);
  total : number;
  totalInWords : option jsstring;
  currency : jsstring;
  paymentMethod : option jsstring;
  invoiceNumber : option jsstring;
  zNumber : option jsstring;
  ekuNumber : option jsstring;
  cashier : option jsstring
}.

(** ** Objects keyed by a number ([Record<number, V>])

    A property key is the string of the number, so [0] and [-0] are one key
    and every other number has a key of its own.  [Object.keys] lists first
    the keys that are array indices (the integers up to [2^32 - 2]) in
    ascending order, then the other keys in the order they were created. *)

Module NumberKeyed.

Definition key := spec_float.

Definition key_of (r : number) : key :=
  match Prim2SF r with
  | S754_zero _ => S754_zero false
  | k => k
  end.

(** [Number(k)] of a key. *)
Definition number_of (k : key) : number := SF2Prim k.

Definition key_eqb (a b : key) : bool :=
  match a, b with
  | S754_zero s, S754_zero s' => Bool.eqb s s'
  | S754_infinity s, S754_infinity s' => Bool.eqb s s'
  | S754_nan, S754_nan => true
  | S754_finite s m e, S754_finite s' m' e' =>
      Bool.eqb s s' && Pos.eqb m m' && Z.eqb e e'
  | _, _ => false
  end.

Definition array_index (k : key) : option Z :=
  match k with
  | S754_zero _ => Some 0
  | S754_finite false m e =>
      let n :=
        match e with
        | Zneg p => if Zpos m mod Z.pow_pos 2 p =? 0
                    then Some (Zpos m / Z.pow_pos 2 p) else None
        | _ => Some (Zpos m * 2 ^ e)
        end in
      match n with
      | Some i => if i <? 2 ^ 32 - 1 then Some i else None
      | None => None
      end
  | _ => None
  end.

Section Object.
Context {V : Type}.

(** The properties in creation order. *)
Definition object := list (key * V).

Fixpoint get (o : object) (k : key) : option V :=
  match o with
  | [] => None
  | (k', v) :: t => if key_eqb k k' then Some v else get t k
  end.

(** Assignment to [o[k]]: an existing property keeps its place, a new one
    comes last. *)
Fixpoint set (o : object) (k : key) (v : V) : object :=
  match o with
  | [] => [(k, v)]
  | (k', v') :: t =>
      if key_eqb k k' then (k', v) :: t else (k', v') :: set t k v
  end.

Fixpoint insert_index (i : Z) (k : key) (l : list (Z * key)) : list (Z * key) :=
  match l with
  | [] => [(i, k)]
  | (j, k') :: t =>
      if i <? j then (i, k) :: l else (j, k') :: insert_index i k t
  end.

Fixpoint index_keys (o : object) : list (Z * key) :=
  match o with
  | [] => []
  | (k, _) :: t =>
      match array_index k with
      | Some i => insert_index i k (index_keys t)
      | None => index_keys t
      end
  end.

Fixpoint named_keys (o : object) : list key :=
  match o with
  | [] => []
  | (k, _) :: t =>
      match array_index k with
      | Some _ => named_keys t
      | None => k :: named_keys t
      end
  end.

(** [Object.keys(o)]. *)
Definition keys (o : object) : list key :=
  map snd (index_keys o) ++ named_keys o.
End Object.

Arguments object : clear implicits.

End NumberKeyed.

(** ** The receipt parser ([services/geminiService.ts]) *)

Module GeminiService.

Import NumberKeyed.

Local Open Scope float_scope.

(** The running state of the [forEach] of [recalculateFinancials]. *)
Record totals := {
  calculatedTotal : number;
  calculatedTax : number;
  calculatedSubtotal : number;
  breakdownMap : object (number * number)   (* base, amount *)
}.

(** Tax and base of a tax-inclusive price. *)
Definition taxAmount (price rate : number) : number :=
  price * (rate / (100 + rate)).

Definition baseAmount (price rate : number) : number :=
  price - taxAmount price rate.

Definition item_price (item : ReceiptItem) : number :=
  or_else (Number_ (Some (totalPrice item))) 0.

Definition item_rate (item : ReceiptItem) : number :=
  or_else (Number_ (vatRate item)) 0.

(** The body of the [forEach], for the price and the rate of the item. *)
Definition add_amounts (acc : totals) (price rate : number) : totals :=
  let tax_amount := taxAmount price rate in
  let base_amount := baseAmount price rate in
  let k := key_of rate in
  let '(b, a) :=
    match get (breakdownMap acc) k with
    | Some entry => entry
    | None => (0, 0)
    end in
  {| calculatedTotal := calculatedTotal acc + price;
     calculatedTax := calculatedTax acc + tax_amount;
     calculatedSubtotal := calculatedSubtotal acc + base_amount;
     breakdownMap := set (breakdownMap acc) k (b + base_amount, a + tax_amount) |}.

Definition add_item (acc : totals) (item : ReceiptItem) : totals :=
  add_amounts acc (item_price item) (item_rate item).

Definition no_totals : totals :=
  {| calculatedTotal := 0; calculatedTax := 0; calculatedSubtotal := 0;
     breakdownMap := [] |}.

Definition accumulate (its : list ReceiptItem) : totals :=
  fold_left add_item its no_totals.

(** [Object.keys(breakdownMap).map(...)]. *)
Definition newBreakdown (m : object (number * number)) : list TaxBreakdown :=
  map (fun r =>
         let entry := match get m r with Some e => e | None => (nan, nan) end in
         {| rate := number_of r;
            base := toFixed2 (fst entry);
            amount := toFixed2 (snd entry) |})
      (keys m).

(** [v && v > 0] as a condition, for a number that may be absent. *)
Definition present_and_positive (v : option number) : bool :=
  match v with
  | Some x => truthy x && gt x 0
  | None => false
  end.

Definition recalculateFinancials (data : ReceiptData) : ReceiptData :=
  match items data with
  | None | Some [] => data
  | Some its =>
      let acc := accumulate its in
      let finalTotal :=
        if gt (total data) 0 then total data else calculatedTotal acc in
      let finalTax :=
        if present_and_positive (tax data) then Number_ (tax data)
        else calculatedTax acc in
      let finalSubtotal :=
        if present_and_positive (subtotal data) then Number_ (subtotal data)
        else calculatedSubtotal acc in
      {| merchantName := merchantName data;
         merchantAddress := merchantAddress data;
         taxNumber := taxNumber data;
         taxOffice := taxOffice data;
         sicilNumber := sicilNumber data;
         date := date data;
         time := time data;
         items := items data;
         subtotal := Some (toFixed2 finalSubtotal);
         tax := Some (toFixed2 finalTax);
         taxBreakdown :=
           match taxBreakdown data with
           | Some (_ :: _) => taxBreakdown data
           | _ => Some (newBreakdown (breakdownMap acc))
           end;
         total := toFixed2 finalTotal;
         totalInWords := totalInWords data;
         currency := currency data;
         paymentMethod := paymentMethod data;
         invoiceNumber := invoiceNumber data;
         zNumber := zNumber data;
         ekuNumber := ekuNumber data;
         cashier := cashier data |}
  end.

(** *** The fallback parser *)

Local Open Scope N_scope.

(** [/(?:TOPLAM|TOTAL|TUTAR|AMOUNT)[\s:*]*([\d,.]+)\s*([$€₺]?)/i] *)
Definition totalRegex : regex :=
  seq_of
    [ alt_of [word_i "TOPLAM"; word_i "TOTAL"; word_i "TUTAR"; word_i "AMOUNT"];
      Star true (Chr (fun c => is_space c || (c =? 58) || (c =? 42)));
      Group 1 (plus true (Chr (fun c => is_digit c || (c =? 44) || (c =? 46))));
      Star true space;
      Group 2 (opt (one_of [36; 8364; 8378])) ].

(** [/(\d{2}[./-]\d{2}[./-]\d{2,4})|(\d{4}[./-]\d{2}[./-]\d{2})/] *)
Definition dateRegex : regex :=
  let sep := one_of [46; 47; 45] in
  Alt
    (Group 1 (seq_of [digit; digit; sep; digit; digit; sep;
                      digit; digit; opt (Seq digit (opt digit))]))
    (Group 2 (seq_of [digit; digit; digit; digit; sep; digit; digit; sep;
                      digit; digit])).

(** [/(.+?)\s+([\d,.]+)\s*([$€₺]?)$/] *)
Definition priceLineRegex : regex :=
  seq_of
    [ Group 1 (plus false dot);
      plus true space;
      Group 2 (plus true (Chr (fun c => is_digit c || (c =? 44) || (c =? 46))));
      Star true space;
      Group 3 (opt (one_of [36; 8364; 8378]));
      Eol ].

(** [/^[#*]+\s*/] *)
Definition headingMarkup : regex :=
  seq_of [Bol; plus true (one_of [35; 42]); Star true space].

(** [/^\|\s*/] and [/\s*\|$/] *)
Definition leadingPipe : regex := seq_of [Bol; chr 124; Star true space].
Definition trailingPipe : regex := seq_of [Star true space; chr 124; Eol].

(** [/toplam|kdv|subtotal|total|ara toplam/i] *)
Definition summaryKeyword : regex :=
  alt_of [word_i "toplam"; word_i "kdv"; word_i "subtotal"; word_i "total";
          word_i "ara toplam"].

(** ["Ürün Bulunamadı"] *)
Definition notFoundLabel : jsstring :=
  [220; 114; 252; 110; 32; 66; 117; 108; 117; 110; 97; 109; 97; 100; 305].

(** ['₺'] *)
Definition lira : jsstring := [8378].

Definition group_text (m : match_array) (i : nat) : jsstring :=
  match group m i with Some t => t | None => [] end.

(** The callback of [lines.slice(1, -3).forEach]: the item a line adds, if
    any. *)
Definition line_item (line : jsstring) : option ReceiptItem :=
  let cleanLine := remove_first trailingPipe (remove_first leadingPipe line) in
  match exec priceLineRegex cleanLine with
  | None => None
  | Some m =>
      let desc := trim (group_text m 1) in
      if test summaryKeyword desc then None
      else
        let price := parseFloat (replace_first 44 46 (group_text m 2)) in
        if negb (isNaN price) && gt price 0%float then
          Some {| description := desc; quantity := 1%float;
                  unitPrice := price; totalPrice := price;
                  category := Some (lit "General"); vatRate := Some 20%float |}
        else None
  end.

Fixpoint scan_lines (lines : list jsstring) : list ReceiptItem :=
  match lines with
  | [] => []
  | line :: rest =>
      match line_item line with
      | Some item => item :: scan_lines rest
      | None => scan_lines rest
      end
  end.

Local Open Scope float_scope.

(** [text.split('\n').filter(line => line.trim() !== '')] *)
Definition nonblank_lines (text : jsstring) : list jsstring :=
  filter (fun line => negb (JsString.eqb (trim line) [])) (split_on 10%N text).

(** The items the [forEach] pushes, in order. *)
Definition matched_items (text : jsstring) : list ReceiptItem :=
  scan_lines (slice_from_to_last 1 3 (nonblank_lines text)).

(** The item that stands in when no line matched. *)
Definition placeholder_item (finalTotal : number) : ReceiptItem :=
  {| description := notFoundLabel; quantity := 1;
     unitPrice := finalTotal; totalPrice := finalTotal;
     category := None; vatRate := Some 20 |}.

Definition parseViaRegex (text : jsstring) : ReceiptData :=
  let lines := nonblank_lines text in
  let merchantName :=
    match lines with
    | first :: _ => remove_first headingMarkup first
    | [] => []
    end in
  let total :=
    match exec totalRegex text with
    | Some m => parseFloat (replace_first 44%N 46%N (group_text m 1))
    | None => 0
    end in
  let date :=
    match exec dateRegex text with
    | Some m => whole m
    | None => []
    end in
  let items := matched_items text in
  let calculatedSubtotal :=
    fold_left (fun acc item => acc + totalPrice item) items 0 in
  let finalTotal := if gt total 0 then total else calculatedSubtotal in
  let tax := finalTotal * 0.18 in
  let subtotal := finalTotal - tax in
  {| merchantName := merchantName;
     merchantAddress := Some [];
     taxNumber := Some [];
     taxOffice := None;
     sicilNumber := None;
     date := date;
     time := Some [];
     items :=
       Some match items with
            | _ :: _ => items
            | [] => [placeholder_item finalTotal]
            end;
     subtotal := Some subtotal;
     tax := Some tax;
     taxBreakdown := None;
     total := finalTotal;
     totalInWords := Some [];
     currency := lira;
     paymentMethod := Some [];
     invoiceNumber := Some [];
     zNumber := Some [];
     ekuNumber := Some [];
     cashier := None |}.

(** *** The entry point

    The language model and [JSON.parse] are outside the program.  The call
    either throws ([None]) or delivers a response whose [text] may be absent;
    [JSON.parse] either throws ([None]) or delivers a record of the schema
    the request imposes. *)

Section Gemini.
Variable generateContent : jsstring -> option (option jsstring).
Variable JSON_parse : jsstring -> option ReceiptData.

Definition blank (apiKey : option jsstring) : bool :=
  match apiKey with
  | None | Some [] => true
  | Some k => JsString.eqb (trim k) []
  end.

Definition parseReceiptWithGemini (markdownText : jsstring)
  (apiKey : option jsstring) : ReceiptData :=
  if blank apiKey then parseViaRegex markdownText
  else
    match generateContent markdownText with
    | Some (Some jsonText) =>
        match jsonText with
        | [] => parseViaRegex markdownText      (* "Empty response" thrown *)
        | _ =>
            match JSON_parse jsonText with
            | Some parsedData => recalculateFinancials parsedData
            | None => parseViaRegex markdownText
            end
        end
    | Some None => parseViaRegex markdownText   (* "Empty response" thrown *)
    | None => parseViaRegex markdownText
    end.
End Gemini.

End GeminiService.

(** ** [parseInt] and [Array.prototype.join] *)

Module JsInt.

Local Open Scope N_scope.

Definition is_hex_digit (c : codeunit) : bool :=
  is_digit c || ((65 <=? c) && (c <=? 70)) || ((97 <=? c) && (c <=? 102)).

Definition hex_digit_value (c : codeunit) : Z :=
  if is_digit c then Z.of_N c - 48
  else if c <=? 70 then Z.of_N c - 55
  else Z.of_N c - 87.

Fixpoint hex_digits_value (acc : Z) (ds : jsstring) : Z :=
  match ds with
  | [] => acc
  | c :: t => hex_digits_value (16 * acc + hex_digit_value c) t
  end.

(** A sign at the beginning, and what follows it. *)
Definition strip_sign (s : jsstring) : bool * jsstring :=
  match s with
  | 45 :: t => (true, t)
  | 43 :: t => (false, t)
  | _ => (false, s)
  end.

(** ["0x"] or ["0X"] at the beginning, and what follows it. *)
Definition strip_prefix (s : jsstring) : bool * jsstring :=
  match s with
  | 48 :: 120 :: t => (true, t)
  | 48 :: 88 :: t => (true, t)
  | _ => (false, s)
  end.

(** [parseInt(s)], without a radix: leading white space is skipped, then
    a sign; after ["0x"] or ["0X"] the digits are hexadecimal, otherwise
    decimal; they are read up to the first character that is not a digit,
    and there is no number when there is none.  The result is the number
    nearest to the integer read (all its digits count; the language lets
    an implementation take the decimal digits after the twentieth for
    zeros). *)
Definition parseInt (s : jsstring) : number :=
  let '(neg, s) := strip_sign (drop_while is_space s) in
  let '(hex, s) := strip_prefix s in
  let ds := take_while (if hex then is_hex_digit else is_digit) s in
  match ds with
  | [] => nan
  | _ =>
      of_decimal neg
        (if hex then hex_digits_value 0 ds else digits_value 0 ds) 1
  end.

(** [arr.join(sep)] for an array of strings. *)
Fixpoint join (sep : jsstring) (l : list jsstring) : jsstring :=
  match l with
  | [] => []
  | [s] => s
  | s :: t => s ++ sep ++ join sep t
  end.

(** [arr.length] as a number. *)
Definition length_number {A : Type} (l : list A) : number :=
  of_decimal false (Z.of_nat (length l)) 1.

End JsInt.
Import JsInt.

(** ** The OCR client ([services/mistralService.ts]) *)

Module MistralService.

Local Open Scope N_scope.

Inductive ApiMode := realtime | batch.

(** *** Types ([types.ts])

    The response of the service is read at the types the program declares
    for it; a field may be absent or [null] ([None]). *)

Record OCRPageDimensions := { dpi : number; height : number; width : number }.

Record OCRImageObject := {
  id : jsstring;
  top_left_x : option number;
  top_left_y : option number;
  bottom_right_x : option number;
  bottom_right_y : option number;
  image_base64 : option jsstring;
  image_annotation : option jsstring
}.

Record OCRPageObject := {
  index : number;
  page_markdown : option jsstring;
  page_images : option (list OCRImageObject);
  dimensions : option OCRPageDimensions
}.

Record OCRUsageInfo := {
  pages_processed : option number;
  doc_size_bytes : option number
}.

(** The body of a response: the fields the client reads, of a result and
    of an error. *)
Record ResponseBody := {
  model : option jsstring;
  pages : option (list OCRPageObject);
  markdown : option jsstring;
  usage_info : option OCRUsageInfo;
  message : option jsstring;
  error_message : option jsstring     (* [error.message] *)
}.

Record Usage := { usage_pages : number; usage_cost : number }.

Record OCRResult := {
  result_markdown : jsstring;
  result_json : ResponseBody;
  result_images : list (jsstring + OCRImageObject);
  receiptData : option ReceiptData;
  usage : Usage
}.

(** A value that was thrown, or with which a promise was rejected: its
    [name] and its [message], when it has them. *)
Record Thrown := { error_name : option jsstring; error_text : option jsstring }.

(** [new Error(msg)] *)
Definition Error (msg : jsstring) : Thrown :=
  {| error_name := Some (lit "Error"); error_text := Some msg |}.

(** *** The request *)

(** [{ type: t, [k]: v }] *)
Record Document := {
  document_type : jsstring;
  document_key : jsstring;
  document_value : jsstring
}.

Record Payload := {
  payload_model : jsstring;
  include_image_base64 : bool;
  document : Document;
  payload_pages : option (list number)
}.

Record Request := {
  endpoint : jsstring;
  method : jsstring;
  content_type : jsstring;
  authorization : jsstring;
  body : Payload        (* [JSON.stringify(payload)] *)
}.

Record Response := {
  ok : bool;
  status : jsstring;          (* the digits of the status *)
  statusText : jsstring;
  json : Thrown + ResponseBody
}.

Definition API_ENDPOINT : jsstring := lit "https://api.mistral.ai/v1/ocr".

(** [/\.(jpeg|jpg|png|webp)$/i] *)
Definition imageExtension : regex :=
  seq_of
    [ chr 46;
      Group 1 (alt_of [word_i "jpeg"; word_i "jpg"; word_i "png";
                       word_i "webp"]);
      Eol ].

(** [s.startsWith(prefix)] *)
Fixpoint startsWith (s prefix : jsstring) : bool :=
  match prefix, s with
  | [], _ => true
  | p :: prefix', c :: s' => (c =? p) && startsWith s' prefix'
  | _ :: _, [] => false
  end.

(** A string in a template literal; [undefined] prints as its name. *)
Definition in_template (v : option jsstring) : jsstring :=
  match v with
  | Some s => s
  | None => lit "undefined"
  end.

(** A string as a condition: the empty string and [undefined] are falsy. *)
Definition truthy_string (v : option jsstring) : bool :=
  match v with
  | Some (_ :: _) => true
  | _ => false
  end.

(** The document of a URL. *)
Definition url_document (inputSource : jsstring) : Document :=
  let isImage := test imageExtension inputSource in
  {| document_type := if isImage then lit "image_url" else lit "document_url";
     document_key := if isImage then lit "image_url" else lit "document_url";
     document_value := inputSource |}.

(** The document of a file of the type [type] that was read as
    [base64Image]. *)
Definition file_document (type : jsstring) (base64Image : option jsstring)
  : Document :=
  let isImage := startsWith type (lit "image/") in
  let docType := if isImage then lit "image_url" else lit "document_url" in
  let dataUri :=
    lit "data:" ++ type ++ lit ";base64," ++ in_template base64Image in
  {| document_type := docType;
     document_key :=
       if JsString.eqb docType (lit "image_url") then lit "image_url"
       else lit "document_url";
     document_value := dataUri |}.

(** [pages.split(',').map(p => parseInt(p.trim())).filter(n => !isNaN(n))] *)
Definition pageList (pages : jsstring) : list number :=
  filter (fun n => negb (isNaN n))
    (map (fun p => parseInt (trim p)) (split_on 44 pages)).

(** What [payload.pages] is set to, if it is set. *)
Definition requested_pages (pages : jsstring) : option (list number) :=
  if negb (JsString.eqb pages []) && negb (JsString.eqb (trim pages) []) then
    match pageList pages with
    | [] => None
    | pageList => Some pageList
    end
  else None.

(** *** The response *)

(** [v || d] on strings. *)
Definition or_string (v : option jsstring) (d : jsstring) : jsstring :=
  match v with
  | Some (c :: s) => c :: s
  | _ => d
  end.

(** The message of the error for a response that is not [ok]: the one of
    the body, if the body can be read and has one. *)
Definition errorMessage (response : Response) : jsstring :=
  let errorMessage :=
    lit "API Error: " ++ status response ++ lit " " ++ statusText response in
  match json response with
  | inr errorData =>
      or_string (message errorData)
        (or_string (error_message errorData) errorMessage)
  | inl _ => errorMessage
  end.

(** An element of an array in [join]: [undefined] and [null] give the
    empty string. *)
Definition joined (v : option jsstring) : jsstring :=
  match v with Some s => s | None => [] end.

(** ['\n\n---\n\n'] *)
Definition page_separator : jsstring := [10; 10; 45; 45; 45; 10; 10].

Definition fullMarkdown (data : ResponseBody) : jsstring :=
  match pages data with
  | Some ps =>
      join page_separator (map (fun p => joined (page_markdown p)) ps)
  | None => or_string (markdown data) []
  end.

Definition allImages (data : ResponseBody) : list (jsstring + OCRImageObject) :=
  match pages data with
  | Some ps =>
      flat_map (fun p =>
                  match page_images p with
                  | Some imgs =>
                      map (fun img =>
                             match image_base64 img with
                             | Some (c :: s) => inl (c :: s)
                             | _ => inr img
                             end) imgs
                  | None => []
                  end) ps
  | None => []
  end.

(** [v || d] on numbers, for a [v] that may be [undefined]. *)
Definition or_number (v : option number) (d : number) : number :=
  match v with
  | Some n => or_else n d
  | None => d
  end.

(** [data.usage_info?.pages_processed || data.pages?.length || 1] *)
Definition usagePages (data : ResponseBody) : number :=
  or_number
    match usage_info data with
    | Some info => pages_processed info
    | None => None
    end
    (or_number
       match pages data with
       | Some ps => Some (length_number ps)
       | None => None
       end
       1%float).

(** *** The mock result *)

Definition mockReceiptMarkdown : jsstring :=
  join [10]
    [ [];
      lit "# MIGROS TICARET A.S.";
      lit "Atat" ++ [252] ++ lit "rk Mah. " ++ [304] ++ lit "stiklal Cad. No:12";
      lit "Istanbul / TR";
      lit "Tel: 0212 555 10 20";
      [];
      lit "**TARIH**: 22.05.2024  **SAAT**: 14:30";
      lit "**F" ++ [304] ++ lit "S NO**: 0045      **EKU NO**: 0001";
      [];
      lit "| URUN ADI | MIKTAR | FIYAT | TUTAR |";
      lit "| :--- | :--- | :--- | :--- |";
      lit "| S" ++ [220] ++ lit "TA" ++ [350] ++ lit " TAM YA" ++ [286]
        ++ lit "LI S" ++ [220] ++ lit "T 1L | 2 Adet | *35,50 | 71,00 |";
      lit "| BARILLA SPAGETTI 500G | 1 Adet | *28,90 | 28,90 |";
      lit "| DOMATES (KG) | 1,500 Kg | *40,00 | 60,00 |";
      lit "| PO" ++ [350] ++ lit "ET | 1 Adet | *0,25 | 0,25 |";
      [];
      lit "---";
      lit "**ARA TOPLAM**: 140,00 " ++ [8378];
      lit "**KDV (%18)**: 20,15 " ++ [8378];
      lit "**GENEL TOPLAM**: 160,15 " ++ [8378];
      lit "---";
      [];
      lit "**ODEME**: KREDI KARTI (**** 1234)";
      lit "**KAS" ++ [304] ++ lit "YER**: Ahmet Y.";
      [];
      lit "Mali De" ++ [287] ++ lit "eri Yoktur.";
      lit "Tesekk" ++ [252] ++ lit "rler, yine bekleriz.";
      [] ].

Definition mockResult : OCRResult :=
  {| result_markdown := mockReceiptMarkdown;
     result_json :=
       {| model := Some (lit "mistral-ocr-mock");
          pages :=
            Some [ {| index := 0%float;
                      page_markdown := Some mockReceiptMarkdown;
                      page_images := Some [];
                      dimensions :=
                        Some {| dpi := 72%float; width := 600%float;
                                height := 1000%float |} |} ];
          markdown := None;
          usage_info :=
            Some {| pages_processed := Some 1%float;
                    doc_size_bytes := Some 1024%float |};
          message := None;
          error_message := None |};
     result_images := [];
     receiptData := None;
     usage := {| usage_pages := 1%float; usage_cost := 0%float |} |}.

(** *** Progress reports and failures

    A step of the client reports progress through [onProgress] and ends
    with a value or with something thrown: the reports so far, in order,
    and the outcome.  The pauses of the mock mode pass no value and are
    left out. *)

Definition step (A : Type) : Type := list jsstring * (Thrown + A).

Definition ret {A : Type} (a : A) : step A := ([], inr a).

Definition throw {A : Type} (e : Thrown) : step A := ([], inl e).

Definition bind {A B : Type} (m : step A) (f : A -> step B) : step B :=
  match m with
  | (reports, inl e) => (reports, inl e)
  | (reports, inr a) => let '(reports', r) := f a in (reports ++ reports', r)
  end.

(** [await p], for a promise that is fulfilled or rejected. *)
Definition await {A : Type} (p : Thrown + A) : step A := ([], p).

Definition onProgress (status : jsstring) : step unit := ([status], inr tt).

(** [try { m } catch (error) { handler }] *)
Definition try_catch {A : Type} (m : step A) (handler : Thrown -> step A)
  : step A :=
  match m with
  | (reports, inl e) =>
      let '(reports', r) := handler e in (reports ++ reports', r)
  | done => done
  end.

Declare Scope step_scope.
Delimit Scope step_scope with step.
Notation "x <- m ;; k" := (bind m (fun x => k))
  (at level 61, m at next level, right associativity) : step_scope.
Notation "m ;; k" := (bind m (fun _ => k))
  (at level 61, right associativity) : step_scope.

(** *** The client

    The file reader, the URL parser, the build-time setting of the model
    and the network are outside the program. *)

Section Client.

Variable File : Type.
(** [file.type] *)
Variable file_type : File -> jsstring.
(** [reader.readAsDataURL(file)]: [reader.result] on [onload], the error on
    [onerror]. *)
Variable readAsDataURL : File -> Thrown + jsstring.
(** Whether [new URL(str)] returns. *)
Variable new_URL : jsstring -> bool.
(** [import.meta.env.VITE_MISTRAL_MODEL] *)
Variable VITE_MISTRAL_MODEL : option jsstring.
Variable fetch : Request -> Thrown + Response.

Definition fileToBase64 (file : File) : Thrown + option jsstring :=
  match readAsDataURL file with
  | inr result => inr (nth_error (split_on 44 result) 1)
  | inl error => inl error
  end.

Definition isUrl (str : jsstring) : bool :=
  if new_URL str then true else false.

(** [!apiKey || apiKey.trim() === ''] *)
Definition no_key (apiKey : option jsstring) : bool :=
  match apiKey with
  | None | Some [] => true
  | Some k => JsString.eqb (trim k) []
  end.

Local Open Scope step_scope.

Definition processDocument (inputSource : File + jsstring)
  (apiKey : option jsstring) (apiMode : ApiMode) (pages : jsstring)
  : step OCRResult :=
  if no_key apiKey then
    onProgress (lit "Uploading document (Mock)...") ;;
    match apiMode with
    | batch =>
        onProgress (lit "Batch Job Queued (ID: batch_mock_001)...") ;;
        onProgress (lit "Processing in Batch Queue...")
    | realtime => ret tt
    end ;;
    onProgress (lit "Mistral OCR: Detecting text lines...") ;;
    onProgress (lit "Mistral OCR: Generating markdown...") ;;
    ret mockResult
  else
    try_catch
      (onProgress (lit "Preparing document...") ;;
       document <-
         match inputSource with
         | inr str =>
             if isUrl str then
               onProgress (lit "Sending URL to Mistral...") ;;
               ret (url_document str)
             else throw (Error (lit "Invalid input source"))
         | inl file =>
             onProgress (lit "Encoding file...") ;;
             base64Image <- await (fileToBase64 file) ;;
             onProgress (lit "Uploading to Mistral Cloud...") ;;
             ret (file_document (file_type file) base64Image)
         end ;;
       match apiMode with
       | batch => onProgress (lit "Sending to Batch Queue...")
       | realtime => ret tt
       end ;;
       response <-
         await (fetch
                  {| endpoint := API_ENDPOINT;
                     method := lit "POST";
                     content_type := lit "application/json";
                     authorization := lit "Bearer " ++ in_template apiKey;
                     body :=
                       {| payload_model :=
                            or_string VITE_MISTRAL_MODEL
                              (lit "mistral-ocr-latest");
                          include_image_base64 := true;
                          document := document;
                          payload_pages := requested_pages pages |} |}) ;;
       if negb (ok response) then throw (Error (errorMessage response))
       else
         data <- await (json response) ;;
         ret {| result_markdown := fullMarkdown data;
                result_json := data;
                result_images := allImages data;
                receiptData := None;
                usage := {| usage_pages := usagePages data;
                            usage_cost := 0%float |} |})
      (fun error =>
         if match error_name error, error_text error with
            | Some n, Some m =>
                JsString.eqb n (lit "TypeError")
                && JsString.eqb m (lit "Failed to fetch")
            | _, _ => false
            end
         then
           throw (Error (lit "Network Error: Possible CORS issue. Mistral API may not allow direct browser access. Please use a proxy or check your internet connection."))
         else throw error).

End Client.

End MistralService.

(** ** The application ([App.tsx])

    The handler of the button that starts a scan, as a change of the
    state of the component: the state it leaves when it has run to its
    end.  The keys come from the build-time settings. *)

Module App.

Import GeminiService MistralService.

Local Open Scope N_scope.

Inductive Status := idle | processing | gemini_processing | success | error.

Inductive Tab := visual | invoice_json | raw.

Section Component.

Variable File : Type.
Variable file_type : File -> jsstring.
Variable readAsDataURL : File -> Thrown + jsstring.
Variable new_URL : jsstring -> bool.
Variable VITE_MISTRAL_MODEL : option jsstring.
Variable fetch : Request -> Thrown + Response.
Variable generateContent : jsstring -> option (option jsstring).
Variable JSON_parse : jsstring -> option ReceiptData.
Variable JSON_stringify : ReceiptData -> jsstring.
(** [import.meta.env.VITE_MISTRAL_API_KEY], [VITE_GEMINI_API_KEY] *)
Variable mistralApiKey geminiApiKey : option jsstring.

Record State := {
  inputSource : option (File + jsstring);
  status : Status;
  statusMessage : jsstring;
  result : option OCRResult;
  estimatedPages : number;
  apiMode : ApiMode;
  pageRange : jsstring;
  inputCharCount : nat;
  outputCharCount : nat;
  activeTab : Tab;
  isMobileMenuOpen : bool
}.

(** ['API Anahtarları .env dosyasında bulunamadı!'] *)
Definition keys_missing : jsstring :=
  lit "API Anahtarlar" ++ [305] ++ lit " .env dosyas" ++ [305]
  ++ lit "nda bulunamad" ++ [305] ++ lit "!".

(** ['Fiş Verisi Ayrıştırılıyor (Gemini / Auto-Detect)...'] *)
Definition parsing_receipt : jsstring :=
  lit "Fi" ++ [351] ++ lit " Verisi Ayr" ++ [305; 351] ++ lit "t" ++ [305]
  ++ lit "r" ++ [305] ++ lit "l" ++ [305]
  ++ lit "yor (Gemini / Auto-Detect)...".

(** ['İşlem sırasında bir hata oluştu'] *)
Definition something_failed : jsstring :=
  [304; 351] ++ lit "lem s" ++ [305] ++ lit "ras" ++ [305]
  ++ lit "nda bir hata olu" ++ [351] ++ lit "tu".

Definition handleProcess (s : State) : State :=
  match inputSource s with
  | None => s
  | Some (inr []) => s           (* the empty string is falsy as well *)
  | Some source =>
      if negb (truthy_string mistralApiKey)
         || negb (truthy_string geminiApiKey)
      then
        {| inputSource := inputSource s;
           status := error;
           statusMessage := keys_missing;
           result := result s;
           estimatedPages := estimatedPages s;
           apiMode := apiMode s;
           pageRange := pageRange s;
           inputCharCount := inputCharCount s;
           outputCharCount := outputCharCount s;
           activeTab := activeTab s;
           isMobileMenuOpen := isMobileMenuOpen s |}
      else
        (* every report goes to [setStatusMessage], the last message set
           is the one of the outcome *)
        let '(_, outcome) :=
          processDocument File file_type readAsDataURL new_URL
            VITE_MISTRAL_MODEL fetch source mistralApiKey (apiMode s)
            (pageRange s) in
        match outcome with
        | inr ocrData =>
            let rawMarkdownLength := length (result_markdown ocrData) in
            let receipt :=
              parseReceiptWithGemini generateContent JSON_parse
                (result_markdown ocrData) geminiApiKey in
            let jsonLength := length (JSON_stringify receipt) in
            let finalResult :=
              {| result_markdown := result_markdown ocrData;
                 result_json := result_json ocrData;
                 result_images := result_images ocrData;
                 receiptData := Some receipt;
                 usage := usage ocrData |} in
            {| inputSource := inputSource s;
               status := success;
               statusMessage := parsing_receipt;
               result := Some finalResult;
               estimatedPages :=
                 if truthy (usage_pages (usage ocrData))
                 then usage_pages (usage ocrData)
                 else estimatedPages s;
               apiMode := apiMode s;
               pageRange := pageRange s;
               inputCharCount := rawMarkdownLength;
               outputCharCount := jsonLength;
               activeTab := visual;
               isMobileMenuOpen := false |}
        | inl thrown =>
            {| inputSource := inputSource s;
               status := error;
               statusMessage := or_string (error_text thrown) something_failed;
               result := None;
               estimatedPages := estimatedPages s;
               apiMode := apiMode s;
               pageRange := pageRange s;
               inputCharCount := 0;
               outputCharCount := 0;
               activeTab := visual;
               isMobileMenuOpen := false |}
        end
  end.

End Component.

End App.

(** * Vocabulary of the properties *)

(** ** Numbers as rationals *)

Module Binary64.

Local Open Scope Q_scope.

(** [2^e] for an exponent of either sign. *)
Definition pow2 (e : Z) : Q := 2 ^ e.

(** The position of [x] against the interval from [m * 2^e] to
    [(m + 1) * 2^e] and its middle. *)
Definition located (x : Q) (m e : Z) (l : location) : Prop :=
  match l with
  | loc_Exact => x == inject_Z m * pow2 e
  | loc_Inexact Lt =>
      inject_Z m * pow2 e < x /\ x < (inject_Z m + (1 # 2)) * pow2 e
  | loc_Inexact Eq => x == (inject_Z m + (1 # 2)) * pow2 e
  | loc_Inexact Gt =>
      (inject_Z m + (1 # 2)) * pow2 e < x /\ x < (inject_Z m + 1) * pow2 e
  end.

(** The same for the mantissa and the two rounding bits of a shift record. *)
Definition rec_located (x : Q) (mrs : shr_record) (e : Z) : Prop :=
  located x (shr_m mrs) e (loc_of_shr_record mrs).

(** What a right shift keeps: the number located, and the count of digits. *)
Definition shifted (x : Q) (d0 e0 : Z) (e : Z) (mrs : shr_record) : Prop :=
  (0 <= shr_m mrs)%Z
  /\ rec_located x mrs e
  /\ Zdigits2 (shr_m mrs) = Z.max 0 (d0 - (e - e0)).

(** [r] stands for the value [v >= 0] with the sign [s]. *)
Definition represents (s : bool) (v : Q) (r : spec_float) : Prop :=
  (v == 0 /\ r = S754_zero s)
  \/ (pow2 1024 <= v /\ r = S754_infinity s)
  \/ (exists m e, r = S754_finite s m e
                  /\ bounded prec emax m e = true
                  /\ inject_Z (Zpos m) * pow2 e == v).

(** The value of a float; 0 for infinities and [NaN]. *)
Definition SF2Q (x : spec_float) : Q :=
  match x with
  | S754_finite s m e =>
      (if s then inject_Z (Zneg m) else inject_Z (Zpos m)) * pow2 e
  | _ => 0
  end.

Definition finite_sf (x : spec_float) : bool :=
  match x with
  | S754_zero _ | S754_finite _ _ _ => true
  | _ => false
  end.

(** [v] with the sign [s]. *)
Definition signed (s : bool) (v : Q) : Q := if s then - v else v.

(** [r] is a finite float nearest to the rational [q]. *)
Definition rounded (q : Q) (r : spec_float) : Prop :=
  finite_sf r = true
  /\ valid_binary r = true
  /\ (forall y, valid_binary y = true -> finite_sf y = true ->
      Qabs (SF2Q r - q) <= Qabs (SF2Q y - q))
  /\ (exists e1 k, (-1074 <= e1)%Z
                   /\ SF2Q r == inject_Z k * pow2 e1
                   /\ Qabs (SF2Q r - q) <= (1 # 2) * pow2 e1
                   /\ (e1 = (-1074)%Z \/ pow2 (e1 + 52) <= Qabs q)
                   /\ Qabs q < pow2 (e1 + 53)).

(** Below this bound a rounding does not overflow. *)
Definition overflow_threshold : Q := pow2 1024 - pow2 970.

End Binary64.
Import Binary64.

(** The rational a number stands for (0 when it is not finite), to state
    tolerances. *)
Definition F2Q (x : number) : Q := SF2Q (Prim2SF x).

(** [|a - b| <= tol] *)
Definition within (tol a b : Q) : Prop := (Qabs (a - b) <= tol)%Q.

Import NumberKeyed GeminiService.

(** ** Sample records *)

Module Samples.

Local Open Scope float_scope.

Definition item (price : number) (rate : option number) : ReceiptItem :=
  {| description := lit "item"; quantity := 1; unitPrice := price;
     totalPrice := price; category := None; vatRate := rate |}.

Definition receipt (its : list ReceiptItem) (total : number)
  (tax subtotal : option number) (breakdown : option (list TaxBreakdown))
  : ReceiptData :=
  {| merchantName := lit "MARKET"; merchantAddress := None; taxNumber := None;
     taxOffice := None; sicilNumber := None; date := lit "2024-05-22";
     time := None; items := Some its; subtotal := subtotal; tax := tax;
     taxBreakdown := breakdown; total := total; totalInWords := None;
     currency := lira; paymentMethod := None; invoiceNumber := None;
     zNumber := None; ekuNumber := None; cashier := None |}.

End Samples.

(** ** The fallback scenario *)

Module Scenario.

Definition newline : jsstring := [10%N].

(** ["SÜT 2 Adet 35,50 71,00"] *)
Definition item_line : jsstring := [83; 220; 84]%N ++ lit " 2 Adet 35,50 71,00".

Definition total_line : jsstring := lit "TOPLAM: 71,00".

(** A receipt text with the item line among the scanned lines. *)
Definition receipt : jsstring :=
  lit "# MARKET" ++ newline ++ item_line ++ newline ++ total_line ++ newline
  ++ lit "KASIYER: 1" ++ newline ++ lit "22.05.2024" ++ newline
  ++ lit "TESEKKURLER".

(** What the parser takes for the description: all that precedes the last
    number of the line, ["SÜT 2 Adet 35,50"]. *)
Definition item_description : jsstring := [83; 220; 84]%N ++ lit " 2 Adet 35,50".

(** A receipt text with a total and no item line. *)
Definition bare_total : jsstring :=
  lit "MARKET" ++ newline ++ lit "TOPLAM: 10,01".

Definition expected_item : ReceiptItem :=
  {| description := item_description; quantity := 1%float;
     unitPrice := 71%float; totalPrice := 71%float;
     category := Some (lit "General"); vatRate := Some 20%float |}.

End Scenario.

(** ** Reconciling twice *)

(** A positive value stays positive when rounded to two decimals (it is not
    below 0.005). *)
Definition rounds_to_positive (x : number) : bool :=
  implb (gt x 0%float) (gt (toFixed2 x) 0%float).

(** ** Items by rate *)

Module Groups.

Definition item_key (item : ReceiptItem) : key := key_of (item_rate item).

Definition item_base (item : ReceiptItem) : number :=
  baseAmount (item_price item) (item_rate item).

Definition item_tax (item : ReceiptItem) : number :=
  taxAmount (item_price item) (item_rate item).

(** The items at one rate, in order. *)
Definition at_rate (k : key) (its : list ReceiptItem) : list ReceiptItem :=
  filter (fun item => key_eqb (item_key item) k) its.

(** A running sum as the code computes it, from the left. *)
Definition float_sum (start : number) (l : list number) : number :=
  fold_left PrimFloat.add l start.

Definition entry_or_zero (m : object (number * number)) (k : key)
  : number * number :=
  match get m k with
  | Some entry => entry
  | None => (0%float, 0%float)
  end.

End Groups.
Import Groups.

(** ** Sums of values *)

Module Sums.

Local Open Scope Q_scope.

Fixpoint total_of {A : Type} (f : A -> Q) (l : list A) : Q :=
  match l with
  | [] => 0
  | a :: rest => f a + total_of f rest
  end.

(** The running sum of numbers that are not negative: each addition adds an
    error of at most [2^-53] of a bound on the sum. *)
Definition step_error (bound : Q) : Q := pow2 (-53) * bound + pow2 (-1075).

End Sums.
Import Sums.

(** ** The breakdown *)

Module Breakdown.

Local Open Scope Q_scope.

Definition sum_base (entries : list TaxBreakdown) : Q :=
  total_of (fun entry => F2Q (base entry)) entries.

Definition sum_amount (entries : list TaxBreakdown) : Q :=
  total_of (fun entry => F2Q (amount entry)) entries.

(** The rates of the items, each once, in order of first appearance. *)
Fixpoint distinct_rates (its : list ReceiptItem) : list key :=
  match its with
  | [] => []
  | item :: rest =>
      let k := key_of (item_rate item) in
      k :: filter (fun k' => negb (key_eqb k' k)) (distinct_rates rest)
  end.

(** The entry of one rate: what its items add up to, rounded. *)
Definition group_entry (its : list ReceiptItem) (k : key) : TaxBreakdown :=
  {| rate := number_of k;
     amount := toFixed2 (float_sum 0%float (map item_tax (at_rate k its)));
     base := toFixed2 (float_sum 0%float (map item_base (at_rate k its))) |}.

(** One entry for each rate that occurs, in some order. *)
Definition partitions (its : list ReceiptItem) (entries : list TaxBreakdown)
  : Prop :=
  Permutation entries (map (group_entry its) (distinct_rates its)).

(** Both numbers of an entry are finite. *)
Definition entry_finite (entry : TaxBreakdown) : Prop :=
  is_finite (base entry) = true /\ is_finite (amount entry) = true.

(** The sums of the breakdown agree with the subtotal and the tax within
    one hundredth per distinct rate: all these numbers are finite (no [NaN],
    no infinity), and the bases add up to the subtotal and the amounts to
    the tax, up to that tolerance. *)
Definition sums_match (its : list ReceiptItem) (out : ReceiptData) : Prop :=
  match taxBreakdown out, subtotal out, tax out with
  | Some entries, Some st, Some tx =>
      let tol := inject_Z (Z.of_nat (length (distinct_rates its))) * (1 # 100) in
      Forall entry_finite entries
      /\ is_finite st = true /\ is_finite tx = true
      /\ within tol (sum_base entries) (F2Q st)
      /\ within tol (sum_amount entries) (F2Q tx)
  | _, _, _ => False
  end.

(** The breakdown is a single entry, and it holds the very numbers that are
    returned as the subtotal and the tax. *)
Definition sums_equal (out : ReceiptData) : Prop :=
  exists entry,
    taxBreakdown out = Some [entry]
    /\ subtotal out = Some (base entry)
    /\ tax out = Some (amount entry).

(** Receipts of ordinary size: at most a thousand items, each with a price
    from 0 to a million and a rate that is not negative. *)
Definition ordinary (its : list ReceiptItem) : Prop :=
  (length its <= 1000)%nat
  /\ Forall (fun item =>
               is_finite (item_price item) = true
               /\ 0 <= F2Q (item_price item) <= 1000000
               /\ is_finite (item_rate item) = true
               /\ 0 <= F2Q (item_rate item)) its.

(** One component of the items (the base or the tax) is a number from 0 to
    a million. *)
Definition component_ok (c : ReceiptItem -> number) (item : ReceiptItem)
  : Prop :=
  is_finite (c item) = true /\ 0 <= F2Q (c item) <= 1000000.

End Breakdown.
Import Breakdown.

(** ** Amounts of money *)

Module Money.

(** A number nearest to a decimal with two places, [n / 100]. *)
Definition two_places (v : number) : Prop :=
  exists n : Z, rounded (inject_Z n / 100)%Q (Prim2SF v).

(** [v >= 0]. *)
Definition non_negative (v : number) : bool := PrimFloat.leb 0 v.

End Money.
Import Money.

(** [non_negative] on the float's structure: a zero, a positive number or
    [+Infinity]. *)
Definition sf_nonneg (r : spec_float) : bool :=
  match r with
  | S754_zero _ | S754_finite false _ _ | S754_infinity false => true
  | _ => false
  end.

Module Amounts.

(** An item whose price and rate are finite and not negative. *)
Definition sound_item (item : ReceiptItem) : Prop :=
  is_finite (item_price item) = true /\ (0 <= F2Q (item_price item))%Q
  /\ is_finite (item_rate item) = true /\ (0 <= F2Q (item_rate item))%Q.

Definition breakdown_amounts (entries : list TaxBreakdown) : list number :=
  flat_map (fun entry => [base entry; amount entry]) entries.

(** The amounts [recalculateFinancials] writes: the three totals, and the
    entries of the breakdown unless the record brought its own. *)
Definition written (data out : ReceiptData) : list number :=
  total out :: Number_ (tax out) :: Number_ (subtotal out)
  :: match taxBreakdown data, taxBreakdown out with
     | Some (_ :: _), _ | _, None => []
     | _, Some entries => breakdown_amounts entries
     end.

End Amounts.
Import Amounts.

(** ** The scenario of the override policy *)

Module Policy.

Local Open Scope Q_scope.


End Policy.
Import Policy.

(** * Vocabulary of the further properties *)

(** ** What a pattern matches *)

Module Matching.

Local Open Scope nat_scope.

(** [matches r pos w rest cs]: at the position [pos], the pattern [r] can
    take the text [w] when [rest] follows it, recording the captures [cs]
    (the latest first). *)
Inductive matches : regex -> nat -> jsstring -> jsstring -> captures -> Prop :=
| M_chr p c pos rest :
    p c = true -> matches (Chr p) pos [c] rest []
| M_eps pos rest :
    matches Eps pos [] rest []
| M_seq a b pos w1 w2 rest c1 c2 :
    matches a pos w1 (w2 ++ rest) c1 ->
    matches b (pos + length w1) w2 rest c2 ->
    matches (Seq a b) pos (w1 ++ w2) rest (c2 ++ c1)
| M_alt_l a b pos w rest c :
    matches a pos w rest c -> matches (Alt a b) pos w rest c
| M_alt_r a b pos w rest c :
    matches b pos w rest c -> matches (Alt a b) pos w rest c
| M_star_nil g a pos rest :
    matches (Star g a) pos [] rest []
| M_star_cons g a pos w1 w2 rest c1 c2 :
    w1 <> [] ->
    matches a pos w1 (w2 ++ rest) c1 ->
    matches (Star g a) (pos + length w1) w2 rest c2 ->
    matches (Star g a) pos (w1 ++ w2) rest (c2 ++ c1)
| M_group i a pos w rest c :
    matches a pos w rest c ->
    matches (Group i a) pos w rest ((i, (pos, pos + length w)) :: c)
| M_bol rest :
    matches Bol 0 [] rest []
| M_eol pos :
    matches Eol pos [] [] [].

(** The loop of a quantifier, as [run] has it. *)
Definition star_loop (body : cont -> cont) (k : cont) (greedy : bool)
  : nat -> cont :=
  fix loop (fuel : nat) (rest : jsstring) (pos : nat) (caps : captures)
    {struct fuel} : option match_result :=
    match fuel with
    | O => k rest pos caps
    | S fuel' =>
        let again :=
          body (fun rest' pos' caps' =>
                  if Nat.eqb pos' pos then None
                  else loop fuel' rest' pos' caps') in
        if greedy then
          match again rest pos caps with
          | Some x => Some x
          | None => k rest pos caps
          end
        else
          match k rest pos caps with
          | Some x => Some x
          | None => again rest pos caps
          end
    end.

(** A continuation that cannot fail, whatever was captured. *)
Definition unfailing (k : cont) (rest : jsstring) (pos : nat) : Prop :=
  forall caps, k rest pos caps <> None.

End Matching.

(** ** The shapes of the texts the fallback parser reads *)

Module Shapes.

Local Open Scope N_scope.

(** *** Lines with a price *)

(** A character of a price: a digit, a comma or a point. *)
Definition is_price_char (c : codeunit) : bool :=
  is_digit c || (c =? 44) || (c =? 46).

(** ['$'], ['€'] or ['₺']. *)
Definition is_currency_sign (c : codeunit) : bool :=
  existsb (N.eqb c) [36; 8364; 8378].

(** The same text but for the case of the letters a to z. *)
Definition same_letters (a b : jsstring) : Prop :=
  map upper_ascii a = map upper_ascii b.

(** [w] occurs in [s]. *)
Definition occurs_in (w s : jsstring) : Prop :=
  exists pre rest, s = pre ++ w ++ rest.

(** A text that ends in a price: some text without line breaks, white
    space, the price, and then only white space and at most one currency
    sign. *)
Record ends_in_price (s text gap price : jsstring) : Prop := {
  ep_whole : exists gap' sign,
      s = text ++ gap ++ price ++ gap' ++ sign
      /\ Forall (fun c => is_space c = true) gap'
      /\ (sign = [] \/ exists c, sign = [c] /\ is_currency_sign c = true);
  ep_text : text <> [] /\ Forall (fun c => is_line_terminator c = false) text;
  ep_gap : gap <> [] /\ Forall (fun c => is_space c = true) gap;
  ep_price : price <> [] /\ Forall (fun c => is_price_char c = true) price
}.

(** The price of a line: what follows [before] in the line is a text that
    ends in a price, and it is the first part of the line that is one: no
    such text begins at an earlier place of the line. *)
Definition price_line (line before text gap price : jsstring) : Prop :=
  (exists s, line = before ++ s /\ ends_in_price s text gap price)
  /\ (forall before' s' text' gap' price',
        line = before' ++ s' -> ends_in_price s' text' gap' price' ->
        (length before <= length before')%nat).

(** The words of a summary line, which the scan skips. *)
Definition summary_words : list jsstring :=
  [lit "toplam"; lit "kdv"; lit "subtotal"; lit "total"; lit "ara toplam"].

(** The line as the pattern of the items sees it, without a leading and a
    trailing pipe. *)
Definition clean_line (line : jsstring) : jsstring :=
  remove_first trailingPipe (remove_first leadingPipe line).

Definition all_digits (a : jsstring) : Prop :=
  Forall (fun c => is_digit c = true) a.

(** The number read from whole digits [a] and decimals [b]. *)
Definition decimal_number (a b : jsstring) : number :=
  of_decimal false (digits_value 0 (a ++ b)) (pow10 (length b)).

(** *** Headings *)

(** ['#'] or ['*']. *)
Definition is_heading_mark (c : codeunit) : bool :=
  existsb (N.eqb c) [35; 42].

(** A line without the marks it begins with and the white space after
    them; a line that begins otherwise, as it is. *)
Definition strip_heading (line : jsstring) : jsstring :=
  match line with
  | c :: _ =>
      if is_heading_mark c
      then drop_while is_space (drop_while is_heading_mark line)
      else line
  | [] => []
  end.

(** *** The total *)

(** The words that announce the total. *)
Definition total_words : list jsstring :=
  [lit "TOPLAM"; lit "TOTAL"; lit "TUTAR"; lit "AMOUNT"].

(** What may stand between the word and the amount: white space, [:] and
    [*]. *)
Definition is_total_sep (c : codeunit) : bool :=
  is_space c || (c =? 58) || (c =? 42).

(** The amount that follows a word of the total: after the separators,
    the digits, commas and points that are there. *)
Definition amount_after (after : jsstring) : jsstring :=
  take_while is_price_char (drop_while is_total_sep after).

(** A word of the total, in whatever case, stands in [text] after [pre],
    and an amount follows it. *)
Definition total_found (text pre kw after : jsstring) : Prop :=
  text = pre ++ kw ++ after
  /\ (exists word, In word total_words /\ same_letters kw word)
  /\ amount_after after <> [].

(** *** Dates *)

(** ['.'], ['/'] or ['-']. *)
Definition is_date_sep (c : codeunit) : bool :=
  existsb (N.eqb c) [46; 47; 45].

(** [w] has one character of each of the classes [ps], in order. *)
Fixpoint fits (ps : list (codeunit -> bool)) (w : jsstring) : bool :=
  match ps, w with
  | [], [] => true
  | p :: ps', c :: w' => p c && fits ps' w'
  | _, _ => false
  end.

(** Two digits, a separator, two digits, a separator, two digits. *)
Definition day_first : list (codeunit -> bool) :=
  [is_digit; is_digit; is_date_sep; is_digit; is_digit; is_date_sep;
   is_digit; is_digit].

(** Four digits, a separator, two digits, a separator, two digits. *)
Definition year_first : list (codeunit -> bool) :=
  [is_digit; is_digit; is_digit; is_digit; is_date_sep; is_digit; is_digit;
   is_date_sep; is_digit; is_digit].

(** The texts the fallback parser takes for a date: the day first with a
    year of two to four digits, or the year first. *)
Definition date_shape (w : jsstring) : bool :=
  fits day_first w
  || fits (day_first ++ [is_digit]) w
  || fits (day_first ++ [is_digit; is_digit]) w
  || fits year_first w.

(** The length of the date at the beginning of [s], if there is one. *)
Definition date_at (s : jsstring) : option nat :=
  if fits day_first (firstn 8 s) then
    Some (8 + length (take_while is_digit (firstn 2 (skipn 8 s))))%nat
  else if fits year_first (firstn 10 s) then Some 10%nat
  else None.

(** *** Texts of white space *)

Definition blank_text (s : jsstring) : Prop :=
  Forall (fun c => is_space c = true) s.

End Shapes.

(** ** The order of the rates *)

Module Order.

(** The rate is a whole number from 0 to [2^32 - 2]: its key is an array
    index. *)
Definition whole_rate (k : key) : bool :=
  match array_index k with Some _ => true | None => false end.

(** The value of the rate of a key. *)
Definition rate_value (k : key) : Q := F2Q (number_of k).

End Order.

(** ** What the reconciler reads *)

Module Reading.

(** What the reconciler reads of an item. *)
Definition priced (item : ReceiptItem) : number * option number :=
  (totalPrice item, vatRate item).

(** What the reconciler reads of a record, besides its items. *)
Definition stated (data : ReceiptData)
  : number * option number * option number * option (list TaxBreakdown) :=
  (total data, tax data, subtotal data, taxBreakdown data).

End Reading.

(** ** The pages of a request *)

Module Pages.

Local Open Scope N_scope.

(** A field of a list of pages that begins with a whole number: white
    space, the digits of the number, and what follows them. *)
Record page_field := {
  gap : jsstring;
  page_digits : jsstring;
  tail : jsstring
}.

Definition field_text (f : page_field) : jsstring :=
  gap f ++ page_digits f ++ tail f.

(** The number the digits of the field stand for. *)
Definition page_number (f : page_field) : number :=
  of_decimal false (digits_value 0 (page_digits f)) 1.

(** What may follow the digits: nothing, or a text that begins with
    neither a digit nor an [x] or [X], and holds no comma. *)
Definition ends_number (tail : jsstring) : bool :=
  match tail with
  | [] => true
  | c :: _ => negb (is_digit c || (c =? 120) || (c =? 88))
  end
  && forallb (fun c => negb (c =? 44)) tail.

Definition well_formed (f : page_field) : bool :=
  forallb is_space (gap f)
  && negb (JsString.eqb (page_digits f) [])
  && forallb is_digit (page_digits f)
  && ends_number (tail f).

End Pages.

(** ** The documents of a request *)

Module Addresses.

Import Shapes.

Local Open Scope N_scope.

(** The extensions of the addresses that are sent as images. *)
Definition image_extensions : list jsstring :=
  [lit "jpeg"; lit "jpg"; lit "png"; lit "webp"].

(** The address ends with a point and one of the extensions, in whatever
    case. *)
Definition image_address (url : jsstring) : Prop :=
  exists stem ext,
    url = stem ++ [46] ++ ext
    /\ exists w, In w image_extensions /\ same_letters ext w.

(** The data URL of a content of the type [type]. *)
Definition data_url (type content : jsstring) : jsstring :=
  lit "data:" ++ type ++ lit ";base64," ++ content.

Definition no_comma (s : jsstring) : Prop :=
  Forall (fun c => (c =? 44) = false) s.

End Addresses.

(** * Binary64 rounding

    The value of a float as a rational, and what the operations of
    [SpecFloat] (to which the axioms of the primitive floats equate the
    hardware operations) return: a float nearest to the exact result. *)

Module Rounding.

Local Open Scope Q_scope.

Lemma pow2_pos (e : Z) : 0 < pow2 e.
Proof. apply Qpower_0_lt. reflexivity. Qed.

Lemma pow2_add (a b : Z) : pow2 (a + b) == pow2 a * pow2 b.
Proof. apply Qpower_plus. discriminate. Qed.

Lemma pow2_succ (e : Z) : pow2 (e + 1) == 2 * pow2 e.
Proof. rewrite pow2_add. change (pow2 1) with 2. ring. Qed.

Lemma pow2_le (a b : Z) : (a <= b)%Z -> pow2 a <= pow2 b.
Proof. intros H. apply Qpower_le_compat_l; [exact H | discriminate]. Qed.

Lemma pow2_lt (a b : Z) : (a < b)%Z -> pow2 a < pow2 b.
Proof. intros H. apply Qpower_lt_compat_l; [exact H | reflexivity]. Qed.

Lemma pow2_Z (n : Z) : (0 <= n)%Z -> pow2 n == inject_Z (2 ^ n).
Proof. intros H. unfold pow2. rewrite Zpower_Qpower by exact H. reflexivity. Qed.

Lemma inject_succ (m : Z) : inject_Z (m + 1) == inject_Z m + 1.
Proof. rewrite inject_Z_plus. reflexivity. Qed.

Lemma inject_pred (m : Z) : inject_Z (m - 1) == inject_Z m - 1.
Proof. unfold Z.sub. rewrite inject_Z_plus. reflexivity. Qed.

Lemma inject_xO (p : positive) : inject_Z (Zpos p~0) == 2 * inject_Z (Zpos p).
Proof. unfold Qeq. cbn. lia. Qed.

Lemma inject_xI (p : positive) : inject_Z (Zpos p~1) == 2 * inject_Z (Zpos p) + 1.
Proof. unfold Qeq. cbn. lia. Qed.

Lemma shr_1_located (x : Q) (mrs : shr_record) (e : Z) :
  (0 <= shr_m mrs)%Z ->
  rec_located x mrs e -> rec_located x (shr_1 mrs) (e + 1).
Proof.
  destruct mrs as [m r s]. unfold rec_located. cbn [shr_m].
  intros Hm. pose proof (pow2_pos e) as HP.
  destruct m as [|p|p]; [| |lia].
  - destruct r, s; cbn; rewrite pow2_succ; change (inject_Z 0) with 0;
      intros H; try lra.
  - destruct p as [p|p|]; destruct r, s; cbn; rewrite pow2_succ;
      rewrite ?inject_xO, ?inject_xI;
      change (inject_Z 1) with 1; change (inject_Z 0) with 0;
      intros H; try lra.
Qed.

Lemma shr_1_nonneg (mrs : shr_record) :
  (0 <= shr_m mrs)%Z -> (0 <= shr_m (shr_1 mrs))%Z.
Proof.
  destruct mrs as [m r s]. cbn. destruct m as [|[p|p|]|p]; cbn; lia.
Qed.

Lemma shr_1_digits (mrs : shr_record) :
  (0 <= shr_m mrs)%Z ->
  Zdigits2 (shr_m (shr_1 mrs)) = Z.max 0 (Zdigits2 (shr_m mrs) - 1).
Proof.
  destruct mrs as [m r s]. cbn [shr_m].
  destruct m as [|[p|p|]|p]; cbn [shr_1 shr_m Zdigits2 digits2_pos];
    rewrite ?Pos2Z.inj_succ; lia.
Qed.

Lemma shr_1_value (mrs : shr_record) :
  (0 <= shr_m mrs)%Z -> shr_m (shr_1 mrs) = Z.div2 (shr_m mrs).
Proof.
  destruct mrs as [m r s]. cbn [shr_m].
  destruct m as [|[p|p|]|p]; cbn; lia.
Qed.

Lemma iter_pos_invariant {A : Type} (f : A -> A) (P : Z -> A -> Prop) :
  (forall k a, P k a -> P (k + 1)%Z (f a)) ->
  forall n k a, P k a -> P (k + Zpos n)%Z (iter_pos f n a).
Proof.
  intros Hstep. induction n as [n IH|n IH|]; intros k a Ha; cbn.
  - replace (k + Zpos n~1)%Z with (k + 1 + Zpos n + Zpos n)%Z by lia.
    apply IH, IH, Hstep, Ha.
  - replace (k + Zpos n~0)%Z with (k + Zpos n + Zpos n)%Z by lia.
    apply IH, IH, Ha.
  - apply Hstep, Ha.
Qed.

Lemma shifted_step (x : Q) (d0 e0 e : Z) (mrs : shr_record) :
  (e0 <= e)%Z ->
  shifted x d0 e0 e mrs -> shifted x d0 e0 (e + 1) (shr_1 mrs).
Proof.
  intros He (Hm & Hloc & Hd). split; [|split].
  - apply shr_1_nonneg, Hm.
  - apply shr_1_located; assumption.
  - rewrite shr_1_digits by exact Hm. rewrite Hd. lia.
Qed.

Lemma loc_of_record_of_loc (m : Z) (l : location) :
  loc_of_shr_record (shr_record_of_loc m l) = l
  /\ shr_m (shr_record_of_loc m l) = m.
Proof. destruct l as [|[| |]]; split; reflexivity. Qed.

Lemma Zdigits2_nonneg (m : Z) : (0 <= Zdigits2 m)%Z.
Proof. destruct m; cbn; lia. Qed.

Lemma shr_fexp_spec (x : Q) (m e : Z) (l : location) :
  (0 <= m)%Z -> located x m e l ->
  (e <= fexp prec emax (Zdigits2 m + e))%Z ->
  let '(mrs, e') := shr_fexp prec emax m e l in
  e' = fexp prec emax (Zdigits2 m + e)
  /\ shifted x (Zdigits2 m) e e' mrs.
Proof.
  intros Hm Hloc Hprec. unfold shr_fexp, shr.
  destruct (loc_of_record_of_loc m l) as [Hl Hmm].
  assert (H0 : shifted x (Zdigits2 m) e e (shr_record_of_loc m l)).
  { split; [|split].
    - now rewrite Hmm.
    - unfold rec_located. now rewrite Hl, Hmm.
    - rewrite Hmm. pose proof (Zdigits2_nonneg m). lia. }
  destruct (fexp prec emax (Zdigits2 m + e) - e)%Z as [|n|n] eqn:Hn.
  - split; [lia | exact H0].
  - split; [lia|].
    apply (iter_pos_invariant shr_1
             (fun k mrs => (e <= k)%Z /\ shifted x (Zdigits2 m) e k mrs))
      with (k := e) (n := n).
    + intros k a [Hk Ha]. split; [lia|]. now apply shifted_step.
    + split; [lia | exact H0].
  - lia.
Qed.

(** *** The number of binary digits *)

Lemma digits2_size (p : positive) : digits2_pos p = Pos.size p.
Proof. induction p; cbn; congruence. Qed.

Lemma Zdigits2_bounds (m : Z) :
  (0 < m)%Z -> (2 ^ (Zdigits2 m - 1) <= m < 2 ^ Zdigits2 m)%Z.
Proof.
  destruct m as [|p|p]; try lia. intros _. cbn [Zdigits2].
  rewrite digits2_size.
  pose proof (Pos.size_gt p) as Hgt. pose proof (Pos.size_le p) as Hle.
  assert (H2 : (2 ^ Zpos (Pos.size p) = Zpos (2 ^ Pos.size p))%Z)
    by (now rewrite Pos2Z.inj_pow).
  split.
  - assert (2 * 2 ^ (Zpos (Pos.size p) - 1) = 2 ^ Zpos (Pos.size p))%Z.
    { rewrite <- Z.pow_succ_r by lia. f_equal. lia. }
    lia.
  - lia.
Qed.

Lemma Zdigits2_le (m d : Z) :
  (0 <= d)%Z -> (m < 2 ^ d)%Z -> (0 <= m)%Z -> (Zdigits2 m <= d)%Z.
Proof.
  intros Hd Hm H0.
  destruct (Z.eq_dec m 0) as [->|Hne]; [cbn; lia|].
  destruct (Zdigits2_bounds m ltac:(lia)) as [Hlo _].
  destruct (Z_le_gt_dec (Zdigits2 m) d) as [|Hgt]; [assumption|].
  assert (2 ^ d <= 2 ^ (Zdigits2 m - 1))%Z by (apply Z.pow_le_mono_r; lia).
  lia.
Qed.

Lemma Zdigits2_ge (m d : Z) :
  (2 ^ (d - 1) <= m)%Z -> (0 < m)%Z -> (d <= Zdigits2 m)%Z.
Proof.
  intros Hm H0.
  destruct (Zdigits2_bounds m H0) as [_ Hhi].
  destruct (Z_le_gt_dec d (Zdigits2 m)) as [|Hgt]; [assumption|].
  pose proof (Zdigits2_nonneg m).
  assert (2 ^ Zdigits2 m <= 2 ^ (d - 1))%Z by (apply Z.pow_le_mono_r; lia).
  lia.
Qed.

(** *** Rounding to the nearest, ties to even *)

Lemma round_nearest_even_spec (x : Q) (m e : Z) (l : location) :
  located x m e l ->
  let m2 := round_nearest_even m l in
  (m2 = m \/ m2 = (m + 1)%Z)
  /\ Qabs (inject_Z m2 * pow2 e - x) <= (1 # 2) * pow2 e.
Proof.
  intros Hloc. pose proof (pow2_pos e) as HP.
  assert (Hsucc : inject_Z (m + 1) == inject_Z m + 1)
    by (rewrite inject_Z_plus; reflexivity).
  destruct l as [|[| |]]; unfold located in Hloc;
    unfold round_nearest_even; cbv zeta.
  - split; [now left|]. apply Qabs_Qle_condition. lra.
  - destruct (Z.even m); (split; [auto|]); apply Qabs_Qle_condition;
      rewrite ?Hsucc; lra.
  - split; [now left|]. apply Qabs_Qle_condition. lra.
  - split; [now right|]. apply Qabs_Qle_condition. rewrite Hsucc. lra.
Qed.

(** *** What [binary_round_aux] returns *)

Lemma fexp_eq (e : Z) : fexp prec emax e = Z.max (e - 53) (-1074).
Proof. reflexivity. Qed.

Lemma pow2_inject (m : Z) (a b : Z) :
  (0 <= a)%Z -> inject_Z (m * 2 ^ a) * pow2 b == inject_Z m * pow2 (a + b).
Proof.
  intros Ha. rewrite inject_Z_mult, pow2_add, <- pow2_Z by exact Ha. ring.
Qed.

Lemma round_aux_spec (x : Q) (sx : bool) (mx ex : Z) (lx : location) :
  (0 <= mx)%Z -> located x mx ex lx ->
  (ex <= fexp prec emax (Zdigits2 mx + ex))%Z ->
  exists m2 e1,
    (-1074 <= e1)%Z /\ (0 <= m2)%Z
    /\ Qabs (inject_Z m2 * pow2 e1 - x) <= (1 # 2) * pow2 e1
    /\ (e1 = (-1074)%Z \/ (pow2 (e1 + 52) <= x /\ (2 ^ 52 <= m2)%Z))
    /\ x < pow2 (e1 + 53)
    /\ represents sx (inject_Z m2 * pow2 e1)
         (binary_round_aux prec emax sx mx ex lx).
Proof.
  intros Hm Hloc Hprec. unfold binary_round_aux.
  pose proof (shr_fexp_spec x mx ex lx Hm Hloc Hprec) as H1.
  destruct (shr_fexp prec emax mx ex lx) as [mrs1 e1].
  destruct H1 as [He1 (Hm1 & Hloc1 & Hd1)].
  unfold rec_located in Hloc1.
  set (m1 := shr_m mrs1) in *. set (l1 := loc_of_shr_record mrs1) in *.
  destruct (round_nearest_even_spec x m1 e1 l1 Hloc1) as [Hm2 Herr].
  set (m2 := round_nearest_even m1 l1) in *.
  rewrite fexp_eq in He1, Hprec.
  pose proof (Zdigits2_nonneg mx) as Hdx.
  assert (He1min : (-1074 <= e1)%Z) by lia.
  assert (Hd1' : (Zdigits2 m1 <= 53)%Z
                 /\ (e1 = (-1074)%Z \/ Zdigits2 m1 = 53%Z)) by lia.
  destruct Hd1' as [Hd1le Hd1eq].
  assert (H53 : (2 ^ 53 = 9007199254740992)%Z) by reflexivity.
  assert (H52 : (2 ^ 52 = 4503599627370496)%Z) by reflexivity.
  assert (Hm1lt : (m1 < 2 ^ 53)%Z).
  { destruct (Z.eq_dec m1 0) as [->|Hne]; [lia|].
    destruct (Zdigits2_bounds m1 ltac:(lia)) as [_ Hhi].
    assert (2 ^ Zdigits2 m1 <= 2 ^ 53)%Z by (apply Z.pow_le_mono_r; lia).
    lia. }
  assert (Hm1ge : e1 = (-1074)%Z \/ (2 ^ 52 <= m1)%Z).
  { destruct Hd1eq as [|Hd]; [now left|right].
    assert (0 < m1)%Z by (destruct (Z.eq_dec m1 0) as [E|]; [rewrite E in Hd; discriminate Hd|lia]).
    destruct (Zdigits2_bounds m1 ltac:(lia)) as [Hlo _].
    rewrite Hd in Hlo. exact Hlo. }
  assert (Hx0 : 0 <= x).
  { pose proof (pow2_pos e1) as HP.
    assert (0 <= inject_Z m1) by (change 0 with (inject_Z 0); rewrite <- Zle_Qle; exact Hm1).
    destruct l1 as [|[| |]]; unfold located in Hloc1; nra. }
  exists m2, e1.
  split; [exact He1min|]. split; [lia|]. split; [exact Herr|].
  split.
  { destruct Hm1ge as [|Hge]; [now left|right]. split; [|lia].
    pose proof (pow2_pos e1) as HP.
    assert (Hq : inject_Z (2 ^ 52) <= inject_Z m1) by (rewrite <- Zle_Qle; exact Hge).
    rewrite Z.add_comm, pow2_add, (pow2_Z 52) by lia.
    destruct l1 as [|[| |]]; unfold located in Hloc1; nra. }
  split.
  { pose proof (pow2_pos e1) as HP.
    assert (Hq : inject_Z m1 + 1 <= inject_Z (2 ^ 53))
      by (rewrite <- inject_succ, <- Zle_Qle; lia).
    rewrite Z.add_comm, pow2_add, (pow2_Z 53) by lia.
    destruct l1 as [|[| |]]; unfold located in Hloc1; nra. }
  (* the second shift *)
  unfold shr_fexp, shr. rewrite fexp_eq.
  assert (Hm2cases : (m2 < 2 ^ 53)%Z \/ m2 = (2 ^ 53)%Z) by lia.
  destruct Hm2cases as [Hlt | Heq].
  - assert (Hd2 : (Z.max (Zdigits2 m2 + e1 - 53) (-1074) - e1 = 0)%Z).
    { assert (Zdigits2 m2 <= 53)%Z by (apply Zdigits2_le; lia).
      destruct Hd1eq as [->|Hd]; [lia|].
      assert (0 < m1)%Z by (destruct (Z.eq_dec m1 0) as [E|]; [rewrite E in Hd; discriminate Hd|lia]).
      assert (53 <= Zdigits2 m2)%Z.
      { apply Zdigits2_ge; [|lia].
        destruct (Zdigits2_bounds m1 ltac:(lia)) as [Hlo _].
        rewrite Hd in Hlo. lia. }
      lia. }
    rewrite Hd2. cbn [shr_record_of_loc shr_m fst snd].
    destruct m2 as [|p|p] eqn:Em2; [| |lia].
    + left. split; [|reflexivity]. change (inject_Z 0) with 0. ring.
    + destruct (Z.leb e1 (emax - prec)) eqn:Hle.
      * right. right. exists p, e1. split; [reflexivity|]. split; [|reflexivity].
        unfold bounded, canonical_mantissa. rewrite Hle, andb_true_r.
        apply Z.eqb_eq. rewrite fexp_eq. cbn [Zdigits2] in Hd2. lia.
      * right. left. split; [|reflexivity].
        apply Z.leb_gt in Hle. change (emax - prec)%Z with 971%Z in Hle.
        destruct Hm1ge as [|Hge]; [lia|].
        assert (Hq : inject_Z (2 ^ 52) <= inject_Z (Zpos p))
          by (rewrite <- Zle_Qle; lia).
        assert (Hp : pow2 972 <= pow2 e1) by (apply pow2_le; lia).
        pose proof (pow2_pos 972) as HP.
        replace 1024%Z with (52 + 972)%Z by reflexivity.
        rewrite pow2_add, (pow2_Z 52) by lia.
        assert (0 < inject_Z (2 ^ 52)) by reflexivity.
        nra.
  - assert (Hd2 : (Z.max (Zdigits2 m2 + e1 - 53) (-1074) - e1 = 1)%Z).
    { rewrite Heq. change (Zdigits2 (2 ^ 53)) with 54%Z. lia. }
    rewrite Hd2. rewrite Heq.
    cbn [shr_record_of_loc iter_pos]. 
    change (shr_m (shr_1 {| shr_m := 2 ^ 53; shr_r := false; shr_s := false |}))
      with (Zpos 4503599627370496).
    cbv iota.
    assert (Hval : inject_Z (Zpos 4503599627370496) * pow2 (e1 + 1)
                   == inject_Z (2 ^ 53) * pow2 e1).
    { rewrite pow2_succ. change (inject_Z (2 ^ 53)) with (2 * inject_Z (Zpos 4503599627370496)). ring. }
    destruct (Z.leb (e1 + 1) (emax - prec)) eqn:Hle.
    + right. right. exists 4503599627370496%positive, (e1 + 1)%Z.
      split; [reflexivity|]. split; [|exact Hval].
      unfold bounded, canonical_mantissa. rewrite Hle, andb_true_r.
      apply Z.eqb_eq. rewrite fexp_eq.
      change (Zpos (digits2_pos 4503599627370496)) with 53%Z. lia.
    + right. left. split; [|reflexivity].
      apply Z.leb_gt in Hle. change (emax - prec)%Z with 971%Z in Hle.
      assert (Hp : pow2 971 <= pow2 e1) by (apply pow2_le; lia).
      replace 1024%Z with (53 + 971)%Z by reflexivity.
      rewrite pow2_add, (pow2_Z 53) by lia.
      assert (0 < inject_Z (2 ^ 53)) by reflexivity.
      nra.
Qed.

(** *** Values of floats *)

#[local] Instance signed_wd (s : bool) : Proper (Qeq ==> Qeq) (signed s).
Proof. intros a b E. destruct s; cbn [signed]; rewrite E; reflexivity. Qed.

Lemma Qabs_signed_pos (s : bool) (v : Q) : 0 <= v -> Qabs (signed s v) == v.
Proof.
  intros Hv. destruct s; cbn [signed]; [rewrite Qabs_opp|]; now apply Qabs_pos.
Qed.

Lemma SF2Q_finite (s : bool) (m : positive) (e : Z) :
  SF2Q (S754_finite s m e) == signed s (inject_Z (Zpos m) * pow2 e).
Proof.
  unfold SF2Q, signed. destruct s; [|reflexivity].
  change (inject_Z (Zneg m)) with (- inject_Z (Zpos m)). ring.
Qed.

Lemma bounded_canonical (m : positive) (e : Z) :
  bounded prec emax m e = true ->
  (-1074 <= e <= 971)%Z /\ (Zpos (digits2_pos m) <= 53)%Z
  /\ (e = (-1074)%Z \/ Zpos (digits2_pos m) = 53%Z).
Proof.
  unfold bounded, canonical_mantissa. rewrite andb_true_iff, fexp_eq.
  intros [Hc He]. apply Z.eqb_eq in Hc. apply Z.leb_le in He.
  change (emax - prec)%Z with 971%Z in He. lia.
Qed.

Lemma bounded_mantissa (m : positive) (e : Z) :
  bounded prec emax m e = true ->
  (Zpos m < 2 ^ 53)%Z /\ (e = (-1074)%Z \/ (2 ^ 52 <= Zpos m)%Z).
Proof.
  intros Hb. destruct (bounded_canonical m e Hb) as (He & Hd & Hn).
  destruct (Zdigits2_bounds (Zpos m) ltac:(lia)) as [Hlo Hhi].
  cbn [Zdigits2] in Hlo, Hhi. split.
  - assert (2 ^ Zpos (digits2_pos m) <= 2 ^ 53)%Z
      by (apply Z.pow_le_mono_r; lia).
    lia.
  - destruct Hn as [|Hn]; [now left|right]. rewrite Hn in Hlo. exact Hlo.
Qed.

(** A valid float is a multiple of [2^e1] or lies below [2^(e1 + 52)]. *)
Lemma valid_grid (m : positive) (e e1 : Z) :
  bounded prec emax m e = true ->
  (exists k : Z, (0 <= k)%Z /\ inject_Z (Zpos m) * pow2 e == inject_Z k * pow2 e1)
  \/ ((e < e1)%Z /\ inject_Z (Zpos m) * pow2 e < pow2 (e1 + 52)).
Proof.
  intros Hb. destruct (bounded_mantissa m e Hb) as [Hlt _].
  destruct (Z_le_gt_dec e1 e) as [Hle|Hgt].
  - left. exists (Zpos m * 2 ^ (e - e1))%Z. split; [lia|].
    rewrite pow2_inject by lia. replace (e - e1 + e1)%Z with e by lia.
    reflexivity.
  - right. split; [lia|].
    assert (Hq : inject_Z (Zpos m) < inject_Z (2 ^ 53)).
    { rewrite <- Zlt_Qlt. exact Hlt. }
    assert (Hp : pow2 (53 + e) <= pow2 (e1 + 52)) by (apply pow2_le; lia).
    rewrite pow2_add, (pow2_Z 53) in Hp by lia.
    pose proof (pow2_pos e). nra.
Qed.

Lemma grid_nearest (x : Q) (m e k : Z) :
  Qabs (inject_Z m * pow2 e - x) <= (1 # 2) * pow2 e ->
  Qabs (inject_Z m * pow2 e - x) <= Qabs (inject_Z k * pow2 e - x).
Proof.
  intros H. pose proof (pow2_pos e) as HP.
  apply Qabs_Qle_condition in H.
  destruct (Z.eq_dec k m) as [->|Hne]; [apply Qle_refl|].
  destruct H as [Hlo Hhi].
  assert (Hcases : (k <= m - 1)%Z \/ (m + 1 <= k)%Z) by lia.
  destruct Hcases as [Hk|Hk]; rewrite Zle_Qle in Hk;
    rewrite ?inject_succ, ?inject_pred in Hk.
  - assert (inject_Z k * pow2 e <= (inject_Z m - 1) * pow2 e)
      by (apply Qmult_le_compat_r; lra).
    apply Qabs_case; intros; apply Qabs_case; intros; lra.
  - assert ((inject_Z m + 1) * pow2 e <= inject_Z k * pow2 e)
      by (apply Qmult_le_compat_r; lra).
    apply Qabs_case; intros; apply Qabs_case; intros; lra.
Qed.

(** *** Correct rounding *)

Lemma located_nonneg (x : Q) (m e : Z) (l : location) :
  (0 <= m)%Z -> located x m e l -> 0 <= x.
Proof.
  intros Hm Hloc. pose proof (pow2_pos e) as HP.
  assert (0 <= inject_Z m) by (change 0 with (inject_Z 0); rewrite <- Zle_Qle; exact Hm).
  destruct l as [|[| |]]; unfold located in Hloc; nra.
Qed.

Lemma SF2Q_opp (y : spec_float) : SF2Q (SFopp y) == - SF2Q y.
Proof.
  destruct y as [s|s| |s m e]; cbn [SFopp SF2Q]; try ring.
  destruct s; cbn [negb].
  - change (inject_Z (Zneg m)) with (- inject_Z (Zpos m)). ring.
  - change (inject_Z (Zneg m)) with (- inject_Z (Zpos m)). ring.
Qed.

Lemma valid_opp (y : spec_float) :
  valid_binary y = true -> valid_binary (SFopp y) = true.
Proof. destruct y; auto. Qed.

Lemma finite_opp (y : spec_float) : finite_sf (SFopp y) = finite_sf y.
Proof. destruct y; reflexivity. Qed.

Lemma SF2Q_lt_max (y : spec_float) :
  valid_binary y = true -> Qabs (SF2Q y) < pow2 1024.
Proof.
  intros Hv. destruct y as [s|s| |s m e]; cbn [SF2Q];
    try (rewrite Qabs_pos by apply Qle_refl; apply pow2_pos).
  cbn in Hv. destruct (bounded_canonical m e Hv) as (He & _).
  destruct (bounded_mantissa m e Hv) as [Hlt _].
  assert (Hq : inject_Z (Zpos m) < inject_Z (2 ^ 53))
    by (rewrite <- Zlt_Qlt; exact Hlt).
  assert (Hp : pow2 e <= pow2 971) by (apply pow2_le; lia).
  pose proof (pow2_pos e) as HP.
  replace 1024%Z with (53 + 971)%Z by reflexivity.
  rewrite pow2_add, (pow2_Z 53) by lia.
  assert (0 < inject_Z (Zpos m)) by reflexivity.
  rewrite Qabs_Qmult, (Qabs_pos (pow2 e)) by lra.
  assert (Ha : Qabs (if s then inject_Z (Zneg m) else inject_Z (Zpos m))
               == inject_Z (Zpos m)).
  { destruct s.
    - change (inject_Z (Zneg m)) with (- inject_Z (Zpos m)).
      rewrite Qabs_opp. apply Qabs_pos. lra.
    - apply Qabs_pos. lra. }
  rewrite Ha. nra.
Qed.

Lemma nearest_positive (x : Q) (m2 e1 : Z) (y : spec_float) :
  0 <= x -> (-1074 <= e1)%Z ->
  Qabs (inject_Z m2 * pow2 e1 - x) <= (1 # 2) * pow2 e1 ->
  (e1 = (-1074)%Z \/ pow2 (e1 + 52) <= x) ->
  valid_binary y = true ->
  Qabs (inject_Z m2 * pow2 e1 - x) <= Qabs (SF2Q y - x).
Proof.
  intros Hx He1 Herr Hnorm Hv.
  assert (Hzero : Qabs (inject_Z m2 * pow2 e1 - x) <= Qabs (0 - x)).
  { pose proof (grid_nearest x m2 e1 0 Herr) as H.
    change (inject_Z 0) with 0 in H. now rewrite Qmult_0_l in H. }
  destruct y as [s|s| |s m e]; cbn [SF2Q]; try exact Hzero.
  cbn in Hv.
  destruct (valid_grid m e e1 Hv) as [(k & Hk & Hval) | (Hlt & Hbelow)].
  - destruct s.
    + change (inject_Z (Zneg m)) with (- inject_Z (Zpos m)).
      pose proof (grid_nearest x m2 e1 (- k) Herr) as H.
      rewrite inject_Z_opp in H.
      assert (E : - inject_Z (Zpos m) * pow2 e == - inject_Z k * pow2 e1).
      { setoid_replace (- inject_Z (Zpos m) * pow2 e)
          with (- (inject_Z (Zpos m) * pow2 e)) by ring.
        rewrite Hval. ring. }
      rewrite E. exact H.
    + rewrite Hval. apply grid_nearest, Herr.
  - destruct (bounded_canonical m e Hv) as (He & _).
    destruct Hnorm as [->|Hnorm]; [lia|].
    pose proof (grid_nearest x m2 e1 (2 ^ 52) Herr) as H.
    assert (G : inject_Z (2 ^ 52) * pow2 e1 == pow2 (e1 + 52)).
    { rewrite Z.add_comm, pow2_add, (pow2_Z 52) by lia. reflexivity. }
    rewrite G in H.
    eapply Qle_trans; [exact H|].
    pose proof (pow2_pos e) as HP.
    assert (0 < inject_Z (Zpos m)) by reflexivity.
    rewrite (Qabs_neg (pow2 (e1 + 52) - x)) by lra.
    destruct s.
    + change (inject_Z (Zneg m)) with (- inject_Z (Zpos m)).
      rewrite Qabs_neg by nra. nra.
    + rewrite Qabs_neg by nra. nra.
Qed.

Lemma SF2Q_abs (y : spec_float) : SF2Q (SFabs y) == Qabs (SF2Q y).
Proof.
  destruct y as [s|s| |s m e]; cbn [SFabs SF2Q]; try reflexivity.
  pose proof (pow2_pos e) as HP.
  assert (0 < inject_Z (Zpos m)) by reflexivity.
  destruct s.
  - change (inject_Z (Zneg m)) with (- inject_Z (Zpos m)).
    rewrite Qabs_neg by nra. ring.
  - rewrite Qabs_pos by nra. reflexivity.
Qed.

Lemma valid_abs (y : spec_float) :
  valid_binary y = true -> valid_binary (SFabs y) = true.
Proof. destruct y; auto. Qed.

Lemma Qabs_signed (s : bool) (a b : Q) :
  Qabs (signed s a - signed s b) == Qabs (a - b).
Proof.
  destruct s; cbn [signed]; [|reflexivity].
  setoid_replace (- a - - b) with (- (a - b)) by ring. apply Qabs_opp.
Qed.

Lemma Qabs_signed_r (s : bool) (a b : Q) :
  Qabs (a - signed s b) == Qabs (signed s a - b).
Proof.
  destruct s; cbn [signed]; [|reflexivity].
  setoid_replace (a - - b) with (- (- a - b)) by ring. apply Qabs_opp.
Qed.

Lemma SF2Q_signed (s : bool) (y : spec_float) :
  signed s (SF2Q y) == SF2Q (if s then SFopp y else y).
Proof. destruct s; cbn [signed]; [now rewrite SF2Q_opp | reflexivity]. Qed.

Lemma valid_below_threshold (z : spec_float) :
  valid_binary z = true -> Qabs (SF2Q z) < overflow_threshold.
Proof.
  intros Hv. unfold overflow_threshold.
  assert (Hc : pow2 1024 - pow2 971 < pow2 1024 - pow2 970).
  { assert (pow2 970 < pow2 971) by (apply pow2_lt; lia). lra. }
  eapply Qle_lt_trans; [|exact Hc]. clear Hc.
  assert (H971 : 0 < pow2 971) by apply pow2_pos.
  assert (Hbig : pow2 971 < pow2 1024) by (apply pow2_lt; lia).
  rewrite <- SF2Q_abs.
  destruct z as [s|s| |s m e]; cbn [SFabs SF2Q]; try lra.
  cbn in Hv. destruct (bounded_canonical m e Hv) as (He & _).
  destruct (bounded_mantissa m e Hv) as [Hlt _].
  assert (Hq : inject_Z (Zpos m) <= inject_Z (2 ^ 53) - 1).
  { rewrite <- inject_pred, <- Zle_Qle. lia. }
  assert (Hp : pow2 e <= pow2 971) by (apply pow2_le; lia).
  pose proof (pow2_pos e) as HP.
  replace 1024%Z with (53 + 971)%Z by reflexivity.
  rewrite pow2_add, (pow2_Z 53) by lia.
  assert (0 < inject_Z (Zpos m)) by reflexivity.
  assert (1 <= inject_Z (2 ^ 53) - 1) by (vm_compute; discriminate).
  nra.
Qed.

(** The float that [binary_round_aux] makes of a located number below the
    overflow threshold is a nearest one. *)
Lemma round_aux_rounded (x : Q) (s : bool) (mx ex : Z) (lx : location) :
  (0 <= mx)%Z -> located x mx ex lx ->
  (ex <= fexp prec emax (Zdigits2 mx + ex))%Z ->
  x < overflow_threshold ->
  rounded (signed s x) (binary_round_aux prec emax s mx ex lx).
Proof.
  intros Hm Hloc Hprec Hxz.
  pose proof (located_nonneg x mx ex lx Hm Hloc) as Hx.
  destruct (round_aux_spec x s mx ex lx Hm Hloc Hprec)
    as (m2 & e1 & He1 & Hm2 & Herr & Hnorm & Hupper & Hrep).
  set (v := inject_Z m2 * pow2 e1) in *.
  assert (Hnorm' : e1 = (-1074)%Z \/ pow2 (e1 + 52) <= x)
    by (destruct Hnorm as [|[? _]]; auto).
  assert (Hnear : forall y, valid_binary y = true ->
                    Qabs (v - x) <= Qabs (SF2Q y - x))
    by (intros y Hy; now apply nearest_positive).
  assert (Hvz : v < pow2 1024).
  { unfold overflow_threshold in Hxz.
    assert (Hhalf : (1 # 2) * pow2 e1 <= pow2 970).
    { assert (Hle : (e1 <= 971)%Z).
      { destruct Hnorm' as [->|Hn]; [lia|].
        destruct (Z_le_gt_dec e1 971) as [|Hgt]; [assumption|].
        assert (pow2 1024 <= pow2 (e1 + 52)) by (apply pow2_le; lia).
        pose proof (pow2_pos 970). lra. }
      assert (pow2 e1 <= pow2 971) by (apply pow2_le; exact Hle).
      replace 971%Z with (970 + 1)%Z in H by reflexivity.
      rewrite pow2_succ in H. lra. }
    assert (v - x <= Qabs (v - x)) by apply Qle_Qabs.
    lra. }
  assert (Hval : forall r, SF2Q r == signed s v ->
            (forall y, valid_binary y = true -> finite_sf y = true ->
               Qabs (SF2Q r - signed s x) <= Qabs (SF2Q y - signed s x))
            /\ (exists e1 k, (-1074 <= e1)%Z
                   /\ SF2Q r == inject_Z k * pow2 e1
                   /\ Qabs (SF2Q r - signed s x) <= (1 # 2) * pow2 e1
                   /\ (e1 = (-1074)%Z \/ pow2 (e1 + 52) <= Qabs (signed s x))
                   /\ Qabs (signed s x) < pow2 (e1 + 53))).
  { intros r Hr. split.
    - intros y Hy _. rewrite Hr, Qabs_signed, Qabs_signed_r, SF2Q_signed.
      apply Hnear. destruct s; [apply valid_opp|]; exact Hy.
    - exists e1, (if s then - m2 else m2)%Z. split; [exact He1|].
      rewrite Qabs_signed_pos by exact Hx. split; [|split; [|split]].
      + rewrite Hr. unfold v. destruct s; cbn [signed];
          [rewrite inject_Z_opp; ring | reflexivity].
      + rewrite Hr, Qabs_signed. exact Herr.
      + exact Hnorm'.
      + exact Hupper. }
  destruct Hrep as [[Hv0 ->] | [[Hinf _] | (m & e & -> & Hb & Hme)]].
  - split; [reflexivity|]. split; [reflexivity|].
    apply Hval. cbn [SF2Q]. destruct s; cbn [signed]; lra.
  - lra.
  - split; [reflexivity|]. split; [exact Hb|].
    apply Hval. rewrite SF2Q_finite. destruct s; cbn [signed]; lra.
Qed.

(** *** Consequences of correct rounding *)

Lemma rounded_ext (q q' : Q) (r : spec_float) :
  q == q' -> rounded q r -> rounded q' r.
Proof.
  intros E (Hf & Hv & Hn & e1 & k & He1 & Hk & Herr & Hnorm & Hup).
  split; [exact Hf|]. split; [exact Hv|]. split.
  - intros y Hy Hfy. rewrite <- E. now apply Hn.
  - exists e1, k. rewrite <- E. auto.
Qed.

Lemma rounded_zero (q : Q) (s : bool) : q == 0 -> rounded q (S754_zero s).
Proof.
  intros E. apply (rounded_ext 0); [now symmetry|].
  split; [reflexivity|]. split; [reflexivity|]. split.
  - intros y _ _. cbn [SF2Q]. setoid_replace (0 - 0) with 0 by ring.
    apply Qabs_nonneg.
  - exists (-1074)%Z, 0%Z. split; [lia|].
    pose proof (pow2_pos (-1074)). pose proof (pow2_pos (-1074 + 53)).
    cbn [SF2Q]. change (inject_Z 0) with 0.
    setoid_replace (0 - 0) with 0 by ring.
    change (Qabs 0) with 0.
    split; [ring|]. split; [lra|]. split; [now left | assumption].
Qed.

Lemma rounded_le (q : Q) (r y : spec_float) :
  rounded q r -> valid_binary y = true -> finite_sf y = true ->
  q <= SF2Q y -> SF2Q r <= SF2Q y.
Proof.
  intros (_ & _ & Hn & _) Hy Hfy Hq.
  specialize (Hn y Hy Hfy). revert Hn.
  apply Qabs_case; intros; revert Hn; apply Qabs_case; intros; lra.
Qed.

Lemma rounded_ge (q : Q) (r y : spec_float) :
  rounded q r -> valid_binary y = true -> finite_sf y = true ->
  SF2Q y <= q -> SF2Q y <= SF2Q r.
Proof.
  intros (_ & _ & Hn & _) Hy Hfy Hq.
  specialize (Hn y Hy Hfy). revert Hn.
  apply Qabs_case; intros; revert Hn; apply Qabs_case; intros; lra.
Qed.

Lemma rounded_exact (q : Q) (r y : spec_float) :
  rounded q r -> valid_binary y = true -> finite_sf y = true ->
  q == SF2Q y -> SF2Q r == q.
Proof.
  intros Hr Hy Hfy E.
  apply Qle_antisym.
  - rewrite E. apply (rounded_le q); auto. rewrite E. apply Qle_refl.
  - rewrite E. apply (rounded_ge q); auto. rewrite E. apply Qle_refl.
Qed.

Lemma rounded_nonneg (q : Q) (r : spec_float) :
  rounded q r -> 0 <= q -> 0 <= SF2Q r.
Proof.
  intros Hr Hq. apply (rounded_ge q r (S754_zero false)); auto.
Qed.

Lemma rounded_nonpos (q : Q) (r : spec_float) :
  rounded q r -> q <= 0 -> SF2Q r <= 0.
Proof.
  intros Hr Hq. apply (rounded_le q r (S754_zero false)); auto.
Qed.

(** The error is at most [2^-53] of the value, or [2^-1075] near zero. *)
Lemma rounded_error (q : Q) (r : spec_float) :
  rounded q r ->
  Qabs (SF2Q r - q) <= pow2 (-53) * Qabs q + pow2 (-1075).
Proof.
  intros (_ & _ & _ & e1 & k & He1 & _ & Herr & Hnorm & _).
  pose proof (Qabs_nonneg q) as Hq.
  pose proof (pow2_pos (-53)) as H53. pose proof (pow2_pos (-1075)) as Hm.
  eapply Qle_trans; [exact Herr|].
  destruct Hnorm as [->|Hn].
  - setoid_replace ((1 # 2) * pow2 (-1074)) with (pow2 (-1075)).
    + nra.
    + replace (-1074)%Z with (-1075 + 1)%Z by reflexivity.
      rewrite pow2_succ. ring.
  - assert (E : (1 # 2) * pow2 e1 == pow2 (-53) * pow2 (e1 + 52)).
    { rewrite <- pow2_add. replace (-53 + (e1 + 52))%Z with (e1 - 1)%Z by lia.
      replace e1 with (e1 - 1 + 1)%Z at 1 by lia. rewrite pow2_succ. ring. }
    rewrite E. nra.
Qed.

(** *** Alignment of mantissas *)

Lemma iter_xO (m d : positive) :
  Zpos (Pos.iter xO m d) = (Zpos m * 2 ^ Zpos d)%Z
  /\ Zpos (digits2_pos (Pos.iter xO m d))
     = (Zpos (digits2_pos m) + Zpos d)%Z.
Proof.
  induction d as [|d IH] using Pos.peano_ind.
  - cbn [Pos.iter]. split; [lia|]. cbn [digits2_pos]. lia.
  - rewrite Pos.iter_succ. destruct IH as [IH1 IH2].
    cbn [digits2_pos]. rewrite !Pos2Z.inj_succ, Z.pow_succ_r by lia.
    split; lia.
Qed.

Lemma shl_align_spec (mx : positive) (ex ex' : Z) :
  let '(mz, ez) := shl_align mx ex ex' in
  ez = Z.min ex ex'
  /\ Zpos mz = (Zpos mx * 2 ^ (ex - ez))%Z
  /\ (Zpos (digits2_pos mz) + ez = Zpos (digits2_pos mx) + ex)%Z.
Proof.
  unfold shl_align. destruct (ex' - ex)%Z as [|d|d] eqn:Hd.
  - rewrite Z.sub_diag, Z.pow_0_r, Z.mul_1_r. split; [lia|]. split; lia.
  - rewrite Z.sub_diag, Z.pow_0_r, Z.mul_1_r. split; [lia|]. split; lia.
  - destruct (iter_xO mx d) as [H1 H2].
    split; [lia|]. replace (ex - ex')%Z with (Zpos d) by lia. split; lia.
Qed.

Lemma binary_round_rounded (s : bool) (m : positive) (e : Z) :
  inject_Z (Zpos m) * pow2 e < overflow_threshold ->
  rounded (signed s (inject_Z (Zpos m) * pow2 e))
    (binary_round prec emax s m e).
Proof.
  intros Hle. unfold binary_round.
  pose proof (shl_align_spec m e (fexp prec emax (Zpos (digits2_pos m) + e)))
    as Hal.
  destruct (shl_align m e _) as [mz ez]. destruct Hal as (Hez & Hmz & Hdz).
  assert (Hval : inject_Z (Zpos mz) * pow2 ez == inject_Z (Zpos m) * pow2 e).
  { rewrite Hmz, pow2_inject by lia. replace (e - ez + ez)%Z with e by lia.
    reflexivity. }
  eapply rounded_ext.
  2: { apply (round_aux_rounded (inject_Z (Zpos mz) * pow2 ez) s (Zpos mz) ez
                loc_Exact); [lia | reflexivity | | ].
       - cbn [Zdigits2]. rewrite Hdz. lia.
       - rewrite Hval. exact Hle. }
  destruct s; cbn [signed]; rewrite Hval; reflexivity.
Qed.

Lemma binary_normalize_rounded (m e : Z) :
  Qabs (inject_Z m * pow2 e) < overflow_threshold ->
  rounded (inject_Z m * pow2 e) (binary_normalize prec emax m e false).
Proof.
  intros Hle. pose proof (pow2_pos e) as HP.
  destruct m as [|p|p]; cbn [binary_normalize].
  - apply rounded_zero. change (inject_Z 0) with 0. ring.
  - apply (binary_round_rounded false p e).
    assert (0 < inject_Z (Zpos p)) by reflexivity.
    rewrite Qabs_pos in Hle by nra. exact Hle.
  - eapply rounded_ext.
    2: { apply (binary_round_rounded true p e).
         assert (0 < inject_Z (Zpos p)) by reflexivity.
         change (inject_Z (Zneg p)) with (- inject_Z (Zpos p)) in Hle.
         rewrite Qabs_neg in Hle by nra. lra. }
    cbn [signed]. change (inject_Z (Zneg p)) with (- inject_Z (Zpos p)). ring.
Qed.

(** *** Addition and subtraction *)

Lemma rounded_self (y : spec_float) :
  valid_binary y = true -> finite_sf y = true -> rounded (SF2Q y) y.
Proof.
  intros Hv Hf.
  destruct y as [s|s| |s m e]; try discriminate;
    [apply rounded_zero; reflexivity|].
  split; [exact Hf|]. split; [exact Hv|].
  set (y := S754_finite s m e).
  assert (E : Qabs (SF2Q y - SF2Q y) == 0).
  { setoid_replace (SF2Q y - SF2Q y) with 0 by ring. reflexivity. }
  split.
  - intros z _ _. rewrite E. apply Qabs_nonneg.
  - cbn in Hv. destruct (bounded_canonical m e Hv) as (He & _).
    destruct (bounded_mantissa m e Hv) as [Hlt Hnorm].
    pose proof (pow2_pos e) as HP.
    assert (Hm : 0 < inject_Z (Zpos m)) by reflexivity.
    assert (Ha : Qabs (SF2Q y) == inject_Z (Zpos m) * pow2 e).
    { unfold y. rewrite SF2Q_finite. apply Qabs_signed_pos. nra. }
    exists e, (if s then Zneg m else Zpos m). split; [lia|].
    split; [unfold y; cbn [SF2Q]; destruct s; reflexivity|].
    split; [rewrite E; lra|]. rewrite Ha. split.
    + destruct Hnorm as [|Hge]; [now left|right].
      assert (inject_Z (2 ^ 52) <= inject_Z (Zpos m))
        by (rewrite <- Zle_Qle; exact Hge).
      rewrite Z.add_comm, pow2_add, (pow2_Z 52) by lia. nra.
    + assert (inject_Z (Zpos m) < inject_Z (2 ^ 53))
        by (rewrite <- Zlt_Qlt; exact Hlt).
      rewrite Z.add_comm, pow2_add, (pow2_Z 53) by lia. nra.
Qed.

Lemma aligned_value (s : bool) (m : positive) (e ez : Z) :
  (ez <= e)%Z ->
  inject_Z (cond_Zopp s (Zpos (fst (shl_align m e ez)))) * pow2 ez
  == SF2Q (S754_finite s m e).
Proof.
  intros Hle. pose proof (shl_align_spec m e ez) as H.
  destruct (shl_align m e ez) as [mz e']. destruct H as (He' & Hmz & _).
  cbn [fst]. rewrite SF2Q_finite.
  assert (E : inject_Z (Zpos mz) * pow2 ez == inject_Z (Zpos m) * pow2 e).
  { rewrite Hmz, pow2_inject by lia.
    replace (e - e' + ez)%Z with e by lia. reflexivity. }
  destruct s; cbn [cond_Zopp signed].
  - change (- Zpos mz)%Z with (Zneg mz).
    change (inject_Z (Zneg mz)) with (- inject_Z (Zpos mz)). lra.
  - exact E.
Qed.

Lemma SFadd_rounded (x y : spec_float) :
  valid_binary x = true -> valid_binary y = true ->
  finite_sf x = true -> finite_sf y = true ->
  Qabs (SF2Q x + SF2Q y) < overflow_threshold ->
  rounded (SF2Q x + SF2Q y) (SFadd prec emax x y).
Proof.
  intros Hx Hy Hfx Hfy Hle.
  destruct x as [sx|sx| |sx mx ex]; try discriminate;
    destruct y as [sy|sy| |sy my ey]; try discriminate.
  - apply (rounded_ext 0); [cbn [SF2Q]; ring|].
    cbn [SFadd]. destruct sx, sy; apply rounded_zero; reflexivity.
  - apply (rounded_ext (SF2Q (S754_finite sy my ey))); [cbn [SF2Q]; ring|].
    cbn [SFadd]. now apply rounded_self.
  - apply (rounded_ext (SF2Q (S754_finite sx mx ex))); [cbn [SF2Q]; ring|].
    cbn [SFadd]. now apply rounded_self.
  - cbn [SFadd]. set (ez := Z.min ex ey).
    assert (E : inject_Z (cond_Zopp sx (Zpos (fst (shl_align mx ex ez)))
                          + cond_Zopp sy (Zpos (fst (shl_align my ey ez))))
                * pow2 ez
                == SF2Q (S754_finite sx mx ex) + SF2Q (S754_finite sy my ey)).
    { rewrite inject_Z_plus, Qmult_plus_distr_l.
      rewrite !aligned_value by (unfold ez; lia). reflexivity. }
    eapply rounded_ext; [exact E|].
    apply binary_normalize_rounded. rewrite E. exact Hle.
Qed.

Lemma SFsub_rounded (x y : spec_float) :
  valid_binary x = true -> valid_binary y = true ->
  finite_sf x = true -> finite_sf y = true ->
  Qabs (SF2Q x - SF2Q y) < overflow_threshold ->
  rounded (SF2Q x - SF2Q y) (SFsub prec emax x y).
Proof.
  intros Hx Hy Hfx Hfy Hle.
  destruct x as [sx|sx| |sx mx ex]; try discriminate;
    destruct y as [sy|sy| |sy my ey]; try discriminate.
  - apply (rounded_ext 0); [cbn [SF2Q]; ring|].
    cbn [SFsub]. destruct sx, sy; apply rounded_zero; reflexivity.
  - apply (rounded_ext (SF2Q (S754_finite (negb sy) my ey))).
    + change (S754_finite (negb sy) my ey) with (SFopp (S754_finite sy my ey)).
      rewrite SF2Q_opp. cbn [SF2Q]. ring.
    + cbn [SFsub]. apply rounded_self; [exact Hy | reflexivity].
  - apply (rounded_ext (SF2Q (S754_finite sx mx ex))); [cbn [SF2Q]; ring|].
    cbn [SFsub]. now apply rounded_self.
  - cbn [SFsub]. set (ez := Z.min ex ey).
    assert (E : inject_Z (cond_Zopp sx (Zpos (fst (shl_align mx ex ez)))
                          - cond_Zopp sy (Zpos (fst (shl_align my ey ez))))
                * pow2 ez
                == SF2Q (S754_finite sx mx ex) - SF2Q (S754_finite sy my ey)).
    { unfold Z.sub. rewrite inject_Z_plus, inject_Z_opp, Qmult_plus_distr_l.
      setoid_replace (- inject_Z (cond_Zopp sy (Zpos (fst (shl_align my ey ez)))) * pow2 ez)
        with (- (inject_Z (cond_Zopp sy (Zpos (fst (shl_align my ey ez)))) * pow2 ez))
        by ring.
      rewrite !aligned_value by (unfold ez; lia). reflexivity. }
    eapply rounded_ext; [exact E|].
    apply binary_normalize_rounded. rewrite E. exact Hle.
Qed.

(** *** Multiplication *)

Lemma signed_xorb (sx sy : bool) (a b : Q) :
  signed (xorb sx sy) (a * b) == signed sx a * signed sy b.
Proof. destruct sx, sy; cbn [xorb signed]; ring. Qed.

Lemma SFmul_rounded (x y : spec_float) :
  valid_binary x = true -> valid_binary y = true ->
  finite_sf x = true -> finite_sf y = true ->
  Qabs (SF2Q x * SF2Q y) < overflow_threshold ->
  rounded (SF2Q x * SF2Q y) (SFmul prec emax x y).
Proof.
  intros Hx Hy Hfx Hfy Hle.
  destruct x as [sx|sx| |sx mx ex]; try discriminate;
    destruct y as [sy|sy| |sy my ey]; try discriminate;
    try (cbn [SFmul]; apply rounded_zero; cbn [SF2Q]; ring).
  cbn [SFmul].
  assert (E : signed (xorb sx sy)
                (inject_Z (Zpos (mx * my)) * pow2 (ex + ey))
              == SF2Q (S754_finite sx mx ex) * SF2Q (S754_finite sy my ey)).
  { rewrite !SF2Q_finite, <- signed_xorb.
    rewrite Pos2Z.inj_mul, inject_Z_mult, pow2_add.
    destruct (xorb sx sy); cbn [signed]; ring. }
  eapply rounded_ext; [exact E|].
  apply round_aux_rounded; [lia | reflexivity | |].
  - cbn in Hx, Hy.
    destruct (bounded_canonical mx ex Hx) as (Hex & Hdx & Hnx).
    destruct (bounded_canonical my ey Hy) as (Hey & Hdy & Hny).
    destruct (Zdigits2_bounds (Zpos mx) ltac:(lia)) as [Hlx _].
    destruct (Zdigits2_bounds (Zpos my) ltac:(lia)) as [Hly _].
    cbn [Zdigits2] in Hlx, Hly |- *.
    assert (Hd : (Zpos (digits2_pos mx) + Zpos (digits2_pos my) - 1
                  <= Zpos (digits2_pos (mx * my)))%Z).
    { apply (Zdigits2_ge (Zpos (mx * my))); [|lia].
      replace (Zpos (digits2_pos mx) + Zpos (digits2_pos my) - 1 - 1)%Z
        with ((Zpos (digits2_pos mx) - 1) + (Zpos (digits2_pos my) - 1))%Z
        by lia.
      rewrite Z.pow_add_r, Pos2Z.inj_mul by lia.
      apply Z.mul_le_mono_nonneg; try lia; apply Z.pow_nonneg; lia. }
    rewrite fexp_eq. lia.
  - rewrite <- E, Qabs_signed_pos in Hle; [exact Hle|].
    pose proof (pow2_pos (ex + ey)).
    assert (0 < inject_Z (Zpos (mx * my))) by reflexivity. nra.
Qed.

(** *** Division *)

Lemma new_location_spec (m2 r : Z) :
  (0 <= r < m2)%Z ->
  match new_location m2 r with
  | loc_Exact => r = 0%Z
  | loc_Inexact Lt => (0 < r)%Z /\ (2 * r < m2)%Z
  | loc_Inexact Eq => (2 * r = m2)%Z
  | loc_Inexact Gt => (m2 < 2 * r)%Z
  end.
Proof.
  intros Hr. unfold new_location, new_location_even, new_location_odd.
  destruct (Z.even m2) eqn:Hev.
  - destruct (Z.eqb_spec r 0) as [|Hne]; [assumption|].
    destruct (Z.compare_spec (2 * r) m2); lia.
  - destruct (Z.eqb_spec r 0) as [|Hne]; [assumption|].
    assert (Hodd : Z.odd m2 = true) by (rewrite <- Z.negb_even, Hev; reflexivity).
    apply Z.odd_spec in Hodd. destruct Hodd as [k Hk].
    destruct (Z.compare_spec (2 * r + 1) m2); lia.
Qed.

Lemma div_core_spec (m1 m2 : positive) (e1 e2 : Z) :
  let '(q, e', l) := SFdiv_core_binary prec emax (Zpos m1) e1 (Zpos m2) e2 in
  (0 <= q)%Z
  /\ located ((inject_Z (Zpos m1) * pow2 e1) / (inject_Z (Zpos m2) * pow2 e2))
       q e' l
  /\ (e' <= fexp prec emax (Zdigits2 q + e'))%Z.
Proof.
  unfold SFdiv_core_binary.
  set (d1 := Zdigits2 (Zpos m1)). set (d2 := Zdigits2 (Zpos m2)).
  set (e' := Z.min (fexp prec emax (d1 + e1 - (d2 + e2))) (e1 - e2)).
  set (s := (e1 - e2 - e')%Z).
  assert (Hs : (0 <= s)%Z) by (unfold s, e'; lia).
  set (m' := match s with
             | Zpos _ => Z.shiftl (Zpos m1) s
             | Z0 => Zpos m1
             | Zneg _ => 0%Z
             end).
  assert (Hm' : m' = (Zpos m1 * 2 ^ s)%Z).
  { unfold m'. destruct s as [|p|p]; [lia | | lia].
    rewrite Z.shiftl_mul_pow2 by lia. reflexivity. }
  pose proof (Z_div_mod m' (Zpos m2) ltac:(lia)) as Hdiv.
  destruct (Z.div_eucl m' (Zpos m2)) as [q r]. destruct Hdiv as [Hqr Hr].
  assert (Hq0 : (0 <= q)%Z) by nia.
  pose proof (new_location_spec (Zpos m2) r Hr) as Hloc.
  pose proof (pow2_pos e1) as HP1. pose proof (pow2_pos e2) as HP2.
  pose proof (pow2_pos e') as HP'.
  assert (HM2 : 0 < inject_Z (Zpos m2)) by reflexivity.
  assert (HR : 0 <= inject_Z r /\ inject_Z r < inject_Z (Zpos m2)).
  { split; [change 0 with (inject_Z 0); rewrite <- Zle_Qle; lia
           | rewrite <- Zlt_Qlt; lia]. }
  set (x := (inject_Z (Zpos m1) * pow2 e1) / (inject_Z (Zpos m2) * pow2 e2)).
  assert (Hx : x == (inject_Z q + inject_Z r / inject_Z (Zpos m2)) * pow2 e').
  { unfold x.
    assert (E1 : inject_Z (Zpos m1) * pow2 e1
                 == inject_Z m' * pow2 e' * pow2 e2).
    { rewrite Hm', inject_Z_mult, <- (pow2_Z s) by exact Hs.
      rewrite <- !Qmult_assoc, <- !pow2_add.
      replace (s + (e' + e2))%Z with e1 by (unfold s; lia). reflexivity. }
    rewrite E1, Hqr, inject_Z_plus, inject_Z_mult. field. lra. }
  set (rho := inject_Z r / inject_Z (Zpos m2)) in *.
  split; [exact Hq0|]. split.
  - assert (Hrho : forall c : Q, 
              (inject_Z r < c * inject_Z (Zpos m2) -> rho < c)
              /\ (c * inject_Z (Zpos m2) < inject_Z r -> c < rho)
              /\ (inject_Z r == c * inject_Z (Zpos m2) -> rho == c)).
    { intros c. unfold rho. repeat split; intros H.
      - apply Qlt_shift_div_r; assumption.
      - apply Qlt_shift_div_l; assumption.
      - rewrite H. field. lra. }
    destruct (new_location (Zpos m2) r) as [|[| |]]; unfold located.
    + rewrite Hx. subst r. unfold rho. change (inject_Z 0) with 0.
      field. lra.
    + assert (Hh : inject_Z r == (1 # 2) * inject_Z (Zpos m2)).
      { rewrite <- Hloc, inject_Z_mult. change (inject_Z 2) with 2. field. }
      apply (Hrho (1 # 2)) in Hh. rewrite Hx, Hh. reflexivity.
    + destruct Hloc as [Hr0 Hlt].
      assert (Hh : inject_Z r < (1 # 2) * inject_Z (Zpos m2)).
      { rewrite Zlt_Qlt, inject_Z_mult in Hlt. change (inject_Z 2) with 2 in Hlt. lra. }
      apply (Hrho (1 # 2)) in Hh.
      assert (H0 : 0 < rho).
      { apply (Hrho 0). rewrite Qmult_0_l. change 0 with (inject_Z 0).
        rewrite <- Zlt_Qlt. exact Hr0. }
      rewrite Hx. split; nra.
    + assert (Hh : (1 # 2) * inject_Z (Zpos m2) < inject_Z r).
      { rewrite Zlt_Qlt, inject_Z_mult in Hloc. change (inject_Z 2) with 2 in Hloc. lra. }
      apply (Hrho (1 # 2)) in Hh.
      assert (H1 : rho < 1).
      { apply (Hrho 1). lra. }
      rewrite Hx. split; nra.
  - rewrite fexp_eq.
    destruct (Z_le_gt_dec e' (-1074)) as [|Hgt]; [lia|].
    assert (He' : (e' <= d1 + e1 - (d2 + e2) - 53)%Z)
      by (unfold e' in *; rewrite fexp_eq in *; lia).
    assert (Hq52 : (2 ^ 52 <= q)%Z).
    { destruct (Zdigits2_bounds (Zpos m1) ltac:(lia)) as [Hl1 _].
      destruct (Zdigits2_bounds (Zpos m2) ltac:(lia)) as [_ Hh2].
      fold d1 in Hl1. fold d2 in Hh2.
      assert (Hd2 : (0 < d2)%Z) by (unfold d2; cbn; lia).
      assert (Hd1 : (0 < d1)%Z) by (unfold d1; cbn; lia).
      assert (Hpow : (2 ^ (52 + d2) <= m')%Z).
      { rewrite Hm'.
        apply Z.le_trans with (2 ^ (d1 - 1 + s))%Z.
        - apply Z.pow_le_mono_r; unfold s; lia.
        - rewrite Z.pow_add_r by lia.
          apply Z.mul_le_mono_nonneg_r; [apply Z.pow_nonneg; lia | exact Hl1]. }
      rewrite Z.pow_add_r in Hpow by lia.
      assert (H52 : (0 < 2 ^ 52)%Z) by reflexivity.
      assert (Hlt : (2 ^ 52 * Zpos m2 < Zpos m2 * q + r)%Z) by nia.
      nia. }
    assert (53 <= Zdigits2 q)%Z by (apply Zdigits2_ge; [exact Hq52 | lia]).
    lia.
Qed.

Lemma div_core_rounded (s : bool) (m1 m2 : positive) (e1 e2 : Z) :
  let x := (inject_Z (Zpos m1) * pow2 e1) / (inject_Z (Zpos m2) * pow2 e2) in
  x < overflow_threshold ->
  let '(q, e', l) := SFdiv_core_binary prec emax (Zpos m1) e1 (Zpos m2) e2 in
  rounded (signed s x) (binary_round_aux prec emax s q e' l).
Proof.
  intros x Hx. pose proof (div_core_spec m1 m2 e1 e2) as H.
  destruct (SFdiv_core_binary prec emax (Zpos m1) e1 (Zpos m2) e2)
    as [[q e'] l].
  destruct H as (Hq & Hloc & Hprec).
  now apply round_aux_rounded.
Qed.

Lemma signed_div (sx sy : bool) (a b : Q) :
  ~ b == 0 -> signed (xorb sx sy) (a / b) == signed sx a / signed sy b.
Proof. intros Hb. destruct sx, sy; cbn [xorb signed]; field; lra. Qed.

Lemma SFdiv_rounded (x y : spec_float) :
  valid_binary x = true -> valid_binary y = true ->
  finite_sf x = true -> finite_sf y = true ->
  ~ SF2Q y == 0 ->
  Qabs (SF2Q x / SF2Q y) < overflow_threshold ->
  rounded (SF2Q x / SF2Q y) (SFdiv prec emax x y).
Proof.
  intros Hx Hy Hfx Hfy Hy0 Hle.
  destruct y as [sy|sy| |sy my ey]; try discriminate;
    [exfalso; apply Hy0; reflexivity|].
  destruct x as [sx|sx| |sx mx ex]; try discriminate.
  - cbn [SFdiv]. apply rounded_zero.
    change (SF2Q (S754_zero sx)) with 0. unfold Qdiv. apply Qmult_0_l.
  - cbn [SFdiv].
    pose proof (pow2_pos ex) as HPx. pose proof (pow2_pos ey) as HPy.
    assert (Hmx : 0 < inject_Z (Zpos mx)) by reflexivity.
    assert (Hmy : 0 < inject_Z (Zpos my)) by reflexivity.
    assert (Hden : ~ inject_Z (Zpos my) * pow2 ey == 0) by nra.
    assert (E : signed (xorb sx sy)
                  ((inject_Z (Zpos mx) * pow2 ex) / (inject_Z (Zpos my) * pow2 ey))
                == SF2Q (S754_finite sx mx ex) / SF2Q (S754_finite sy my ey)).
    { rewrite !SF2Q_finite. apply signed_div. exact Hden. }
    pose proof (div_core_rounded (xorb sx sy) mx my ex ey) as H.
    cbv zeta in H.
    destruct (SFdiv_core_binary prec emax (Zpos mx) ex (Zpos my) ey)
      as [[q e'] l].
    eapply rounded_ext; [exact E|]. apply H.
    rewrite <- E, Qabs_signed_pos in Hle; [exact Hle|].
    apply Qle_shift_div_l; nra.
Qed.

(** The float nearest to a decimal [n / d]. *)
Lemma decimal_rounded (neg : bool) (n d : positive) :
  inject_Z (Zpos n) / inject_Z (Zpos d) < overflow_threshold ->
  let '(q, e, l) := SFdiv_core_binary prec emax (Zpos n) 0 (Zpos d) 0 in
  rounded (signed neg (inject_Z (Zpos n) / inject_Z (Zpos d)))
    (binary_round_aux prec emax neg q e l).
Proof.
  intros Hlt. pose proof (div_core_rounded neg n d 0 0) as H. cbv zeta in H.
  destruct (SFdiv_core_binary prec emax (Zpos n) 0 (Zpos d) 0) as [[q e] l].
  assert (E : (inject_Z (Zpos n) * pow2 0) / (inject_Z (Zpos d) * pow2 0)
              == inject_Z (Zpos n) / inject_Z (Zpos d)).
  { change (pow2 0) with 1. rewrite !Qmult_1_r. reflexivity. }
  eapply rounded_ext; [rewrite <- E; reflexivity|].
  apply H. rewrite E. exact Hlt.
Qed.

(** *** A value has one valid float *)

Lemma valid_unique (m m' : positive) (e e' : Z) :
  bounded prec emax m e = true -> bounded prec emax m' e' = true ->
  inject_Z (Zpos m) * pow2 e == inject_Z (Zpos m') * pow2 e' ->
  m = m' /\ e = e'.
Proof.
  assert (Hlt : forall m m' e e',
            bounded prec emax m e = true -> bounded prec emax m' e' = true ->
            (e < e')%Z ->
            inject_Z (Zpos m) * pow2 e < inject_Z (Zpos m') * pow2 e').
  { clear. intros m m' e e' Hb Hb' Hlt.
    destruct (bounded_canonical m e Hb) as (He & _).
    destruct (bounded_mantissa m e Hb) as [Hm _].
    destruct (bounded_mantissa m' e' Hb') as [_ [->|Hm']]; [lia|].
    destruct (valid_grid m e e' Hb) as [(k & _ & _)|[_ Hbelow]].
    - clear k.
      assert (Hq : inject_Z (Zpos m) < inject_Z (2 ^ 53))
        by (rewrite <- Zlt_Qlt; exact Hm).
      assert (Hq' : inject_Z (2 ^ 52) <= inject_Z (Zpos m'))
        by (rewrite <- Zle_Qle; exact Hm').
      assert (Hp : pow2 (e + 1) <= pow2 e') by (apply pow2_le; lia).
      rewrite pow2_succ in Hp. pose proof (pow2_pos e).
      change (inject_Z (2 ^ 53)) with (2 * inject_Z (2 ^ 52)) in Hq.
      assert (0 < inject_Z (2 ^ 52)) by reflexivity. nra.
    - assert (Hq' : inject_Z (2 ^ 52) <= inject_Z (Zpos m'))
        by (rewrite <- Zle_Qle; exact Hm').
      rewrite Z.add_comm, pow2_add, (pow2_Z 52) in Hbelow by lia.
      pose proof (pow2_pos e'). nra. }
  intros Hb Hb' E.
  destruct (Z.lt_total e e') as [H|[H|H]].
  - specialize (Hlt m m' e e' Hb Hb' H). lra.
  - subst e'. split; [|reflexivity].
    pose proof (pow2_pos e).
    assert (Hq : inject_Z (Zpos m) == inject_Z (Zpos m')) by nra.
    unfold Qeq in Hq. cbn in Hq. lia.
  - specialize (Hlt m' m e' e Hb' Hb H). lra.
Qed.

End Rounding.
Import Rounding.

(** * Properties *)

(** ** Numbers as rounded rationals *)

Section NumberFacts.

Local Open Scope Q_scope.

Lemma is_finite_sf (x : number) : is_finite x = finite_sf (Prim2SF x).
Proof. unfold is_finite, finite_sf. destruct (Prim2SF x); reflexivity. Qed.

Lemma rounded_is_finite (q : Q) (x : number) :
  rounded q (Prim2SF x) -> is_finite x = true.
Proof. intros (Hf & _). rewrite is_finite_sf. exact Hf. Qed.

Lemma below_threshold (q : Q) : Qabs q <= pow2 1023 -> Qabs q < overflow_threshold.
Proof.
  intros H. unfold overflow_threshold.
  assert (pow2 1023 < pow2 1024 - pow2 970) by (vm_compute; reflexivity).
  lra.
Qed.

Lemma add_rounded (x y : number) :
  is_finite x = true -> is_finite y = true ->
  Qabs (F2Q x + F2Q y) < overflow_threshold ->
  rounded (F2Q x + F2Q y) (Prim2SF (x + y)).
Proof.
  rewrite !is_finite_sf, add_spec. intros Hx Hy Hlt.
  apply SFadd_rounded; auto using Prim2SF_valid.
Qed.

Lemma sub_rounded (x y : number) :
  is_finite x = true -> is_finite y = true ->
  Qabs (F2Q x - F2Q y) < overflow_threshold ->
  rounded (F2Q x - F2Q y) (Prim2SF (x - y)).
Proof.
  rewrite !is_finite_sf, sub_spec. intros Hx Hy Hlt.
  apply SFsub_rounded; auto using Prim2SF_valid.
Qed.

Lemma mul_rounded (x y : number) :
  is_finite x = true -> is_finite y = true ->
  Qabs (F2Q x * F2Q y) < overflow_threshold ->
  rounded (F2Q x * F2Q y) (Prim2SF (x * y)).
Proof.
  rewrite !is_finite_sf, mul_spec. intros Hx Hy Hlt.
  apply SFmul_rounded; auto using Prim2SF_valid.
Qed.

Lemma div_rounded (x y : number) :
  is_finite x = true -> is_finite y = true -> ~ F2Q y == 0 ->
  Qabs (F2Q x / F2Q y) < overflow_threshold ->
  rounded (F2Q x / F2Q y) (Prim2SF (x / y)).
Proof.
  rewrite !is_finite_sf, div_spec. intros Hx Hy Hy0 Hlt.
  apply SFdiv_rounded; auto using Prim2SF_valid.
Qed.

(** Comparison with a float that bounds the exact result. *)
Lemma rounded_le_number (q : Q) (r : spec_float) (y : number) :
  rounded q r -> is_finite y = true -> q <= F2Q y -> SF2Q r <= F2Q y.
Proof.
  intros Hr Hy Hq. apply (rounded_le q); auto using Prim2SF_valid.
Qed.

Lemma rounded_ge_number (q : Q) (r : spec_float) (y : number) :
  rounded q r -> is_finite y = true -> F2Q y <= q -> F2Q y <= SF2Q r.
Proof.
  intros Hr Hy Hq. apply (rounded_ge q); auto using Prim2SF_valid.
Qed.

Lemma rounded_nearer_number (q : Q) (r : spec_float) (y : number) :
  rounded q r -> is_finite y = true ->
  Qabs (SF2Q r - q) <= Qabs (F2Q y - q).
Proof.
  intros (_ & _ & Hn & _) Hy. apply Hn; auto using Prim2SF_valid.
Qed.

End NumberFacts.

(** ** The reconciler leaves the rest of the record alone *)

(** C9.  [recalculateFinancials] returns a record without items (the list
    absent or empty) as it is, and in every record it returns, every field
    other than [total], [tax], [subtotal] and [taxBreakdown] is the input's:
    the items, the merchant's name and address, date, time, currency,
    payment method, total in words, and the fiscal identifiers. *)
Theorem recalculateFinancials_frame (data : ReceiptData) :
  let out := recalculateFinancials data in
  match items data with
  | None | Some [] => out = data
  | Some (_ :: _) => True
  end
  /\ items out = items data
  /\ merchantName out = merchantName data
  /\ merchantAddress out = merchantAddress data
  /\ date out = date data
  /\ time out = time data
  /\ currency out = currency data
  /\ paymentMethod out = paymentMethod data
  /\ totalInWords out = totalInWords data
  /\ taxNumber out = taxNumber data
  /\ taxOffice out = taxOffice data
  /\ sicilNumber out = sicilNumber data
  /\ invoiceNumber out = invoiceNumber data
  /\ zNumber out = zNumber data
  /\ ekuNumber out = ekuNumber data
  /\ cashier out = cashier data.
Proof.
  unfold recalculateFinancials.
  destruct (items data) as [[|item its]|] eqn:Hitems; cbn;
    rewrite ?Hitems; repeat split; reflexivity.
Qed.

(** ** The fallback parser emits only positive prices *)

(** A line is dropped when its price is not a number or not above zero,
    whatever the pattern captured. *)
Lemma line_item_rejects (line : jsstring) (item : ReceiptItem) :
  line_item line = Some item ->
  isNaN (totalPrice item) = false /\ gt (totalPrice item) 0%float = true
  /\ unitPrice item = totalPrice item.
Proof.
  unfold line_item.
  destruct (exec priceLineRegex _) as [m|]; [|discriminate].
  destruct (test summaryKeyword _); [discriminate|].
  destruct (isNaN _) eqn:Hnan; cbn [negb andb]; [discriminate|].
  destruct (gt _ 0%float) eqn:Hpos; [|discriminate].
  intros [= <-]. cbn. auto.
Qed.

(** C10.  Every item the fallback parser takes from a line has a
    [totalPrice] above zero (a line whose price is [NaN] or not positive
    adds nothing); the parser's items are those, or, when no line matched,
    the single placeholder item, which alone can carry a price that is not
    positive: then it carries 0. *)
Theorem parseViaRegex_items_positive (text : jsstring) :
  Forall (fun item => isNaN (totalPrice item) = false
                      /\ gt (totalPrice item) 0%float = true)
         (matched_items text)
  /\ match matched_items text with
     | _ :: _ => items (parseViaRegex text) = Some (matched_items text)
     | [] =>
         items (parseViaRegex text)
         = Some [placeholder_item (total (parseViaRegex text))]
         /\ (gt (total (parseViaRegex text)) 0%float = true
             \/ total (parseViaRegex text) = 0%float)
     end.
Proof.
  split.
  - unfold matched_items.
    induction (slice_from_to_last 1 3 (nonblank_lines text)) as [|line rest IH];
      cbn; [constructor|].
    destruct (line_item line) as [item|] eqn:Hline; [|exact IH].
    constructor; [|exact IH].
    apply line_item_rejects in Hline. tauto.
  - unfold parseViaRegex.
    destruct (matched_items text) as [|item rest]; cbn; [|reflexivity].
    split; [reflexivity|].
    match goal with
    | |- context [if ?c then _ else _] => destruct c eqn:Hpos
    end; [left; exact Hpos | right; reflexivity].
Qed.

(** ** Which records pass through the reconciler *)

Section Pipeline.
Variable generateContent : jsstring -> option (option jsstring).
Variable JSON_parse : jsstring -> option ReceiptData.

Let parse := parseReceiptWithGemini generateContent JSON_parse.

(** C2, as the code has it.  A record parsed from the model's reply is
    returned through [recalculateFinancials]; without a key, and when the
    call throws, the reply has no text or the text does not parse, the
    record of [parseViaRegex] is returned as it is. *)
Theorem parseReceiptWithGemini_paths (text : jsstring) (apiKey : option jsstring) :
  (forall jsonText parsedData,
      blank apiKey = false ->
      generateContent text = Some (Some jsonText) ->
      jsonText <> [] ->
      JSON_parse jsonText = Some parsedData ->
      parse text apiKey = recalculateFinancials parsedData)
  /\ (blank apiKey = true -> parse text apiKey = parseViaRegex text)
  /\ (generateContent text = None -> parse text apiKey = parseViaRegex text)
  /\ (generateContent text = Some None -> parse text apiKey = parseViaRegex text)
  /\ (generateContent text = Some (Some []) ->
      parse text apiKey = parseViaRegex text)
  /\ (forall jsonText,
      generateContent text = Some (Some jsonText) ->
      JSON_parse jsonText = None ->
      parse text apiKey = parseViaRegex text).
Proof.
  subst parse. unfold parseReceiptWithGemini.
  repeat split.
  - intros jsonText parsedData -> -> Hne ->.
    destruct jsonText; [contradiction|reflexivity].
  - intros ->. reflexivity.
  - intros ->. destruct (blank apiKey); reflexivity.
  - intros ->. destruct (blank apiKey); reflexivity.
  - intros ->. destruct (blank apiKey); reflexivity.
  - intros jsonText -> ->. destruct (blank apiKey), jsonText; reflexivity.
Qed.

End Pipeline.

Lemma parseReceiptWithGemini_paths_witness :
  let reply := lit "{}" in
  let parsed :=
    Samples.receipt [Samples.item 100%float (Some 20%float)] 0%float
      None None None in
  parseReceiptWithGemini (fun _ => Some (Some reply)) (fun _ => Some parsed)
    Scenario.receipt (Some (lit "key"))
  = recalculateFinancials parsed.
Proof.
  intros reply parsed.
  apply (proj1 (parseReceiptWithGemini_paths
                  (fun _ => Some (Some reply)) (fun _ => Some parsed)
                  Scenario.receipt (Some (lit "key"))) reply parsed).
  - reflexivity.
  - reflexivity.
  - discriminate.
  - reflexivity.
Defined.

(** ** The fallback scenario *)

Lemma scan_lines_app (l l' : list jsstring) :
  scan_lines (l ++ l') = scan_lines l ++ scan_lines l'.
Proof.
  induction l as [|line rest IH]; cbn; [reflexivity|].
  destruct (line_item line); cbn; now rewrite IH.
Qed.

Lemma scan_lines_none (l : list jsstring) :
  Forall (fun line => line_item line = None) l -> scan_lines l = [].
Proof.
  induction 1 as [|line rest Hline _ IH]; cbn; [reflexivity|].
  now rewrite Hline.
Qed.

(** C8, as the code has it.  For a text whose scanned lines (the lines
    that are not blank, without the first and the last three) have the
    scenario's item line and no other line that gives an item, and in which
    the total pattern finds ["71,00"], the fallback parser finds one item,
    priced 71 with quantity 1, whose description is the whole text before
    the last number, ["SÜT 2 Adet 35,50"]; the total is 71, the tax is
    [71 * 0.18] and the subtotal is [71 - 71 * 0.18], which are 12.78 and
    58.22 up to the rounding of the two operations. *)
Theorem fallback_scenario (text : jsstring) (before after : list jsstring)
  (m : match_array) :
  slice_from_to_last 1 3 (nonblank_lines text)
  = before ++ Scenario.item_line :: after ->
  Forall (fun line => line_item line = None) (before ++ after) ->
  exec totalRegex text = Some m -> group_text m 1 = lit "71,00" ->
  let r := parseViaRegex text in
  items r = Some [Scenario.expected_item]
  /\ total r = 71%float
  /\ tax r = Some (71 * 0.18)%float
  /\ subtotal r = Some (71 - 71 * 0.18)%float
  /\ within (1 # 1000000000)%Q (F2Q (71 * 0.18)%float) (1278 # 100)%Q
  /\ within (1 # 1000000000)%Q (F2Q (71 - 71 * 0.18)%float) (5822 # 100)%Q.
Proof.
  intros Hlines Hother Htotal Hgroup r.
  assert (Hitems : matched_items text = [Scenario.expected_item]).
  { unfold matched_items. rewrite Hlines, scan_lines_app.
    apply Forall_app in Hother. destruct Hother as [Hb Ha].
    rewrite (scan_lines_none _ Hb). cbn [scan_lines app].
    replace (line_item Scenario.item_line) with (Some Scenario.expected_item)
      by (vm_compute; reflexivity).
    now rewrite (scan_lines_none _ Ha). }
  assert (Hr : r = parseViaRegex text) by reflexivity.
  unfold parseViaRegex in Hr. rewrite Htotal, Hgroup, Hitems in Hr.
  replace (parseFloat (replace_first 44%N 46%N (lit "71,00")))
    with 71%float in Hr by (vm_compute; reflexivity).
  change (gt 71%float 0%float) with true in Hr. cbv iota in Hr.
  rewrite Hr. cbn [items total tax subtotal].
  repeat split; unfold within; vm_compute; discriminate.
Qed.

Lemma fallback_scenario_witness :
  let r := parseViaRegex Scenario.receipt in
  items r = Some [Scenario.expected_item]
  /\ total r = 71%float
  /\ tax r = Some (71 * 0.18)%float
  /\ subtotal r = Some (71 - 71 * 0.18)%float.
Proof.
  intros r.
  destruct (exec totalRegex Scenario.receipt) as [m|] eqn:Hm;
    [|vm_compute in Hm; discriminate Hm].
  destruct (fallback_scenario Scenario.receipt [] [Scenario.total_line] m)
    as (H1 & H2 & H3 & H4 & _).
  - vm_compute. reflexivity.
  - repeat constructor.
  - exact Hm.
  - vm_compute in Hm. injection Hm as <-. vm_compute. reflexivity.
  - auto.
Defined.

(** The description is not ["SÜT"]. *)
Lemma fallback_scenario_description :
  ~ (exists item,
        items (parseViaRegex Scenario.receipt) = Some [item]
        /\ description item = [83; 220; 84]%N
        /\ totalPrice item = 71%float).
Proof.
  intros [item [Hitems [Hdesc _]]].
  vm_compute in Hitems.
  injection Hitems as <-.
  discriminate Hdesc.
Qed.

(** The record of the fallback path is not a reconciled one: it has no tax
    breakdown and its tax is not rounded. *)
Lemma fallback_not_reconciled :
  parseReceiptWithGemini (fun _ => None) (fun _ => None) Scenario.receipt None
  <> recalculateFinancials (parseViaRegex Scenario.receipt).
Proof.
  intro H. apply (f_equal taxBreakdown) in H.
  vm_compute in H. discriminate H.
Qed.

(** ** How a missing and how a negative VAT rate is taken *)

Lemma ltb_zero_truthy (r : number) :
  PrimFloat.ltb r 0%float = true -> truthy r = true.
Proof.
  rewrite ltb_spec. unfold truthy.
  destruct (Prim2SF r) as [s|s| |s m e]; cbn; try reflexivity; discriminate.
Qed.

(** The tax of a finite price at rate 0 is zero and the base is the price. *)
Lemma zero_rate_decomposition (v : number) :
  is_finite v = true ->
  let price := or_else v 0%float in
  PrimFloat.eqb (taxAmount price 0%float) 0%float = true
  /\ baseAmount price 0%float = price.
Proof.
  intros Hfin price.
  assert (Hprice : price = 0%float
                   \/ exists s m e, Prim2SF price = S754_finite s m e).
  { subst price. unfold or_else, truthy. unfold is_finite in Hfin.
    destruct (Prim2SF v) as [s|s| |s m e] eqn:Hv; try discriminate; eauto. }
  unfold baseAmount, taxAmount.
  change (0 / (100 + 0))%float with 0%float.
  destruct Hprice as [-> | (s & m & e & Hp)].
  - split; reflexivity.
  - assert (Ht : Prim2SF (price * 0)%float = S754_zero s).
    { rewrite mul_spec, Hp. cbn. now destruct s. }
    split.
    + rewrite eqb_spec, Ht. reflexivity.
    + apply Prim2SF_inj. rewrite sub_spec, Ht, Hp. reflexivity.
Qed.

(** C7, as the code has it.  A missing [vatRate] (absent, [NaN] or zero) is
    taken as 0, and then an item of finite price adds a tax of zero and its
    whole price as base; a negative [vatRate] is not changed: the item adds
    the tax [price * (rate / (100 + rate))] of that negative rate. *)
Theorem vatRate_normalisation (acc : totals) (item : ReceiptItem) :
  (vatRate item = None -> item_rate item = 0%float)
  /\ (forall r, vatRate item = Some r -> truthy r = false ->
      item_rate item = 0%float)
  /\ (forall r, vatRate item = Some r -> PrimFloat.ltb r 0%float = true ->
      item_rate item = r)
  /\ (item_rate item = 0%float -> is_finite (totalPrice item) = true ->
      PrimFloat.eqb (taxAmount (item_price item) (item_rate item)) 0%float
      = true
      /\ baseAmount (item_price item) (item_rate item) = item_price item)
  /\ calculatedTax (add_item acc item)
     = (calculatedTax acc
        + taxAmount (item_price item) (item_rate item))%float
  /\ calculatedSubtotal (add_item acc item)
     = (calculatedSubtotal acc
        + baseAmount (item_price item) (item_rate item))%float.
Proof.
  split; [|split; [|split; [|split; [|split]]]].
  - unfold item_rate. intros ->. reflexivity.
  - unfold item_rate. intros r -> Hr. cbn. unfold or_else. now rewrite Hr.
  - unfold item_rate. intros r -> Hr. cbn. unfold or_else.
    now rewrite (ltb_zero_truthy r Hr).
  - intros -> Hfin. unfold item_price.
    apply zero_rate_decomposition. exact Hfin.
  - unfold add_item, add_amounts. destruct (get _ _) as [[b a]|]; reflexivity.
  - unfold add_item, add_amounts. destruct (get _ _) as [[b a]|]; reflexivity.
Qed.

Lemma vatRate_normalisation_witness :
  let item := Samples.item 50%float None in
  item_rate item = 0%float
  /\ baseAmount (item_price item) (item_rate item) = item_price item.
Proof.
  intros item.
  destruct (vatRate_normalisation no_totals item) as (Hnone & _ & _ & Hzero & _).
  split; [apply Hnone; reflexivity|].
  apply Hzero; [apply Hnone; reflexivity | reflexivity].
Defined.

(** An item of price 100 at the rate -5 adds a tax of about -5.26 and a base
    of about 105.26. *)
Lemma negative_rate_is_kept :
  let item := Samples.item 100%float (Some (-5)%float) in
  item_rate item = (-5)%float
  /\ PrimFloat.eqb (calculatedTax (accumulate [item])) 0%float = false
  /\ PrimFloat.eqb (calculatedSubtotal (accumulate [item])) 100%float = false
  /\ tax (recalculateFinancials (Samples.receipt [item] 0%float None None None))
     = Some (-5.26)%float.
Proof. vm_compute. repeat split. Qed.

(** ** The decomposition of a gross price *)

(** At the rate 20 the base and the tax of 100000000.08 add up to a number
    that is off by more than [1e-9]. *)
Lemma decomposition_off_at_1e8 :
  let gross := 100000000.08%float in
  let rate := 20%float in
  ~ within (1 # 1000000000)%Q
      (F2Q (baseAmount gross rate + taxAmount gross rate)%float) (F2Q gross).
Proof.
  intros gross rate H. unfold within in H. vm_compute in H.
  apply H. reflexivity.
Qed.

Section Decomposition.
Local Open Scope Q_scope.

Lemma valid_le_max (z : spec_float) :
  valid_binary z = true -> Qabs (SF2Q z) <= pow2 1024 - pow2 971.
Proof.
  intros Hv.
  assert (H971 : 0 < pow2 971) by apply pow2_pos.
  assert (Hbig : pow2 971 < pow2 1024) by (apply pow2_lt; lia).
  rewrite <- SF2Q_abs.
  destruct z as [s|s| |s m e]; cbn [SFabs SF2Q]; try lra.
  cbn in Hv. destruct (bounded_canonical m e Hv) as (He & _).
  destruct (bounded_mantissa m e Hv) as [Hlt _].
  assert (Hq : inject_Z (Zpos m) <= inject_Z (2 ^ 53) - 1).
  { rewrite <- inject_pred, <- Zle_Qle. lia. }
  assert (Hp : pow2 e <= pow2 971) by (apply pow2_le; lia).
  pose proof (pow2_pos e) as HP.
  replace 1024%Z with (53 + 971)%Z by reflexivity.
  rewrite pow2_add, (pow2_Z 53) by lia.
  assert (0 < inject_Z (Zpos m)) by reflexivity.
  assert (1 <= inject_Z (2 ^ 53) - 1) by (vm_compute; discriminate).
  nra.
Qed.

Lemma F2Q_le_max (x : number) : Qabs (F2Q x) <= pow2 1024 - pow2 971.
Proof. apply valid_le_max, Prim2SF_valid. Qed.

Lemma rounded_zero_value (q : Q) (r : spec_float) :
  rounded q r -> q == 0 -> SF2Q r == 0.
Proof.
  intros Hr Hq. rewrite <- Hq.
  apply (rounded_exact q r (S754_zero false)); auto.
Qed.

(** The rate's share [rate / (100 + rate)] is a number between 0 and 1. *)
Lemma share_bounds (rate : number) :
  is_finite rate = true -> 0 <= F2Q rate ->
  let f := (rate / (100 + rate))%float in
  is_finite f = true /\ 0 <= F2Q f <= 1 /\ (F2Q rate == 0 -> F2Q f == 0).
Proof.
  intros Hfin Hr f.
  assert (H100 : F2Q 100%float == 100) by (vm_compute; reflexivity).
  assert (Hf100 : is_finite 100%float = true) by reflexivity.
  remember (F2Q 100%float) as c100 eqn:Ec.
  pose proof (F2Q_le_max rate) as Hmax. rewrite Qabs_pos in Hmax by exact Hr.
  assert (Hd : rounded (c100 + F2Q rate) (Prim2SF (100 + rate)%float)).
  { rewrite Ec. apply add_rounded; auto. rewrite <- Ec, H100, Qabs_pos by lra.
    unfold overflow_threshold.
    assert (pow2 1024 - pow2 971 + 100 < pow2 1024 - pow2 970)
      by (vm_compute; reflexivity).
    lra. }
  pose proof (rounded_is_finite _ _ Hd) as Hdf.
  assert (HD100 : 100 <= F2Q (100 + rate)%float).
  { rewrite <- H100, Ec. apply (rounded_ge_number _ _ _ Hd Hf100).
    rewrite <- Ec. lra. }
  assert (HDr : F2Q rate <= F2Q (100 + rate)%float).
  { apply (rounded_ge_number _ _ _ Hd Hfin). lra. }
  set (D := F2Q (100 + rate)%float) in *.
  assert (Hq : 0 <= F2Q rate / D <= 1).
  { split; [apply Qle_shift_div_l | apply Qle_shift_div_r]; lra. }
  assert (Hfr : rounded (F2Q rate / D) (Prim2SF f)).
  { apply div_rounded; auto; [intros Hz; fold D in Hz; lra|]. fold D.
    apply below_threshold. rewrite Qabs_pos by lra.
    assert (1 <= pow2 1023) by (vm_compute; discriminate). lra. }
  split; [exact (rounded_is_finite _ _ Hfr)|]. split; [split|].
  - apply (rounded_nonneg _ _ Hfr). lra.
  - assert (H1 : F2Q 1%float == 1) by (vm_compute; reflexivity).
    remember (F2Q 1%float) as c1 eqn:Ec1.
    rewrite <- H1, Ec1. apply (rounded_le_number _ _ 1%float Hfr); [reflexivity|].
    rewrite <- Ec1. lra.
  - intros Hz. apply (rounded_zero_value _ _ Hfr). rewrite Hz.
    unfold Qdiv. apply Qmult_0_l.
Qed.

Lemma decomposition_bounds (gross rate : number) :
  is_finite gross = true -> is_finite rate = true ->
  0 <= F2Q gross -> 0 <= F2Q rate ->
  let t := taxAmount gross rate in
  let b := baseAmount gross rate in
  is_finite t = true /\ is_finite b = true
  /\ 0 <= F2Q t <= F2Q gross
  /\ 0 <= F2Q b <= F2Q gross
  /\ Qabs (F2Q b - (F2Q gross - F2Q t))
     <= pow2 (-53) * F2Q gross + pow2 (-1075)
  /\ (F2Q rate == 0 -> F2Q t == 0 /\ F2Q b == F2Q gross).
Proof.
  intros Hg Hr Hg0 Hr0 t b.
  destruct (share_bounds rate Hr Hr0) as (Hff & [Hf0 Hf1] & Hfz).
  unfold taxAmount in t. unfold baseAmount in b. fold t in b.
  set (f := (rate / (100 + rate))%float) in *.
  pose proof (valid_below_threshold _ (Prim2SF_valid gross)) as Hgmax.
  fold (F2Q gross) in Hgmax. rewrite Qabs_pos in Hgmax by exact Hg0.
  assert (Ht : rounded (F2Q gross * F2Q f) (Prim2SF t)).
  { apply mul_rounded; auto. rewrite Qabs_pos by nra. nra. }
  pose proof (rounded_is_finite _ _ Ht) as Htf.
  assert (Ht0 : 0 <= F2Q t) by (apply (rounded_nonneg _ _ Ht); nra).
  assert (Ht1 : F2Q t <= F2Q gross)
    by (apply (rounded_le_number _ _ _ Ht Hg); nra).
  assert (Hb : rounded (F2Q gross - F2Q t) (Prim2SF b)).
  { apply sub_rounded; auto. rewrite Qabs_pos by lra. lra. }
  pose proof (rounded_is_finite _ _ Hb) as Hbf.
  assert (Hb0 : 0 <= F2Q b) by (apply (rounded_nonneg _ _ Hb); lra).
  assert (Hb1 : F2Q b <= F2Q gross)
    by (apply (rounded_le_number _ _ _ Hb Hg); lra).
  split; [exact Htf|]. split; [exact Hbf|]. split; [split; assumption|].
  split; [split; assumption|]. split.
  - pose proof (rounded_error _ _ Hb) as He.
    rewrite (Qabs_pos (F2Q gross - F2Q t)) in He by lra.
    pose proof (pow2_pos (-53)). unfold F2Q at 1. nra.
  - intros Hz. specialize (Hfz Hz).
    assert (Ez : F2Q t == 0).
    { apply (rounded_zero_value _ _ Ht). rewrite Hfz. ring. }
    split; [exact Ez|].
    assert (Eb : SF2Q (Prim2SF b) == F2Q gross - F2Q t).
    { apply (rounded_exact _ _ (Prim2SF gross) Hb);
        auto using Prim2SF_valid.
      rewrite Ez. unfold F2Q. ring. }
    unfold F2Q at 1. rewrite Eb, Ez. ring.
Qed.

(** C5, as the code has it.  For a finite gross price from 0 to [2^1023]
    and a finite rate that is not negative, the tax and the base are finite,
    lie between 0 and the gross price, and add up (in floating point) to
    the gross price within [gross * 2^-52 + 2^-1074]: within [1e-9] for a
    gross price up to 4 500 000.  At the rate 0 the tax is 0 and the base is
    the gross price. *)
Theorem decomposition_inverse_law (gross rate : number) :
  is_finite gross = true -> is_finite rate = true ->
  0 <= F2Q gross -> F2Q gross <= pow2 1023 -> 0 <= F2Q rate ->
  let t := taxAmount gross rate in
  let b := baseAmount gross rate in
  is_finite (b + t)%float = true
  /\ 0 <= F2Q t <= F2Q gross
  /\ 0 <= F2Q b <= F2Q gross
  /\ within (pow2 (-52) * F2Q gross + pow2 (-1074))
       (F2Q (b + t)%float) (F2Q gross)
  /\ (F2Q gross <= 4500000 ->
      within (1 # 1000000000) (F2Q (b + t)%float) (F2Q gross))
  /\ (F2Q rate == 0 -> F2Q t == 0 /\ F2Q b == F2Q gross).
Proof.
  intros Hg Hr Hg0 Hgmax Hr0 t b.
  destruct (decomposition_bounds gross rate Hg Hr Hg0 Hr0)
    as (Htf & Hbf & Ht & Hb & Herr & Hz).
  fold t in Htf, Ht, Herr, Hz. fold b in Hbf, Hb, Herr, Hz.
  assert (Hp53 : pow2 (-53) * pow2 1023 + pow2 (-1075) + pow2 1023
                 < overflow_threshold) by (vm_compute; reflexivity).
  pose proof (pow2_pos (-53)) as H53. pose proof (pow2_pos (-1075)) as H1075.
  apply Qabs_Qle_condition in Herr. destruct Herr as [Hlo Hhi].
  assert (Hs : rounded (F2Q b + F2Q t) (Prim2SF (b + t)%float)).
  { apply add_rounded; auto. rewrite Qabs_pos by lra. nra. }
  assert (Hwithin : within (pow2 (-52) * F2Q gross + pow2 (-1074))
                      (F2Q (b + t)%float) (F2Q gross)).
  { pose proof (rounded_nearer_number _ _ gross Hs Hg) as Hn.
    assert (E52 : pow2 (-52) == 2 * pow2 (-53)).
    { replace (-52)%Z with (-53 + 1)%Z by reflexivity. apply pow2_succ. }
    assert (E1074 : pow2 (-1074) == 2 * pow2 (-1075)).
    { replace (-1074)%Z with (-1075 + 1)%Z by reflexivity. apply pow2_succ. }
    unfold within. rewrite E52, E1074.
    fold (F2Q (b + t)%float) in Hn.
    apply Qabs_Qle_condition.
    revert Hn. apply Qabs_case; intros H1 Hn; revert Hn;
      apply Qabs_case; intros H2 Hn; split; lra. }
  split; [exact (rounded_is_finite _ _ Hs)|].
  split; [exact Ht|]. split; [exact Hb|]. split; [exact Hwithin|].
  split; [|exact Hz].
  intros Hsmall. unfold within in *.
  eapply Qle_trans; [exact Hwithin|].
  assert (Hc : pow2 (-52) * 4500000 + pow2 (-1074) <= 1 # 1000000000)
    by (vm_compute; discriminate).
  pose proof (pow2_pos (-52)). nra.
Qed.

End Decomposition.

Lemma decomposition_inverse_law_witness :
  within (1 # 1000000000)%Q
    (F2Q (baseAmount 100 20 + taxAmount 100 20)%float) (F2Q 100%float).
Proof.
  assert (H0 : (0 <= F2Q 100%float)%Q) by (vm_compute; discriminate).
  assert (H1 : (F2Q 100%float <= pow2 1023)%Q) by (vm_compute; discriminate).
  assert (H2 : (0 <= F2Q 20%float)%Q) by (vm_compute; discriminate).
  assert (H3 : (F2Q 100%float <= 4500000)%Q) by (vm_compute; discriminate).
  exact (proj1 (proj2 (proj2 (proj2 (proj2
           (decomposition_inverse_law 100%float 20%float eq_refl eq_refl
              H0 H1 H2))))) H3).
Defined.

(** ** Rounding to two decimals *)

Section TwoDecimals.
Local Open Scope Q_scope.

(** [hundredths m e] is [m * 2^e * 100] rounded to the nearest integer,
    halves upwards. *)
Lemma hundredths_spec (m : positive) (e : Z) :
  let n := hundredths m e in
  let x := inject_Z (Zpos m) * pow2 e in
  (0 <= n)%Z
  /\ inject_Z n <= 100 * x + (1 # 2) /\ 100 * x + (1 # 2) < inject_Z n + 1
  /\ ((0 <= e)%Z -> inject_Z n == 100 * x).
Proof.
  intros n x. unfold hundredths in n.
  destruct e as [|p|p].
  - subst n x. change (pow2 0) with 1. change (2 ^ 0)%Z with 1%Z.
    rewrite Z.mul_1_r, inject_Z_mult. change (inject_Z 100) with 100.
    assert (0 < inject_Z (Zpos m)) by reflexivity.
    split; [lia|]. split; [lra|]. split; [lra|]. intros _. ring.
  - assert (E : inject_Z n == 100 * x).
    { subst n x. rewrite !inject_Z_mult, (pow2_Z (Zpos p)) by lia.
      change (inject_Z 100) with 100. ring. }
    assert (0 < x).
    { subst x. pose proof (pow2_pos (Zpos p)).
      assert (0 < inject_Z (Zpos m)) by reflexivity. nra. }
    split; [subst n; lia|]. split; [lra|]. split; [lra|]. intros _. exact E.
  - subst n.
    set (a := (200 * Zpos m + Z.pow_pos 2 p)%Z).
    set (b := Z.pow_pos 2 (Pos.succ p)).
    assert (Hb : (b = 2 * 2 ^ Zpos p)%Z).
    { unfold b. rewrite <- Pos2Z.inj_pow_pos, Pos2Z.inj_pow, Pos2Z.inj_succ.
      rewrite Z.pow_succ_r by lia. reflexivity. }
    assert (Ha : (a = 200 * Zpos m + 2 ^ Zpos p)%Z).
    { unfold a. now rewrite <- Pos2Z.inj_pow_pos, Pos2Z.inj_pow. }
    assert (Hpos : (0 < 2 ^ Zpos p)%Z) by (apply Z.pow_pos_nonneg; lia).
    pose proof (Z_div_mod a b ltac:(lia)) as Hdiv.
    unfold Z.div. destruct (Z.div_eucl a b) as [q r]. destruct Hdiv as [Hqr Hr].
    assert (Hx : 100 * x + (1 # 2) == inject_Z a / inject_Z b).
    { unfold x. rewrite Ha, Hb, inject_Z_plus, !inject_Z_mult.
      assert (Ep : pow2 (Zneg p) == / inject_Z (2 ^ Zpos p)).
      { change (Zneg p) with (- Zpos p)%Z. unfold pow2. rewrite Qpower_opp.
        rewrite <- (pow2_Z (Zpos p)) by lia. reflexivity. }
      rewrite Ep. change (inject_Z 200) with 200. change (inject_Z 2) with 2.
      assert (0 < inject_Z (2 ^ Zpos p)).
      { change 0 with (inject_Z 0). rewrite <- Zlt_Qlt. exact Hpos. }
      field. lra. }
    assert (Hbq : 0 < inject_Z b).
    { change 0 with (inject_Z 0). rewrite <- Zlt_Qlt. lia. }
    assert (Haq : inject_Z a == inject_Z b * inject_Z q + inject_Z r).
    { rewrite Hqr, inject_Z_plus, inject_Z_mult. reflexivity. }
    assert (Hrq : 0 <= inject_Z r /\ inject_Z r < inject_Z b).
    { split; [change 0 with (inject_Z 0); rewrite <- Zle_Qle; lia
             | rewrite <- Zlt_Qlt; lia]. }
    split; [nia|]. rewrite Hx. split; [|split].
    + apply Qle_shift_div_l; [exact Hbq|]. rewrite Haq. nra.
    + apply Qlt_shift_div_r; [exact Hbq|]. rewrite Haq. nra.
    + intros; lia.
Qed.

Lemma of_decimal_rounded (neg : bool) (n d : positive) :
  inject_Z (Zpos n) / inject_Z (Zpos d) < overflow_threshold ->
  rounded (signed neg (inject_Z (Zpos n) / inject_Z (Zpos d)))
    (Prim2SF (of_decimal neg (Zpos n) d)).
Proof.
  intros Hlt. unfold of_decimal.
  pose proof (decimal_rounded neg n d Hlt) as H.
  destruct (SFdiv_core_binary prec emax (Zpos n) 0 (Zpos d) 0) as [[q e] l].
  rewrite Prim2SF_SF2Prim; [exact H|]. apply H.
Qed.

(** A number above zero is [+Infinity] or has a positive value. *)
Lemma gt_zero_positive (y : number) :
  gt y 0%float = true ->
  Prim2SF y = S754_infinity false
  \/ exists m e, Prim2SF y = S754_finite false m e.
Proof.
  unfold gt. rewrite ltb_spec.
  change (Prim2SF 0%float) with (S754_zero false).
  destruct (Prim2SF y) as [s|[|]| |[|] m e]; cbn; try discriminate; eauto.
Qed.

Lemma positive_value_finite (r : spec_float) :
  finite_sf r = true -> 0 < SF2Q r ->
  exists m e, r = S754_finite false m e.
Proof.
  intros Hf Hpos.
  destruct r as [s|s| |[|] m e]; try discriminate; cbn [SF2Q] in Hpos.
  - exfalso. pose proof (pow2_pos e).
    change (inject_Z (Zneg m)) with (- inject_Z (Zpos m)) in Hpos.
    assert (0 < inject_Z (Zpos m)) by reflexivity. nra.
  - eauto.
Qed.

(** Floats of the same positive value are the same float. *)
Lemma same_positive_value (r r' : spec_float) :
  valid_binary r = true -> valid_binary r' = true ->
  finite_sf r = true -> finite_sf r' = true ->
  0 < SF2Q r -> SF2Q r' == SF2Q r -> r' = r.
Proof.
  intros Hv Hv' Hf Hf' Hpos E.
  destruct (positive_value_finite r Hf Hpos) as (m & e & ->).
  assert (Hpos' : 0 < SF2Q r') by lra.
  destruct (positive_value_finite r' Hf' Hpos') as (m' & e' & ->).
  cbn [SF2Q] in E. cbn in Hv, Hv'.
  destruct (valid_unique m' m e' e Hv' Hv E) as [-> ->]. reflexivity.
Qed.

Lemma pow2_lt_inv (a b : Z) : pow2 a < pow2 b -> (a < b)%Z.
Proof.
  intros H. destruct (Z_lt_le_dec a b) as [|Hle]; [assumption|].
  apply pow2_le in Hle. lra.
Qed.

(** Two multiples of [2^-6] less than [2^-6] apart are equal. *)
Lemma same_multiple (k k' : Z) (e e' : Z) :
  (-6 <= e)%Z -> (-6 <= e')%Z ->
  Qabs (inject_Z k * pow2 e - inject_Z k' * pow2 e') < pow2 (-6) ->
  inject_Z k * pow2 e == inject_Z k' * pow2 e'.
Proof.
  intros He He' Hlt.
  assert (E : forall k e, (-6 <= e)%Z ->
            inject_Z k * pow2 e == inject_Z (k * 2 ^ (e + 6)) * pow2 (-6)).
  { clear. intros k e He. rewrite pow2_inject by lia.
    replace (e + 6 + -6)%Z with e by lia. reflexivity. }
  rewrite (E k e He), (E k' e' He') in Hlt |- *.
  set (a := (k * 2 ^ (e + 6))%Z) in *. set (b := (k' * 2 ^ (e' + 6))%Z) in *.
  pose proof (pow2_pos (-6)) as HP.
  destruct (Z.eq_dec a b) as [->|Hne]; [reflexivity|exfalso].
  apply Qabs_Qlt_condition in Hlt. destruct Hlt as [Hlo Hhi].
  assert (Hcases : (a <= b - 1)%Z \/ (b + 1 <= a)%Z) by lia.
  destruct Hcases as [H|H]; rewrite Zle_Qle in H;
    rewrite ?inject_succ, ?inject_pred in H; nra.
Qed.

(** The number nearest to a positive decimal with two places is not changed
    by printing it with two places and reading it back. *)
Lemma two_decimal_fixed (p : positive) :
  inject_Z (Zpos p) / 100 < overflow_threshold ->
  let y := of_decimal false (Zpos p) 100 in
  toFixed2 y = y.
Proof.
  intros Hlt y.
  pose proof (of_decimal_rounded false p 100 Hlt) as Hr.
  fold y in Hr. cbn [signed] in Hr. change (inject_Z 100) with 100 in Hr.
  set (z := inject_Z (Zpos p) / 100) in *.
  assert (Hz : 1 # 100 <= z).
  { unfold z. apply Qle_shift_div_l; [reflexivity|].
    assert (1 <= inject_Z (Zpos p)) by (change 1 with (inject_Z 1); rewrite <- Zle_Qle; lia).
    lra. }
  (* the value of y *)
  assert (Hy7 : pow2 (-7) <= F2Q y).
  { assert (E : SF2Q (S754_finite false 4503599627370496 (-59)) == pow2 (-7))
      by (vm_compute; reflexivity).
    rewrite <- E. apply (rounded_ge z); [exact Hr | reflexivity | reflexivity|].
    rewrite E. assert (pow2 (-7) <= 1 # 100) by (vm_compute; discriminate). lra. }
  assert (Hypos : 0 < F2Q y) by (pose proof (pow2_pos (-7)); lra).
  destruct Hr as (Hfin & Hval & Hnear & Hgrid). pose proof Hgrid as Hgrid0.
  destruct (positive_value_finite _ Hfin Hypos) as (m & e & Hy).
  unfold toFixed2. rewrite Hy.
  destruct (PrimFloat.leb 1e21 (abs y)); [reflexivity|].
  pose proof (hundredths_spec m e) as Hn. cbv zeta in Hn.
  remember (hundredths m e) as n eqn:En'.
  assert (EY : F2Q y == inject_Z (Zpos m) * pow2 e) by (unfold F2Q; rewrite Hy; reflexivity).
  rewrite <- EY in Hn. destruct Hn as (Hn0 & Hn1 & Hn2 & _).
  set (Y := F2Q y) in *.
  (* n is positive *)
  assert (Hnpos : (0 < n)%Z).
  { assert (H7 : 0 < 100 * pow2 (-7) + (1 # 2) - 1) by (vm_compute; reflexivity).
    assert (Hq : 0 < inject_Z n) by lra.
    change 0 with (inject_Z 0) in Hq. now rewrite <- Zlt_Qlt in Hq. }
  destruct n as [|p'|p']; try lia. clear Hn0 Hnpos.
  destruct (Qlt_le_dec z (pow2 46)) as [Hsmall|Hbig].
  - (* below 2^46 the hundredths are the same *)
    destruct Hgrid as (e1 & k & He1 & _ & Herr & Hnorm & _).
    fold Y in Herr.
    rewrite (Qabs_pos z) in Hnorm by lra.
    assert (Hhalf : (1 # 2) * pow2 e1 <= pow2 (-8)).
    { assert (He : (e1 <= -7)%Z).
      { destruct Hnorm as [->|Hn]; [lia|].
        assert (pow2 (e1 + 52) < pow2 46) by lra.
        apply pow2_lt_inv in H. lia. }
      assert (H : pow2 e1 <= pow2 (-7)) by (apply pow2_le; exact He).
      replace (-7)%Z with (-8 + 1)%Z in H by reflexivity.
      rewrite pow2_succ in H. lra. }
    assert (H8 : 100 * pow2 (-8) < 1 # 2) by (vm_compute; reflexivity).
    apply Qabs_Qle_condition in Herr. destruct Herr as [Hlo Hhi].
    assert (Hzp : 100 * z == inject_Z (Zpos p)) by (unfold z; field).
    assert (Hpp : Zpos p' = Zpos p).
    { change (SF2Q (Prim2SF y)) with Y in Hlo, Hhi.
      assert (H1 : inject_Z (Zpos p') < inject_Z (Zpos p) + 1) by lra.
      assert (H2 : inject_Z (Zpos p) < inject_Z (Zpos p') + 1) by lra.
      rewrite <- inject_succ, <- Zlt_Qlt in H1, H2. lia. }
    injection Hpp as ->. reflexivity.
  - (* from 2^46 on, the floats are multiples of 2^-6 *)
    clear Hgrid.
    assert (Hr : rounded z (Prim2SF y)) by (repeat split; assumption || exact Hgrid0).
    assert (HY46 : pow2 46 <= Y).
    { assert (E : SF2Q (S754_finite false 4503599627370496 (-6)) == pow2 46)
        by (vm_compute; reflexivity).
      unfold Y, F2Q. rewrite <- E.
      apply (rounded_ge z); [exact Hr|reflexivity|reflexivity|].
      rewrite E. exact Hbig. }
    assert (Hvm : bounded prec emax m e = true) by (rewrite Hy in Hval; exact Hval).
    destruct (bounded_mantissa m e Hvm) as [Hm53 _].
    assert (He6 : (-6 <= e)%Z).
    { assert (Hq : inject_Z (Zpos m) < inject_Z (2 ^ 53))
        by (rewrite <- Zlt_Qlt; exact Hm53).
      pose proof (pow2_pos e) as HP.
      assert (Hlt2 : pow2 46 < pow2 (53 + e)).
      { rewrite pow2_add, (pow2_Z 53) by lia. nra. }
      apply pow2_lt_inv in Hlt2. lia. }
    set (z' := inject_Z (Zpos p') / 100).
    assert (Hz' : 100 * z' == inject_Z (Zpos p')) by (unfold z'; field).
    assert (Hclose : Qabs (Y - z') <= 1 # 200).
    { apply Qabs_Qle_condition. split; lra. }
    pose proof (valid_le_max _ Hval) as Hmax.
    change (SF2Q (Prim2SF y)) with Y in Hmax. rewrite Qabs_pos in Hmax by lra.
    assert (Hlt' : z' < overflow_threshold).
    { unfold overflow_threshold.
      assert (pow2 1024 - pow2 971 + (1 # 200) < pow2 1024 - pow2 970)
        by (vm_compute; reflexivity).
      apply Qabs_Qle_condition in Hclose. lra. }
    pose proof (of_decimal_rounded false p' 100 Hlt') as Hr2.
    cbn [signed] in Hr2. change (inject_Z 100) with 100 in Hr2. fold z' in Hr2.
    set (y2 := of_decimal false (Zpos p') 100) in *.
    apply Prim2SF_inj.
    destruct Hr2 as (Hfin2 & Hval2 & Hnear2 & e1 & k & He1 & Hk & _ & _ & Hup).
    apply same_positive_value; try assumption.
    specialize (Hnear2 (Prim2SF y) Hval Hfin).
    change (SF2Q (Prim2SF y)) with Y in Hnear2 |- *.
    set (R2 := SF2Q (Prim2SF y2)) in *.
    assert (Hdist : Qabs (R2 - Y) <= 1 # 100).
    { apply Qabs_Qle_condition in Hclose.
      apply Qabs_Qle_condition. revert Hnear2.
      apply Qabs_case; intros H1 Hn; revert Hn;
        apply Qabs_case; intros H2 Hn; split; lra. }
    assert (Hz'pos : 0 <= z').
    { apply Qabs_Qle_condition in Hclose.
      assert (1 <= pow2 46) by (vm_compute; discriminate). lra. }
    rewrite (Qabs_pos z') in Hup by exact Hz'pos.
    destruct (Qlt_le_dec z' (pow2 46)) as [Hsmall'|Hbig'].
    + exfalso.
      assert (EK : Y == inject_Z (Zpos m * 2 ^ (e + 6)) * pow2 (-6)).
      { rewrite EY, pow2_inject by lia.
        replace (e + 6 + -6)%Z with e by lia. reflexivity. }
      set (K := (Zpos m * 2 ^ (e + 6))%Z) in *.
      pose proof (pow2_pos (-6)) as HP6.
      assert (E46 : pow2 46 == inject_Z (2 ^ 52) * pow2 (-6))
        by (vm_compute; reflexivity).
      assert (HK : K = (2 ^ 52)%Z).
      { apply Qabs_Qle_condition in Hclose.
        assert (H200 : 1 # 200 < pow2 (-6)) by (vm_compute; reflexivity).
        assert (Hlo : inject_Z (2 ^ 52) <= inject_Z K) by nra.
        assert (Hhi : inject_Z K < inject_Z (2 ^ 52) + 1) by nra.
        rewrite <- inject_succ in Hhi.
        rewrite <- Zle_Qle in Hlo. rewrite <- Zlt_Qlt in Hhi. lia. }
      rewrite HK, <- E46 in EK.
      assert (E100 : 100 * pow2 46 == inject_Z (100 * 2 ^ 46))
        by (vm_compute; reflexivity).
      assert (Hp : Zpos p' = (100 * 2 ^ 46)%Z).
      { assert (H1 : inject_Z (100 * 2 ^ 46) < inject_Z (Zpos p') + 1) by lra.
        assert (H2 : inject_Z (Zpos p') < inject_Z (100 * 2 ^ 46) + 1) by lra.
        rewrite <- inject_succ, <- Zlt_Qlt in H1, H2. lia. }
      rewrite Hp, <- E100 in Hz'. lra.
    + assert (He16 : (-6 <= e1)%Z).
      { assert (Hlt2 : pow2 46 < pow2 (e1 + 53)) by lra.
        apply pow2_lt_inv in Hlt2. lia. }
      unfold R2 in *. rewrite Hk, EY in Hdist |- *.
      apply same_multiple; try assumption.
      assert (1 # 100 < pow2 (-6)) by (vm_compute; reflexivity). lra.
Qed.

(** The hundredths of a float stay below the overflow threshold. *)
Lemma hundredths_below_threshold (m p : positive) (e : Z) :
  bounded prec emax m e = true -> hundredths m e = Zpos p ->
  inject_Z (Zpos p) / 100 < overflow_threshold.
Proof.
  intros Hb Hp. pose proof (hundredths_spec m e) as Hn. cbv zeta in Hn.
  rewrite Hp in Hn. destruct Hn as (_ & Hn1 & _).
  pose proof (valid_le_max (S754_finite false m e) Hb) as Hmax.
  cbn [SF2Q] in Hmax.
  pose proof (pow2_pos e). assert (0 < inject_Z (Zpos m)) by reflexivity.
  rewrite Qabs_pos in Hmax by nra.
  unfold overflow_threshold.
  assert (pow2 1024 - pow2 971 + (1 # 200) < pow2 1024 - pow2 970)
    by (vm_compute; reflexivity).
  apply Qlt_shift_div_r; [reflexivity|]. lra.
Qed.

(** C6's rounding step: a positive result of [Number(x.toFixed(2))] is a
    fixed point of it. *)
Lemma toFixed2_idempotent (x : number) :
  gt (toFixed2 x) 0%float = true -> toFixed2 (toFixed2 x) = toFixed2 x.
Proof.
  intros Hpos.
  assert (Hcases : toFixed2 x = x
                   \/ toFixed2 x = 0%float
                   \/ exists s m e, Prim2SF x = S754_finite s m e
                        /\ toFixed2 x = of_decimal s (hundredths m e) 100).
  { unfold toFixed2. destruct (Prim2SF x) as [s|s| |s m e] eqn:Hx; auto.
    destruct (PrimFloat.leb 1e21 (abs x)); eauto 7. }
  destruct Hcases as [E | [E | (s & m & e & Hx & E)]].
  - rewrite E. exact E.
  - rewrite E in Hpos. discriminate Hpos.
  - rewrite E in Hpos |- *.
    pose proof (Prim2SF_valid x) as Hv. rewrite Hx in Hv. cbn in Hv.
    destruct (hundredths_spec m e) as (Hn0 & _). 
    destruct (hundredths m e) as [|p|p] eqn:Hp; [| |lia].
    + destruct s; discriminate Hpos.
    + pose proof (hundredths_below_threshold m p e Hv Hp) as Hlt.
      destruct s.
      * exfalso.
        pose proof (of_decimal_rounded true p 100 Hlt) as Hr.
        cbn [signed] in Hr. change (inject_Z 100) with 100 in Hr.
        assert (Hle : SF2Q (Prim2SF (of_decimal true (Zpos p) 100)) <= 0).
        { apply (rounded_nonpos _ _ Hr).
          assert (0 <= inject_Z (Zpos p) / 100)
            by (apply Qle_shift_div_l; [reflexivity|]; rewrite Qmult_0_l; discriminate).
          lra. }
        destruct Hr as (Hfin & _).
        destruct (gt_zero_positive _ Hpos) as [Hy | (m' & e' & Hy)];
          rewrite Hy in Hfin, Hle; [discriminate Hfin|].
        cbn [SF2Q] in Hle. pose proof (pow2_pos e').
        assert (0 < inject_Z (Zpos m')) by reflexivity. nra.
      * apply two_decimal_fixed. exact Hlt.
Qed.

End TwoDecimals.

(** ** Reconciling twice *)

(** A total of 0.001 is positive, so it is kept and rounded to 0; the second
    pass finds a total that is not positive and takes the items' 100. *)
Lemma reconcile_twice_differs :
  let data :=
    Samples.receipt [Samples.item 100%float (Some 20%float)] 0.001%float
      None None None in
  recalculateFinancials (recalculateFinancials data)
  <> recalculateFinancials data.
Proof.
  intros data H. apply (f_equal total) in H.
  vm_compute in H.
  apply (f_equal Prim2SF) in H. vm_compute in H. discriminate H.
Qed.

Lemma gt_zero_truthy (x : number) : gt x 0%float = true -> truthy x = true.
Proof.
  intros H. unfold truthy.
  destruct (gt_zero_positive x H) as [-> | (m & e & ->)]; reflexivity.
Qed.

Lemma present_and_positive_gt (x : number) :
  present_and_positive (Some x) = gt x 0%float.
Proof.
  unfold present_and_positive.
  destruct (gt x 0%float) eqn:H; [|apply andb_false_r].
  now rewrite (gt_zero_truthy x H).
Qed.

Lemma resolve_idempotent (own calc : number) :
  rounds_to_positive own = true ->
  let v := toFixed2 (if gt own 0%float then own else calc) in
  toFixed2 (if gt v 0%float then v else calc) = v.
Proof.
  unfold rounds_to_positive. intros Hown.
  destruct (gt own 0%float) eqn:Hpos; cbn [implb] in Hown.
  - rewrite Hown. now apply toFixed2_idempotent.
  - destruct (gt (toFixed2 calc) 0%float) eqn:Hc; [|reflexivity].
    now apply toFixed2_idempotent.
Qed.

Lemma resolve_option_idempotent (own : option number) (calc : number) :
  match own with Some t => rounds_to_positive t = true | None => True end ->
  let v := toFixed2 (if present_and_positive own then Number_ own else calc) in
  toFixed2 (if present_and_positive (Some v) then Number_ (Some v) else calc)
  = v.
Proof.
  intros Hown v. rewrite present_and_positive_gt. cbn [Number_].
  destruct own as [t|].
  - subst v. rewrite present_and_positive_gt. cbn [Number_].
    now apply resolve_idempotent.
  - subst v. cbn [present_and_positive].
    destruct (gt (toFixed2 calc) 0%float) eqn:Hc; [|reflexivity].
    now apply toFixed2_idempotent.
Qed.

(** C6, as the code has it.  Reconciling a reconciled record changes
    nothing, provided that none of the input's positive total, tax and
    subtotal rounds to zero. *)
Theorem reconcile_idempotent (data : ReceiptData) (first : ReceiptItem)
  (rest : list ReceiptItem) :
  items data = Some (first :: rest) ->
  rounds_to_positive (total data) = true ->
  match tax data with
  | Some t => rounds_to_positive t = true
  | None => True
  end ->
  match subtotal data with
  | Some t => rounds_to_positive t = true
  | None => True
  end ->
  recalculateFinancials (recalculateFinancials data)
  = recalculateFinancials data.
Proof.
  intros Hitems Htotal Htax Hsub.
  unfold recalculateFinancials at 2 3. rewrite Hitems.
  unfold recalculateFinancials. cbn [items].
  cbn [total tax subtotal taxBreakdown merchantName merchantAddress taxNumber
       taxOffice sicilNumber date time totalInWords currency paymentMethod
       invoiceNumber zNumber ekuNumber cashier].
  rewrite (resolve_idempotent _ _ Htotal).
  rewrite (resolve_option_idempotent _ _ Htax).
  rewrite (resolve_option_idempotent _ _ Hsub).
  f_equal.
  destruct (taxBreakdown data) as [[|entry entries]|];
    try reflexivity;
    destruct (newBreakdown _); reflexivity.
Qed.

Lemma reconcile_idempotent_witness :
  let data :=
    Samples.receipt [Samples.item 100%float (Some 20%float)] 100.5%float
      (Some 0%float) None None in
  recalculateFinancials (recalculateFinancials data)
  = recalculateFinancials data.
Proof.
  intro data.
  apply (reconcile_idempotent data (Samples.item 100%float (Some 20%float)) []).
  - reflexivity.
  - vm_compute. reflexivity.
  - vm_compute. reflexivity.
  - exact I.
Defined.

(** ** The breakdown by rate *)

(** *** Objects keyed by numbers *)

Section ObjectFacts.
Context {V : Type}.
Implicit Types (o : object V) (k : key) (v : V).

Lemma key_eqb_eq (a b : key) : key_eqb a b = true <-> a = b.
Proof.
  split.
  - destruct a as [s|s| |s m e], b as [s'|s'| |s' m' e']; cbn; try discriminate;
      try reflexivity.
    + intros H. apply eqb_prop in H. now subst.
    + intros H. apply eqb_prop in H. now subst.
    + rewrite !andb_true_iff. intros [[Hs Hm] He].
      apply eqb_prop in Hs. apply Pos.eqb_eq in Hm. apply Z.eqb_eq in He.
      now subst.
  - intros <-. destruct a as [s|s| |s m e]; cbn; trivial.
    + apply eqb_reflx.
    + apply eqb_reflx.
    + now rewrite eqb_reflx, Pos.eqb_refl, Z.eqb_refl.
Qed.

Lemma key_eqb_refl (a : key) : key_eqb a a = true.
Proof. now apply key_eqb_eq. Qed.

Lemma key_eqb_neq (a b : key) : key_eqb a b = false <-> a <> b.
Proof.
  rewrite <- key_eqb_eq. destruct (key_eqb a b); split; congruence.
Qed.

Lemma get_set (o : object V) (k k' : key) (v : V) :
  get (set o k v) k' = if key_eqb k' k then Some v else get o k'.
Proof.
  induction o as [|[k0 v0] o IH]; cbn.
  - reflexivity.
  - destruct (key_eqb k k0) eqn:E0; cbn.
    + apply key_eqb_eq in E0. subst k0.
      destruct (key_eqb k' k); reflexivity.
    + rewrite IH. destruct (key_eqb k' k0) eqn:E1; [|reflexivity].
      apply key_eqb_eq in E1. subst k0.
      destruct (key_eqb k' k) eqn:E2; [|reflexivity].
      apply key_eqb_eq in E2. subst k'. rewrite key_eqb_refl in E0.
      discriminate E0.
Qed.

Lemma get_in (o : object V) (k : key) :
  In k (map fst o) <-> get o k <> None.
Proof.
  induction o as [|[k0 v0] o IH]; cbn.
  - split; [intros [] | congruence].
  - destruct (key_eqb k k0) eqn:E.
    + apply key_eqb_eq in E. subst k0. split; [discriminate | auto].
    + apply key_eqb_neq in E. rewrite <- IH. split; [intros [H|H] | auto];
        [congruence | assumption].
Qed.

Lemma set_keys (o : object V) (k : key) (v : V) :
  map fst (set o k v)
  = if existsb (key_eqb k) (map fst o) then map fst o else map fst o ++ [k].
Proof.
  induction o as [|[k0 v0] o IH]; cbn; [reflexivity|].
  destruct (key_eqb k k0) eqn:E; cbn; [reflexivity|].
  rewrite IH. destruct (existsb (key_eqb k) (map fst o)); reflexivity.
Qed.

Lemma existsb_key_in (k : key) (ks : list key) :
  existsb (key_eqb k) ks = true <-> In k ks.
Proof.
  rewrite existsb_exists. split.
  - intros (x & Hx & E). apply key_eqb_eq in E. now subst.
  - intros H. exists k. split; [exact H | apply key_eqb_refl].
Qed.

Lemma set_NoDup (o : object V) (k : key) (v : V) :
  NoDup (map fst o) -> NoDup (map fst (set o k v)).
Proof.
  intros H. rewrite set_keys.
  destruct (existsb (key_eqb k) (map fst o)) eqn:E; [exact H|].
  apply NoDup_app; [exact H | repeat constructor; auto |].
  intros x Hx [<-|[]]. apply existsb_key_in in Hx. congruence.
Qed.

Lemma set_in (o : object V) (k k' : key) (v : V) :
  In k' (map fst (set o k v)) <-> k' = k \/ In k' (map fst o).
Proof.
  rewrite !get_in, get_set. destruct (key_eqb k' k) eqn:E.
  - apply key_eqb_eq in E. split; [auto | discriminate].
  - apply key_eqb_neq in E. split; [auto | intros [?|?]; [congruence|assumption]].
Qed.

(** [Object.keys] lists every key once. *)
Lemma insert_index_perm (i : Z) (k : key) (l : list (Z * key)) :
  Permutation (map snd (insert_index i k l)) (k :: map snd l).
Proof.
  induction l as [|[j k'] l IH]; cbn; [reflexivity|].
  destruct (i <? j)%Z; cbn; [reflexivity|].
  rewrite IH. apply perm_swap.
Qed.

Lemma keys_perm (o : object V) : Permutation (keys o) (map fst o).
Proof.
  unfold keys. induction o as [|[k v] o IH]; cbn; [reflexivity|].
  destruct (array_index k) as [i|].
  - rewrite insert_index_perm. cbn. now rewrite IH.
  - rewrite <- Permutation_middle. now rewrite IH.
Qed.

End ObjectFacts.

(** *** What the reconciler accumulates *)

Lemma add_item_entry (acc : totals) (item : ReceiptItem) (k : key) :
  entry_or_zero (breakdownMap (add_item acc item)) k
  = if key_eqb k (item_key item)
    then ((fst (entry_or_zero (breakdownMap acc) k) + item_base item)%float,
          (snd (entry_or_zero (breakdownMap acc) k) + item_tax item)%float)
    else entry_or_zero (breakdownMap acc) k.
Proof.
  unfold add_item, add_amounts, entry_or_zero.
  fold (item_key item).
  destruct (get (breakdownMap acc) (item_key item)) as [[b a]|] eqn:Hget;
    cbn [breakdownMap]; rewrite get_set;
    destruct (key_eqb k (item_key item)) eqn:E; try reflexivity;
    apply key_eqb_eq in E; subst k; rewrite Hget; reflexivity.
Qed.

Lemma add_item_keys (acc : totals) (item : ReceiptItem) :
  (NoDup (map fst (breakdownMap acc)) ->
   NoDup (map fst (breakdownMap (add_item acc item))))
  /\ (forall k, In k (map fst (breakdownMap (add_item acc item)))
                <-> k = item_key item \/ In k (map fst (breakdownMap acc))).
Proof.
  unfold add_item, add_amounts. fold (item_key item).
  destruct (get (breakdownMap acc) (item_key item)) as [[b a]|];
    cbn [breakdownMap]; split; try apply set_NoDup; intros k; apply set_in.
Qed.

(** After the loop: the three totals are the running sums over all items,
    the entry of a rate holds the running sums over the items at that rate,
    and there is one entry for each rate that occurs. *)
Lemma fold_add_item (its : list ReceiptItem) (acc : totals) :
  let acc' := fold_left add_item its acc in
  calculatedTotal acc' = float_sum (calculatedTotal acc) (map item_price its)
  /\ calculatedTax acc' = float_sum (calculatedTax acc) (map item_tax its)
  /\ calculatedSubtotal acc'
     = float_sum (calculatedSubtotal acc) (map item_base its)
  /\ (forall k,
        entry_or_zero (breakdownMap acc') k
        = (float_sum (fst (entry_or_zero (breakdownMap acc) k))
             (map item_base (at_rate k its)),
           float_sum (snd (entry_or_zero (breakdownMap acc) k))
             (map item_tax (at_rate k its))))
  /\ (NoDup (map fst (breakdownMap acc)) ->
      NoDup (map fst (breakdownMap acc')))
  /\ (forall k, In k (map fst (breakdownMap acc'))
                <-> In k (map fst (breakdownMap acc))
                    \/ In k (map item_key its)).
Proof.
  revert acc. induction its as [|item rest IH]; intros acc; cbn zeta.
  - cbn. repeat split; auto; try tauto.
    intros k. now destruct (entry_or_zero (breakdownMap acc) k).
  - cbn [fold_left]. specialize (IH (add_item acc item)). cbn zeta in IH.
    destruct IH as (Ht & Hx & Hs & He & Hn & Hk).
    destruct (add_item_keys acc item) as [Hn1 Hk1].
    split; [|split; [|split; [|split; [|split]]]].
    + rewrite Ht. unfold add_item, add_amounts.
      destruct (get _ _) as [[b a]|]; reflexivity.
    + rewrite Hx. unfold add_item, add_amounts.
      destruct (get _ _) as [[b a]|]; reflexivity.
    + rewrite Hs. unfold add_item, add_amounts.
      destruct (get _ _) as [[b a]|]; reflexivity.
    + intros k. rewrite He, add_item_entry. unfold at_rate. cbn [filter].
      destruct (key_eqb (item_key item) k) eqn:E.
      * apply key_eqb_eq in E. subst k. rewrite key_eqb_refl. reflexivity.
      * assert (E' : key_eqb k (item_key item) = false).
        { apply key_eqb_neq. apply key_eqb_neq in E. congruence. }
        rewrite E'. reflexivity.
    + auto.
    + intros k. rewrite Hk, Hk1. cbn [map In]. intuition congruence.
Qed.

(** *** Sums of values *)

Section SumFacts.
Local Open Scope Q_scope.
Context {A : Type}.

Lemma total_of_app (f : A -> Q) (l l' : list A) :
  total_of f (l ++ l') == total_of f l + total_of f l'.
Proof. induction l as [|a l IH]; cbn; [ring | rewrite IH; ring]. Qed.

Lemma total_of_perm (f : A -> Q) (l l' : list A) :
  Permutation l l' -> total_of f l == total_of f l'.
Proof.
  induction 1 as [|a l l' _ IH|a b l|l l' l'' _ IH _ IH']; cbn.
  - reflexivity.
  - rewrite IH. reflexivity.
  - ring.
  - rewrite IH. exact IH'.
Qed.

Lemma total_of_ext (f g : A -> Q) (l : list A) :
  (forall a, In a l -> f a == g a) -> total_of f l == total_of g l.
Proof.
  induction l as [|a l IH]; intros H; cbn; [reflexivity|].
  rewrite (H a), IH; [reflexivity | intros; apply H; now right | now left].
Qed.

Lemma total_of_plus (f g : A -> Q) (l : list A) :
  total_of (fun a => f a + g a) l == total_of f l + total_of g l.
Proof. induction l as [|a l IH]; cbn; [ring | rewrite IH; ring]. Qed.

Lemma total_of_const (c : Q) (l : list A) :
  total_of (fun _ => c) l == inject_Z (Z.of_nat (length l)) * c.
Proof.
  induction l as [|a l IH]; [cbn; ring|].
  cbn [total_of length]. rewrite IH, Nat2Z.inj_succ. unfold Z.succ.
  rewrite inject_Z_plus. change (inject_Z 1) with 1. ring.
Qed.

(** Bounds on the terms add up. *)
Lemma total_of_le (f g : A -> Q) (l : list A) :
  (forall a, In a l -> f a <= g a) -> total_of f l <= total_of g l.
Proof.
  induction l as [|a l IH]; intros H; cbn; [apply Qle_refl|].
  assert (f a <= g a) by (apply H; now left).
  assert (total_of f l <= total_of g l) by (apply IH; intros; apply H; now right).
  lra.
Qed.

Lemma total_of_distance (f g : A -> Q) (d : A -> Q) (l : list A) :
  (forall a, In a l -> Qabs (f a - g a) <= d a) ->
  Qabs (total_of f l - total_of g l) <= total_of d l.
Proof.
  induction l as [|a l IH]; intros H; cbn [total_of].
  - discriminate.
  - assert (Ha : Qabs (f a - g a) <= d a) by (apply H; now left).
    assert (Hl : Qabs (total_of f l - total_of g l) <= total_of d l)
      by (apply IH; intros; apply H; now right).
    apply Qabs_Qle_condition in Ha, Hl. apply Qabs_Qle_condition.
    destruct Ha, Hl. split; lra.
Qed.

End SumFacts.

(** Summing group by group is summing over all items, when every item's
    rate is among the keys and no key comes twice. *)
Lemma total_of_single (keys : list key) (k0 : key) (c : Q) :
  NoDup keys -> In k0 keys ->
  (total_of (fun k => if key_eqb k0 k then c else 0) keys == c)%Q.
Proof.
  induction keys as [|k keys IH]; intros Hnd Hin; [destruct Hin|].
  inversion Hnd as [|? ? Hnotin Hnd']; subst. cbn [total_of].
  destruct (key_eqb k0 k) eqn:E.
  - apply key_eqb_eq in E. subst k.
    rewrite (total_of_ext _ (fun _ => 0%Q)).
    + rewrite total_of_const. ring.
    + intros a Ha. destruct (key_eqb k0 a) eqn:E'; [|reflexivity].
      apply key_eqb_eq in E'. subst a. contradiction.
  - destruct Hin as [->|Hin]; [now rewrite key_eqb_refl in E|].
    rewrite IH by assumption. ring.
Qed.

Lemma total_of_groups (f : ReceiptItem -> Q) (keys : list key)
  (its : list ReceiptItem) :
  NoDup keys -> (forall item, In item its -> In (item_key item) keys) ->
  (total_of (fun k => total_of f (at_rate k its)) keys == total_of f its)%Q.
Proof.
  intros Hnd. induction its as [|item rest IH]; intros Hin.
  - cbn. rewrite total_of_const. ring.
  - rewrite (total_of_ext _
      (fun k => (if key_eqb (item_key item) k then f item else 0)
                + total_of f (at_rate k rest))%Q).
    + rewrite total_of_plus, total_of_single, IH; cbn [total_of];
        try reflexivity; auto.
      * intros; apply Hin; now right.
      * apply Hin; now left.
    + intros k _. unfold at_rate. cbn [filter].
      destruct (key_eqb (item_key item) k); cbn [total_of]; ring.
Qed.

(** *** Rounding errors *)

Section Errors.
Local Open Scope Q_scope.

(** Rounding a number that is not negative to two decimals moves it by at
    most half a hundredth, and then by the rounding of [Number]. *)
Lemma toFixed2_error (x : number) :
  is_finite x = true -> 0 <= F2Q x ->
  is_finite (toFixed2 x) = true
  /\ 0 <= F2Q (toFixed2 x)
  /\ Qabs (F2Q (toFixed2 x) - F2Q x)
     <= (1 # 200) + pow2 (-53) * (F2Q x + (1 # 200)) + pow2 (-1075).
Proof.
  intros Hfin Hx.
  pose proof (pow2_pos (-53)) as H53. pose proof (pow2_pos (-1075)) as H1075.
  assert (Hsame : toFixed2 x = x ->
            is_finite (toFixed2 x) = true /\ 0 <= F2Q (toFixed2 x)
            /\ Qabs (F2Q (toFixed2 x) - F2Q x)
               <= (1 # 200) + pow2 (-53) * (F2Q x + (1 # 200)) + pow2 (-1075)).
  { intros ->. split; [exact Hfin|]. split; [exact Hx|].
    setoid_replace (F2Q x - F2Q x) with 0 by ring.
    change (Qabs 0) with 0. nra. }
  assert (Hcases : toFixed2 x = x
                   \/ (F2Q x == 0 /\ toFixed2 x = 0%float)
                   \/ exists m e, Prim2SF x = S754_finite false m e
                        /\ toFixed2 x = of_decimal false (hundredths m e) 100).
  { unfold toFixed2. unfold F2Q in Hx |- *. rewrite is_finite_sf in Hfin.
    destruct (Prim2SF x) as [s|s| |s m e] eqn:Ex; auto.
    - right; left. split; reflexivity.
    - destruct (PrimFloat.leb 1e21 (abs x)); auto.
      destruct s; [exfalso | eauto 7].
      cbn [SF2Q] in Hx. pose proof (pow2_pos e).
      assert (0 < inject_Z (Zpos m)) by reflexivity.
      change (inject_Z (Zneg m)) with (- inject_Z (Zpos m)) in Hx. nra. }
  destruct Hcases as [E | [[Ez E] | (m & e & Ex & E)]]; [auto | |].
  - rewrite E. split; [reflexivity|].
    change (F2Q 0%float) with 0. split; [discriminate|].
    rewrite Ez. setoid_replace (0 - 0) with 0 by ring.
    change (Qabs 0) with 0. nra.
  - clear Hsame. rewrite E.
    pose proof (Prim2SF_valid x) as Hv. rewrite Ex in Hv. cbn in Hv.
    assert (Ev : F2Q x = inject_Z (Zpos m) * pow2 e)
      by (unfold F2Q; now rewrite Ex).
    destruct (hundredths_spec m e) as (Hn0 & Hn1 & Hn2 & _).
    rewrite <- Ev in Hn1, Hn2.
    destruct (hundredths m e) as [|p|p] eqn:Hp; [| |lia].
    + cbn [of_decimal]. split; [reflexivity|].
      change (F2Q 0%float) with 0. split; [discriminate|].
      change (inject_Z 0) with 0 in Hn2.
      rewrite Qabs_neg by lra. nra.
    + pose proof (hundredths_below_threshold m p e Hv Hp) as Hlt.
      pose proof (of_decimal_rounded false p 100 Hlt) as Hr.
      cbn [signed] in Hr. change (inject_Z 100) with 100 in Hr.
      set (y := of_decimal false (Zpos p) 100) in *.
      set (z := inject_Z (Zpos p) / 100) in *.
      assert (Hz : 100 * z == inject_Z (Zpos p)) by (unfold z; field).
      assert (Hz0 : 0 <= z).
      { assert (0 < inject_Z (Zpos p)) by reflexivity. lra. }
      split; [exact (rounded_is_finite _ _ Hr)|].
      split; [exact (rounded_nonneg _ _ Hr Hz0)|].
      pose proof (rounded_error _ _ Hr) as He.
      rewrite (Qabs_pos z) in He by exact Hz0.
      fold (F2Q y) in He. apply Qabs_Qle_condition in He.
      apply Qabs_Qle_condition. destruct He as [He1 He2]. split; nra.
Qed.

Lemma float_sum_error (bound : Q) (l : list number) (start : number) :
  0 <= bound <= pow2 1023 ->
  Forall (fun a => is_finite a = true /\ 0 <= F2Q a) l ->
  is_finite start = true -> 0 <= F2Q start ->
  F2Q start + total_of F2Q l
    + inject_Z (Z.of_nat (length l)) * step_error bound <= bound ->
  is_finite (float_sum start l) = true
  /\ 0 <= F2Q (float_sum start l)
  /\ Qabs (F2Q (float_sum start l) - (F2Q start + total_of F2Q l))
     <= inject_Z (Z.of_nat (length l)) * step_error bound.
Proof.
  intros [Hbound0 Hbound] Hl. revert start.
  pose proof (pow2_pos (-53)) as H53. pose proof (pow2_pos (-1075)) as H1075.
  induction Hl as [|a l [Ha Ha0] Hl IH]; intros start Hs Hs0 Hsum.
  - cbn [float_sum fold_left total_of length].
    split; [exact Hs|]. split; [exact Hs0|].
    setoid_replace (F2Q start - (F2Q start + 0)) with 0 by ring.
    change (inject_Z (Z.of_nat 0)) with 0. rewrite Qmult_0_l. discriminate.
  - cbn [float_sum fold_left total_of length] in *.
    fold (float_sum (start + a)%float l).
    rewrite Nat2Z.inj_succ in *. unfold Z.succ in *.
    rewrite inject_Z_plus in *. change (inject_Z 1) with 1 in *.
    set (n := inject_Z (Z.of_nat (length l))) in *.
    assert (Hn : 0 <= n).
    { unfold n. change 0 with (inject_Z 0). rewrite <- Zle_Qle. lia. }
    assert (Ht : 0 <= total_of F2Q l).
    { clear - Hl. induction Hl as [|b l [_ Hb] _ IH]; cbn; [discriminate | lra]. }
    assert (Hd : 0 < step_error bound).
    { unfold step_error. nra. }
    assert (Hnd : 0 <= n * step_error bound)
      by (apply Qmult_le_0_compat; lra).
    assert (Hsa : F2Q start + F2Q a <= bound) by lra.
    assert (Hadd : rounded (F2Q start + F2Q a) (Prim2SF (start + a)%float)).
    { apply add_rounded; auto. apply below_threshold.
      rewrite Qabs_pos by lra. lra. }
    pose proof (rounded_error _ _ Hadd) as He.
    rewrite (Qabs_pos (F2Q start + F2Q a)) in He by lra.
    fold (F2Q (start + a)%float) in He.
    assert (He' : Qabs (F2Q (start + a)%float - (F2Q start + F2Q a))
                  <= step_error bound).
    { eapply Qle_trans; [exact He|]. unfold step_error. nra. }
    assert (Hs0' : 0 <= F2Q (start + a)%float).
    { apply (rounded_nonneg _ _ Hadd). lra. }
    apply Qabs_Qle_condition in He'. destruct He' as [He1 He2].
    destruct (IH (start + a)%float (rounded_is_finite _ _ Hadd) Hs0')
      as (Hf & H0 & Herr); [lra|].
    split; [exact Hf|]. split; [exact H0|].
    apply Qabs_Qle_condition in Herr. destruct Herr as [Hr1 Hr2].
    apply Qabs_Qle_condition. split; lra.
Qed.

End Errors.

(** *** The breakdown *)

Lemma distinct_rates_in (its : list ReceiptItem) (k : key) :
  In k (distinct_rates its) <-> In k (map item_key its).
Proof.
  induction its as [|item rest IH]; [reflexivity|].
  cbn [distinct_rates map In]. fold (item_key item).
  rewrite filter_In, IH, negb_true_iff, key_eqb_neq.
  destruct (key_eqb k (item_key item)) eqn:E.
  - apply key_eqb_eq in E. intuition.
  - apply key_eqb_neq in E. intuition.
Qed.

Lemma distinct_rates_NoDup (its : list ReceiptItem) :
  NoDup (distinct_rates its).
Proof.
  induction its as [|item rest IH]; cbn [distinct_rates]; constructor.
  - rewrite filter_In, negb_true_iff, key_eqb_neq. intros [_ H]. now apply H.
  - now apply NoDup_filter.
Qed.

(** The keys of the map the loop leaves are the distinct rates. *)
Lemma accumulate_keys (its : list ReceiptItem) :
  Permutation (keys (breakdownMap (accumulate its))) (distinct_rates its).
Proof.
  destruct (fold_add_item its no_totals) as (_ & _ & _ & _ & Hnd & Hin).
  fold (accumulate its) in Hnd, Hin.
  rewrite keys_perm. apply NoDup_Permutation.
  - apply Hnd. constructor.
  - apply distinct_rates_NoDup.
  - intros k. rewrite Hin, distinct_rates_in. cbn. tauto.
Qed.

Lemma newBreakdown_groups (its : list ReceiptItem) :
  newBreakdown (breakdownMap (accumulate its))
  = map (group_entry its) (keys (breakdownMap (accumulate its))).
Proof.
  destruct (fold_add_item its no_totals) as (_ & _ & _ & He & _ & _).
  fold (accumulate its) in He.
  unfold newBreakdown. apply map_ext_in. intros k Hk.
  assert (Hget : get (breakdownMap (accumulate its)) k <> None).
  { apply get_in. eapply Permutation_in; [apply keys_perm | exact Hk]. }
  specialize (He k). unfold entry_or_zero in He. cbn [get fst snd] in He.
  destruct (get (breakdownMap (accumulate its)) k) as [entry|];
    [|contradiction].
  rewrite He. reflexivity.
Qed.

Lemma newBreakdown_partitions (its : list ReceiptItem) :
  partitions its (newBreakdown (breakdownMap (accumulate its))).
Proof.
  unfold partitions. rewrite newBreakdown_groups.
  apply Permutation_map, accumulate_keys.
Qed.

Section GroupSums.
Local Open Scope Q_scope.

Lemma total_of_map {A B : Type} (f : B -> Q) (g : A -> B) (l : list A) :
  total_of f (map g l) = total_of (fun a => f (g a)) l.
Proof. induction l as [|a l IH]; cbn; [reflexivity | now rewrite IH]. Qed.

Lemma inject_nat_nonneg (n : nat) : 0 <= inject_Z (Z.of_nat n).
Proof. change 0 with (inject_Z 0). rewrite <- Zle_Qle. lia. Qed.

Lemma inject_nat_le (n m : nat) :
  (n <= m)%nat -> inject_Z (Z.of_nat n) <= inject_Z (Z.of_nat m).
Proof. intros H. rewrite <- Zle_Qle. lia. Qed.

(** One component of the items (the base or the tax): a number from 0 to a
    million for each item. *)
Variable c : ReceiptItem -> number.

(** The running sum of up to a thousand such numbers is within [1/8000] of
    their sum, and stays below [2^30]. *)
Lemma component_sum (l : list ReceiptItem) :
  (length l <= 1000)%nat -> Forall (component_ok c) l ->
  let s := float_sum 0%float (map c l) in
  is_finite s = true /\ 0 <= F2Q s <= pow2 30
  /\ Qabs (F2Q s - total_of (fun item => F2Q (c item)) l)
     <= inject_Z (Z.of_nat (length l)) * (1 # 8000000).
Proof.
  intros Hlen Hl s.
  assert (Hstep : step_error (pow2 30) <= 1 # 8000000)
    by (vm_compute; discriminate).
  assert (Hstep0 : 0 < step_error (pow2 30)) by (vm_compute; reflexivity).
  assert (H30 : pow2 30 == 1073741824) by (vm_compute; reflexivity).
  pose proof (inject_nat_nonneg (length l)) as Hn0.
  assert (Hn : inject_Z (Z.of_nat (length l)) <= 1000).
  { change 1000 with (inject_Z (Z.of_nat 1000)). now apply inject_nat_le. }
  assert (Ht : 0 <= total_of (fun item => F2Q (c item)) l
               <= inject_Z (Z.of_nat (length l)) * 1000000).
  { rewrite <- total_of_const. split.
    - rewrite <- (Qmult_0_r (inject_Z (Z.of_nat (length l)))).
      rewrite <- (total_of_const 0 l). apply total_of_le.
      intros a Ha. rewrite Forall_forall in Hl. apply (Hl a Ha).
    - apply total_of_le.
      intros a Ha. rewrite Forall_forall in Hl. apply (Hl a Ha). }
  set (n := inject_Z (Z.of_nat (length l))) in *.
  assert (Hprod : n * step_error (pow2 30) <= n * (1 # 8000000))
    by (apply Qmult_le_l_aux || nra).
  destruct (float_sum_error (pow2 30) (map c l) 0%float)
    as (Hf & H0 & Herr).
  - split; [lra | apply pow2_le; lia].
  - apply Forall_map. eapply Forall_impl; [|exact Hl].
    intros a (Ha & Ha0 & _). split; assumption.
  - reflexivity.
  - discriminate.
  - rewrite total_of_map, length_map. fold n.
    change (F2Q 0%float) with 0. lra.
  - rewrite total_of_map, length_map in Herr. fold n in Herr.
    change (F2Q 0%float) with 0 in Herr. fold s in Hf, H0, Herr.
    apply Qabs_Qle_condition in Herr. destruct Herr as [He1 He2].
    split; [exact Hf|]. split; [split; [exact H0 | lra]|].
    apply Qabs_Qle_condition. split; lra.
Qed.

(** Rounded to two decimals, such a sum is within [1/200 + 1/8000000]. *)
Lemma component_rounded (s : number) :
  is_finite s = true -> 0 <= F2Q s <= pow2 30 ->
  Qabs (F2Q (toFixed2 s) - F2Q s) <= (1 # 200) + (1 # 8000000).
Proof.
  intros Hf [H0 H1].
  destruct (toFixed2_error s Hf H0) as (_ & _ & He).
  eapply Qle_trans; [exact He|].
  assert (Hc : pow2 (-53) * (pow2 30 + (1 # 200)) + pow2 (-1075)
               <= 1 # 8000000) by (vm_compute; discriminate).
  pose proof (pow2_pos (-53)). nra.
Qed.

(** With one rate, the group is all the items: the same sum. *)
Lemma single_group (its : list ReceiptItem) (k0 : key) :
  (forall item, In item its -> In (item_key item) [k0]) ->
  total_of (fun k => F2Q (toFixed2 (float_sum 0%float
                                      (map c (at_rate k its))))) [k0]
  == F2Q (toFixed2 (float_sum 0%float (map c its))).
Proof.
  intros Hin.
  assert (E : at_rate k0 its = its).
  { unfold at_rate. apply forallb_filter_id. apply forallb_forall.
    intros item Hitem. destruct (Hin item Hitem) as [<-|[]].
    apply key_eqb_refl. }
  cbn [total_of]. rewrite E. ring.
Qed.

(** The rounded sums of the groups against the rounded sum of all items. *)
Lemma group_sums_close (its : list ReceiptItem) (ks : list key) :
  (length its <= 1000)%nat -> Forall (component_ok c) its ->
  NoDup ks -> (forall item, In item its -> In (item_key item) ks) ->
  (length ks <= length its)%nat ->
  within (inject_Z (Z.of_nat (length ks)) * (1 # 100))
    (total_of (fun k => F2Q (toFixed2 (float_sum 0%float
                                         (map c (at_rate k its))))) ks)
    (F2Q (toFixed2 (float_sum 0%float (map c its)))).
Proof.
  intros Hlen Hok Hnd Hin Hks. unfold within.
  destruct ks as [|k0 [|k1 ks']].
  - (* no item *)
    destruct its as [|item rest]; [|destruct (Hin item (or_introl eq_refl))].
    cbn. discriminate.
  - rewrite (single_group its k0 Hin).
    match goal with |- Qabs ?q <= _ => setoid_replace q with 0 by ring end.
    discriminate.
  - set (ks := k0 :: k1 :: ks') in *.
    set (f := fun item => F2Q (c item)).
    set (d := fun _ : ReceiptItem => 1 # 8000000).
    assert (Hgroup : forall k,
              Qabs (F2Q (toFixed2 (float_sum 0%float (map c (at_rate k its))))
                    - total_of f (at_rate k its))
              <= ((1 # 200) + (1 # 8000000)) + total_of d (at_rate k its)).
    { intros k.
      assert (Hl : (length (at_rate k its) <= 1000)%nat).
      { unfold at_rate. pose proof (filter_length_le
          (fun item => key_eqb (item_key item) k) its). lia. }
      assert (Hf : Forall (component_ok c) (at_rate k its)).
      { unfold at_rate. apply Forall_forall. intros a Ha.
        apply filter_In in Ha. rewrite Forall_forall in Hok.
        apply Hok, Ha. }
      destruct (component_sum _ Hl Hf) as (Hfin & Hb & Hs). cbv zeta in *.
      pose proof (component_rounded _ Hfin Hb) as Hr.
      unfold d. rewrite total_of_const. fold f in Hs.
      apply Qabs_Qle_condition in Hs, Hr. destruct Hs, Hr.
      apply Qabs_Qle_condition. split; lra. }
    pose proof (total_of_distance _ _ _ ks (fun k _ => Hgroup k)) as Hsum.
    rewrite total_of_plus, (total_of_groups f ks its Hnd Hin),
      (total_of_groups d ks its Hnd Hin) in Hsum.
    unfold d in Hsum. rewrite !total_of_const in Hsum.
    destruct (component_sum _ Hlen Hok) as (Hfin & Hb & Hs). cbv zeta in *.
    pose proof (component_rounded _ Hfin Hb) as Hr. fold f in Hs.
    set (k := inject_Z (Z.of_nat (length ks))) in *.
    set (n := inject_Z (Z.of_nat (length its))) in *.
    assert (Hk : 2 <= k).
    { unfold k, ks. cbn [length]. change 2 with (inject_Z 2).
      rewrite <- Zle_Qle. lia. }
    assert (Hn : n <= 1000).
    { unfold n. change 1000 with (inject_Z (Z.of_nat 1000)).
      now apply inject_nat_le. }
    assert (Hkn : k <= n) by (now apply inject_nat_le).
    apply Qabs_Qle_condition in Hs, Hr, Hsum. destruct Hs, Hr, Hsum.
    apply Qabs_Qle_condition. split; lra.
Qed.

End GroupSums.

Lemma distinct_rates_length (its : list ReceiptItem) :
  (length (distinct_rates its) <= length its)%nat.
Proof.
  induction its as [|item rest IH]; cbn [distinct_rates length]; [lia|].
  pose proof (filter_length_le
    (fun k' => negb (key_eqb k' (key_of (item_rate item))))
    (distinct_rates rest)). lia.
Qed.

Lemma ordinary_components (its : list ReceiptItem) :
  ordinary its ->
  Forall (component_ok item_base) its /\ Forall (component_ok item_tax) its.
Proof.
  intros [_ Hits]. split; (eapply Forall_impl; [|exact Hits]);
    intros item (Hp & [Hp0 Hp1] & Hr & Hr0);
    destruct (decomposition_bounds _ _ Hp Hr Hp0 Hr0)
      as (Htf & Hbf & Ht & Hb & _);
    unfold component_ok, item_base, item_tax; split; auto; lra.
Qed.

(** A breakdown that came with the record is kept, whatever it sums to:
    here one entry of base 1 and amount 1 against a subtotal of 83.33 and a
    tax of 16.67. *)
Lemma kept_breakdown_does_not_match :
  let its := [Samples.item 100%float (Some 20%float)] in
  let data :=
    Samples.receipt its 0%float None None
      (Some [ {| rate := 20%float; amount := 1%float; base := 1%float |} ]) in
  ~ Breakdown.sums_match its (recalculateFinancials data).
Proof.
  intros its data (_ & _ & _ & Hbase & _).
  unfold within in Hbase. vm_compute in Hbase.
  apply Hbase. reflexivity.
Qed.

(** Nor does a subtotal that came with the record and is positive: it is
    kept, here 5 against bases that add up to 83.33. *)
Lemma kept_subtotal_does_not_match :
  let its := [Samples.item 100%float (Some 20%float)] in
  let data := Samples.receipt its 0%float None (Some 5%float) None in
  ~ sums_match its (recalculateFinancials data).
Proof.
  intros its data (_ & _ & _ & Hbase & _).
  unfold within in Hbase. vm_compute in Hbase.
  apply Hbase. reflexivity.
Qed.

(** Without the bounds on the items the numbers returned need not be
    finite, and then the sums do not match: an infinite price leaves [NaN]
    for the subtotal and for the base of its entry. *)
Lemma unbounded_price_does_not_match :
  let its := [Samples.item infinity (Some 20%float)] in
  let data := Samples.receipt its 0%float None None None in
  ~ sums_match its (recalculateFinancials data).
Proof.
  intros its data (_ & Hst & _). vm_compute in Hst. discriminate.
Qed.

(** Rounded to two decimals, the sum of one component of up to a thousand
    items is a finite number. *)
Lemma component_finite (c : ReceiptItem -> number) (l : list ReceiptItem) :
  (length l <= 1000)%nat -> Forall (component_ok c) l ->
  is_finite (toFixed2 (float_sum 0%float (map c l))) = true.
Proof.
  intros Hlen Hl.
  destruct (component_sum c l Hlen Hl) as (Hfin & [H0 _] & _).
  cbv zeta in *. exact (proj1 (toFixed2_error _ Hfin H0)).
Qed.

(** So are the numbers of the entry of each rate. *)
Lemma group_entry_finite (its : list ReceiptItem) (k : key) :
  ordinary its -> entry_finite (group_entry its k).
Proof.
  intros Hord. destruct (ordinary_components its Hord) as [Hcb Hct].
  destruct Hord as [Hn _].
  assert (Hl : (length (at_rate k its) <= 1000)%nat).
  { unfold at_rate. pose proof (filter_length_le
      (fun item => key_eqb (item_key item) k) its). lia. }
  assert (Hf : forall c, Forall (component_ok c) its ->
                         Forall (component_ok c) (at_rate k its)).
  { intros c Hc. unfold at_rate. apply Forall_forall. intros a Ha.
    apply filter_In in Ha. rewrite Forall_forall in Hc. apply Hc, Ha. }
  split; cbn [group_entry base amount]; apply component_finite; auto.
Qed.

(** A record with at least one item that brings no breakdown gets one. *)
Lemma fresh_breakdown (data : ReceiptData)
  (its : list ReceiptItem) :
  items data = Some its -> its <> [] ->
  taxBreakdown data = None \/ taxBreakdown data = Some [] ->
  let out := recalculateFinancials data in
  (exists entries,
      taxBreakdown out = Some entries /\ partitions its entries)
  /\ (present_and_positive (subtotal data) = false ->
      present_and_positive (tax data) = false ->
      (length (distinct_rates its) = 1%nat -> sums_equal out)
      /\ (ordinary its -> sums_match its out)).
Proof.
  intros Hits Hne Hbd out.
  assert (Hout : taxBreakdown out
                 = Some (newBreakdown (breakdownMap (accumulate its)))
                 /\ subtotal out
                    = Some (toFixed2
                        (if present_and_positive (subtotal data)
                         then Number_ (subtotal data)
                         else calculatedSubtotal (accumulate its)))
                 /\ tax out
                    = Some (toFixed2
                        (if present_and_positive (tax data)
                         then Number_ (tax data)
                         else calculatedTax (accumulate its)))).
  { unfold out, recalculateFinancials. rewrite Hits.
    destruct its as [|item rest]; [contradiction|].
    cbn [taxBreakdown subtotal tax].
    destruct Hbd as [-> | ->]; auto. }
  destruct Hout as (Hb & Hs & Ht).
  split.
  - eexists. split; [exact Hb|]. apply newBreakdown_partitions.
  - intros Hsub Htax. rewrite Hsub in Hs. rewrite Htax in Ht.
    destruct (fold_add_item its no_totals) as (_ & Ect & Ecs & _).
    fold (accumulate its) in Ect, Ecs. cbn [no_totals calculatedTax
      calculatedSubtotal] in Ect, Ecs. rewrite Ecs in Hs. rewrite Ect in Ht.
    rewrite newBreakdown_groups in Hb.
    pose proof (accumulate_keys its) as Hperm.
    remember (keys (breakdownMap (accumulate its))) as ks eqn:Eks.
    clear Eks.
    assert (Hlen : length ks = length (distinct_rates its))
      by (apply Permutation_length, Hperm).
    assert (Hnd : NoDup ks).
    { apply (Permutation_NoDup (Permutation_sym Hperm)).
      apply distinct_rates_NoDup. }
    assert (Hin : forall item, In item its -> In (item_key item) ks).
    { intros item Hitem. apply (Permutation_in _ (Permutation_sym Hperm)).
      apply distinct_rates_in. now apply in_map. }
    split.
    + (* one rate: the group is all the items *)
      intros Hone. rewrite <- Hlen in Hone.
      destruct ks as [|k0 [|? ?]]; try discriminate Hone.
      assert (E : at_rate k0 its = its).
      { unfold at_rate. apply forallb_filter_id. apply forallb_forall.
        intros item Hitem. destruct (Hin item Hitem) as [<-|[]].
        apply key_eqb_refl. }
      exists (group_entry its k0). rewrite Hb, Hs, Ht.
      cbn [map group_entry base amount]. rewrite E. auto.
    + intros Hord. unfold sums_match. rewrite Hb, Hs, Ht.
      cbv beta iota zeta.
      destruct (ordinary_components its Hord) as [Hcb Hct].
      pose proof (distinct_rates_length its) as Hle. rewrite <- Hlen in Hle.
      pose proof Hord as [Hn _].
      split; [|split; [|split]].
      * apply Forall_forall. intros e He. apply in_map_iff in He.
        destruct He as (k & <- & _). now apply group_entry_finite.
      * now apply component_finite.
      * now apply component_finite.
      * unfold sum_base, sum_amount. rewrite !total_of_map.
        cbn [group_entry base amount]. rewrite <- Hlen.
        split; apply group_sums_close; assumption.
Qed.

(** C1, as the code has it.  For a record with at least one item, a
    breakdown that the record brings (one that is not empty) is returned as
    it is.  Otherwise the record gets one: an entry for each rate that
    occurs among the items, with the base and the tax of the items at that
    rate, summed and rounded to two decimals.  When the record brings no
    positive subtotal or tax either, the breakdown agrees with the subtotal
    and the tax that are returned.  With a single rate it does so exactly:
    its one entry holds the very numbers returned as subtotal and tax,
    whatever they are.  With up to a thousand items, of finite prices from 0
    to a million and finite rates that are not negative, all the numbers
    returned are finite, and the bases add up to the subtotal and the
    amounts to the tax within 0.01 for each distinct rate. *)
Theorem breakdown_partition (data : ReceiptData) (its : list ReceiptItem) :
  items data = Some its -> its <> [] ->
  let out := recalculateFinancials data in
  match taxBreakdown data with
  | Some (entry :: entries) => taxBreakdown out = Some (entry :: entries)
  | _ =>
      (exists entries,
          taxBreakdown out = Some entries /\ partitions its entries)
      /\ (present_and_positive (subtotal data) = false ->
          present_and_positive (tax data) = false ->
          (length (distinct_rates its) = 1%nat -> sums_equal out)
          /\ (ordinary its -> sums_match its out))
  end.
Proof.
  intros Hits Hne out.
  destruct (taxBreakdown data) as [[|entry entries]|] eqn:Hbd.
  - apply (fresh_breakdown data its Hits Hne). now right.
  - unfold out, recalculateFinancials. rewrite Hits.
    destruct its as [|item rest]; [contradiction|].
    cbn [taxBreakdown]. rewrite Hbd. reflexivity.
  - apply (fresh_breakdown data its Hits Hne). now left.
Qed.

Lemma breakdown_partition_witness :
  let its := [Samples.item 60%float (Some 20%float);
              Samples.item 40%float (Some 10%float);
              Samples.item 12%float (Some 20%float)] in
  sums_match its
    (recalculateFinancials (Samples.receipt its 0%float None None None)).
Proof.
  intros its.
  pose proof (breakdown_partition
                (Samples.receipt its 0%float None None None) its eq_refl)
    as H.
  cbn [taxBreakdown Samples.receipt] in H.
  apply H; [discriminate | reflexivity | reflexivity |].
  split; [cbn; lia|].
  repeat constructor; vm_compute; congruence.
Defined.

(** ** Amounts of money *)

(** *** Signs *)

Section Signs.
Local Open Scope Q_scope.

Lemma non_negative_spec (x : number) :
  non_negative x = sf_nonneg (Prim2SF x).
Proof.
  unfold non_negative. rewrite leb_spec.
  change (Prim2SF 0%float) with (S754_zero false).
  destruct (Prim2SF x) as [s|[|]| |[|] m e]; reflexivity.
Qed.

Lemma represents_nonneg (v : Q) (r : spec_float) :
  represents false v r -> sf_nonneg r = true.
Proof. intros [[_ ->] | [[_ ->] | (m & e & -> & _)]]; reflexivity. Qed.

Lemma binary_round_nonneg (m : positive) (e : Z) :
  sf_nonneg (binary_round prec emax false m e) = true.
Proof.
  unfold binary_round.
  pose proof (shl_align_spec m e (fexp prec emax (Zpos (digits2_pos m) + e)))
    as Hal.
  destruct (shl_align m e _) as [mz ez]. destruct Hal as (Hez & Hmz & Hdz).
  destruct (round_aux_spec (inject_Z (Zpos mz) * pow2 ez) false (Zpos mz) ez
              loc_Exact) as (m2 & e1 & _ & _ & _ & _ & _ & Hrep).
  - lia.
  - reflexivity.
  - cbn [Zdigits2]. rewrite Hdz. lia.
  - exact (represents_nonneg _ _ Hrep).
Qed.

(** A sum of numbers that are not negative is not negative (it may be
    [+Infinity]). *)
Lemma SFadd_nonneg (x y : spec_float) :
  sf_nonneg x = true -> sf_nonneg y = true ->
  sf_nonneg (SFadd prec emax x y) = true.
Proof.
  intros Hx Hy.
  destruct x as [sx|[|]| |[|] mx ex]; try discriminate Hx;
    destruct y as [sy|[|]| |[|] my ey]; try discriminate Hy;
    try reflexivity.
  - destruct sx, sy; reflexivity.
  - cbn [SFadd cond_Zopp]. set (ez := Z.min ex ey).
    change (Zpos (fst (shl_align mx ex ez)) + Zpos (fst (shl_align my ey ez)))%Z
      with (Zpos (fst (shl_align mx ex ez) + fst (shl_align my ey ez))).
    cbn [binary_normalize]. apply binary_round_nonneg.
Qed.

Lemma add_non_negative (x y : number) :
  non_negative x = true -> non_negative y = true ->
  non_negative (x + y)%float = true.
Proof.
  rewrite !non_negative_spec, add_spec. apply SFadd_nonneg.
Qed.

Lemma float_sum_non_negative (l : list number) (start : number) :
  non_negative start = true -> Forall (fun a => non_negative a = true) l ->
  non_negative (float_sum start l) = true.
Proof.
  intros Hs Hl. revert start Hs.
  induction Hl as [|a l Ha _ IH]; intros start Hs; [exact Hs|].
  cbn [float_sum fold_left]. apply IH. now apply add_non_negative.
Qed.

Lemma finite_non_negative (x : number) :
  is_finite x = true -> 0 <= F2Q x -> non_negative x = true.
Proof.
  rewrite is_finite_sf, non_negative_spec. unfold F2Q.
  destruct (Prim2SF x) as [s|s| |[|] m e]; try discriminate; try reflexivity.
  intros _ H. exfalso. cbn [SF2Q] in H. pose proof (pow2_pos e).
  change (inject_Z (Zneg m)) with (- inject_Z (Zpos m)) in H.
  assert (0 < inject_Z (Zpos m)) by reflexivity. nra.
Qed.

Lemma gt_zero_non_negative (x : number) :
  gt x 0%float = true -> non_negative x = true.
Proof.
  intros H. rewrite non_negative_spec.
  destruct (gt_zero_positive x H) as [-> | (m & e & ->)]; reflexivity.
Qed.

Lemma toFixed2_non_negative (x : number) :
  non_negative x = true -> non_negative (toFixed2 x) = true.
Proof.
  intros Hx. pose proof Hx as Hx'. rewrite non_negative_spec in Hx'.
  unfold toFixed2.
  destruct (Prim2SF x) as [s|s| |s m e] eqn:Ex; try exact Hx; [reflexivity|].
  destruct (PrimFloat.leb 1e21 (abs x)); [exact Hx|].
  destruct s; [discriminate Hx'|].
  pose proof (Prim2SF_valid x) as Hv. rewrite Ex in Hv. cbn in Hv.
  destruct (hundredths_spec m e) as (Hn0 & _).
  destruct (hundredths m e) as [|p|p] eqn:Hp; [reflexivity | | lia].
  pose proof (hundredths_below_threshold m p e Hv Hp) as Hlt.
  pose proof (of_decimal_rounded false p 100 Hlt) as Hr.
  cbn [signed] in Hr.
  apply finite_non_negative; [exact (rounded_is_finite _ _ Hr)|].
  apply (rounded_nonneg _ _ Hr).
  apply Qle_shift_div_l; [reflexivity|]. rewrite Qmult_0_l. discriminate.
Qed.

End Signs.

(** *** Two places *)

Section TwoPlaces.
Local Open Scope Q_scope.

(** From [1e21] on a number is a multiple of [2^17], an integer. *)
Lemma large_exponent (x : number) (s : bool) (m : positive) (e : Z) :
  Prim2SF x = S754_finite s m e ->
  PrimFloat.leb 1e21 (abs x) = true -> (17 <= e)%Z.
Proof.
  intros Ex. rewrite leb_spec, abs_spec, Ex.
  replace (Prim2SF 1e21%float)
    with (S754_finite false 7629394531250000 17) by (vm_compute; reflexivity).
  cbn [SFabs]. unfold SFleb, SFcompare.
  destruct (17 ?= e)%Z eqn:E; try discriminate.
  - apply Z.compare_eq in E. lia.
  - rewrite Z.compare_lt_iff in E. lia.
Qed.

Lemma two_places_zero (v : number) (s : bool) :
  Prim2SF v = S754_zero s -> two_places v.
Proof.
  intros E. exists 0%Z. rewrite E. apply rounded_zero.
  change (inject_Z 0) with 0. unfold Qdiv. apply Qmult_0_l.
Qed.

Lemma inject_cond_Zopp (s : bool) (z : Z) :
  inject_Z (cond_Zopp s z) == signed s (inject_Z z).
Proof.
  destruct s; cbn [cond_Zopp signed]; [|reflexivity].
  rewrite inject_Z_opp. reflexivity.
Qed.

Lemma signed_div_r (s : bool) (a b : Q) : signed s a / b == signed s (a / b).
Proof. destruct s; cbn [signed]; unfold Qdiv; ring. Qed.

(** What [Number(x.toFixed(2))] returns is, when finite, a number nearest
    to a decimal with two places. *)
Lemma toFixed2_two_places (x : number) :
  is_finite (toFixed2 x) = true -> two_places (toFixed2 x).
Proof.
  unfold toFixed2.
  destruct (Prim2SF x) as [s|s| |s m e] eqn:Ex.
  - intros _. now apply (two_places_zero _ false).
  - rewrite is_finite_sf, Ex. discriminate.
  - rewrite is_finite_sf, Ex. discriminate.
  - pose proof (Prim2SF_valid x) as Hv. rewrite Ex in Hv.
    destruct (PrimFloat.leb 1e21 (abs x)) eqn:Hbig.
    + intros _. pose proof (large_exponent x s m e Ex Hbig) as He.
      exists (cond_Zopp s (100 * Zpos m * 2 ^ e)). rewrite Ex.
      apply (rounded_ext (SF2Q (S754_finite s m e)));
        [|apply rounded_self; [exact Hv | reflexivity]].
      rewrite SF2Q_finite, inject_cond_Zopp, signed_div_r.
      apply signed_wd.
      rewrite !inject_Z_mult, pow2_Z by lia.
      change (inject_Z 100) with 100. field.
    + intros _. cbn in Hv.
      destruct (hundredths_spec m e) as (Hn0 & _).
      destruct (hundredths m e) as [|p|p] eqn:Hp; [| |lia].
      * cbn [of_decimal]. destruct s;
          [apply (two_places_zero _ true) | apply (two_places_zero _ false)];
          reflexivity.
      * pose proof (hundredths_below_threshold m p e Hv Hp) as Hlt.
        pose proof (of_decimal_rounded s p 100 Hlt) as Hr.
        exists (cond_Zopp s (Zpos p)).
        eapply rounded_ext; [|exact Hr].
        rewrite inject_cond_Zopp, signed_div_r. reflexivity.
Qed.

End TwoPlaces.

(** *** The amounts the reconciler returns *)

Lemma sound_components (its : list ReceiptItem) :
  Forall sound_item its ->
  Forall (fun a => non_negative a = true) (map item_price its)
  /\ Forall (fun a => non_negative a = true) (map item_tax its)
  /\ Forall (fun a => non_negative a = true) (map item_base its).
Proof.
  intros Hits. repeat split; apply Forall_map;
    (eapply Forall_impl; [|exact Hits]); intros item (Hp & Hp0 & Hr & Hr0);
    destruct (decomposition_bounds _ _ Hp Hr Hp0 Hr0)
      as (Htf & Hbf & [Ht _] & [Hb _] & _);
    now apply finite_non_negative.
Qed.

Lemma resolve_non_negative (own : option number) (calc : number) :
  non_negative calc = true ->
  non_negative (if present_and_positive own then Number_ own else calc) = true.
Proof.
  intros Hc. destruct own as [x|]; [|exact Hc].
  rewrite present_and_positive_gt. cbn [Number_].
  destruct (gt x 0%float) eqn:Hx; [now apply gt_zero_non_negative | exact Hc].
Qed.

(** Every amount that is written went through [Number(x.toFixed(2))], and
    what went in was not negative when the items are sound. *)
Lemma written_rounded (data : ReceiptData) (its : list ReceiptItem) :
  items data = Some its -> its <> [] ->
  forall v, In v (written data (recalculateFinancials data)) ->
  exists x, v = toFixed2 x
            /\ (Forall sound_item its -> non_negative x = true).
Proof.
  intros Hits Hne v.
  destruct (fold_add_item its no_totals) as (Et & Ex & Es & _).
  fold (accumulate its) in Et, Ex, Es.
  cbn [no_totals calculatedTotal calculatedTax calculatedSubtotal] in Et, Ex, Es.
  assert (Hsum : forall l,
            Forall (fun a => non_negative a = true) l ->
            non_negative (float_sum 0%float l) = true).
  { intros l Hl. now apply float_sum_non_negative. }
  unfold written, recalculateFinancials. rewrite Hits.
  destruct its as [|item rest]; [contradiction|].
  set (its := item :: rest) in *.
  cbn [total tax subtotal taxBreakdown Number_].
  intros [<- | [<- | [<- | Hin]]].
  - eexists. split; [reflexivity|]. intros Hs.
    destruct (sound_components its Hs) as (Hp & _ & _).
    destruct (gt (total data) 0%float) eqn:Hg;
      [now apply gt_zero_non_negative|].
    rewrite Et. now apply Hsum.
  - eexists. split; [reflexivity|]. intros Hs.
    destruct (sound_components its Hs) as (_ & Hx & _).
    apply resolve_non_negative. rewrite Ex. now apply Hsum.
  - eexists. split; [reflexivity|]. intros Hs.
    destruct (sound_components its Hs) as (_ & _ & Hb).
    apply resolve_non_negative. rewrite Es. now apply Hsum.
  - assert (Hin' : In v (breakdown_amounts
                           (newBreakdown (breakdownMap (accumulate its))))).
    { destruct (taxBreakdown data) as [[|? ?]|]; [exact Hin | destruct Hin | exact Hin]. }
    clear Hin. rewrite newBreakdown_groups in Hin'.
    unfold breakdown_amounts in Hin'. apply in_flat_map in Hin'.
    destruct Hin' as (entry & Hentry & Hv).
    apply in_map_iff in Hentry. destruct Hentry as (k & <- & _).
    assert (Hgroup : Forall sound_item its -> Forall sound_item (at_rate k its)).
    { intros Hs. apply Forall_forall. intros a Ha. unfold at_rate in Ha.
      apply filter_In in Ha. rewrite Forall_forall in Hs. apply Hs, Ha. }
    cbn [group_entry base amount In] in Hv.
    destruct Hv as [<- | [<- | []]]; (eexists; split; [reflexivity|]);
      intros Hs; destruct (sound_components _ (Hgroup Hs)) as (_ & Hx & Hb);
      now apply Hsum.
Qed.

(** *** The amounts of the fallback parser *)

Section FallbackAmounts.
Local Open Scope Q_scope.

(** The exponent of a product is not above the one its digits call for. *)
Lemma product_exponent (mx my : positive) (ex ey : Z) :
  bounded prec emax mx ex = true -> bounded prec emax my ey = true ->
  (ex + ey <= fexp prec emax (Zdigits2 (Zpos (mx * my)) + (ex + ey)))%Z.
Proof.
  intros Hx Hy.
  destruct (bounded_canonical mx ex Hx) as (Hex & Hdx & Hnx).
  destruct (bounded_canonical my ey Hy) as (Hey & Hdy & Hny).
  destruct (Zdigits2_bounds (Zpos mx) ltac:(lia)) as [Hlx _].
  destruct (Zdigits2_bounds (Zpos my) ltac:(lia)) as [Hly _].
  cbn [Zdigits2] in Hlx, Hly |- *.
  assert (Hd : (Zpos (digits2_pos mx) + Zpos (digits2_pos my) - 1
                <= Zpos (digits2_pos (mx * my)))%Z).
  { apply (Zdigits2_ge (Zpos (mx * my))); [|lia].
    replace (Zpos (digits2_pos mx) + Zpos (digits2_pos my) - 1 - 1)%Z
      with ((Zpos (digits2_pos mx) - 1) + (Zpos (digits2_pos my) - 1))%Z
      by lia.
    rewrite Z.pow_add_r, Pos2Z.inj_mul by lia.
    apply Z.mul_le_mono_nonneg; try lia; apply Z.pow_nonneg; lia. }
  rewrite fexp_eq. lia.
Qed.

(** A product of numbers that are not negative, the second one finite and
    not zero, is not negative (it may be [+Infinity]). *)
Lemma SFmul_nonneg (x : spec_float) (my : positive) (ey : Z) :
  valid_binary x = true -> bounded prec emax my ey = true ->
  sf_nonneg x = true ->
  sf_nonneg (SFmul prec emax x (S754_finite false my ey)) = true.
Proof.
  intros Hx Hy Hs.
  destruct x as [sx|[|]| |[|] mx ex]; try discriminate Hs; try reflexivity.
  cbn [SFmul xorb]. cbn in Hx.
  destruct (round_aux_spec (inject_Z (Zpos (mx * my)) * pow2 (ex + ey)) false
              (Zpos (mx * my)) (ex + ey) loc_Exact)
    as (m2 & e1 & _ & _ & _ & _ & _ & Hrep).
  - lia.
  - reflexivity.
  - now apply product_exponent.
  - exact (represents_nonneg _ _ Hrep).
Qed.

Lemma mul_non_negative (x y : number) (my : positive) (ey : Z) :
  Prim2SF y = S754_finite false my ey ->
  non_negative x = true -> non_negative (x * y)%float = true.
Proof.
  intros Ey. rewrite !non_negative_spec, mul_spec, Ey.
  apply SFmul_nonneg; [apply Prim2SF_valid|].
  pose proof (Prim2SF_valid y) as Hv. now rewrite Ey in Hv.
Qed.

(** The tax and the subtotal of the fallback, 18 percent of a total and the
    rest, are not negative; the subtotal of an infinite total is [NaN]. *)
Lemma fallback_shares (t : number) :
  non_negative t = true ->
  non_negative (t * 0.18)%float = true
  /\ (is_finite t = true -> non_negative (t - t * 0.18)%float = true).
Proof.
  intros Ht.
  assert (Htax : non_negative (t * 0.18)%float = true).
  { eapply mul_non_negative; [|exact Ht]. vm_compute. reflexivity. }
  split; [exact Htax|]. intros Hfin.
  assert (Ht0 : 0 <= F2Q t).
  { rewrite non_negative_spec in Ht. unfold F2Q.
    destruct (Prim2SF t) as [s|s| |[|] m e]; try discriminate;
      cbn [SF2Q]; try lra.
    pose proof (pow2_pos e). assert (0 < inject_Z (Zpos m)) by reflexivity.
    nra. }
  pose proof (valid_below_threshold _ (Prim2SF_valid t)) as Hmax.
  fold (F2Q t) in Hmax. rewrite Qabs_pos in Hmax by exact Ht0.
  assert (Hc : 0 <= F2Q 0.18%float <= 1) by (split; vm_compute; discriminate).
  remember (F2Q 0.18%float) as c eqn:Ec.
  assert (Hm : rounded (F2Q t * c) (Prim2SF (t * 0.18)%float)).
  { rewrite Ec. apply mul_rounded; auto. rewrite <- Ec, Qabs_pos by nra. nra. }
  assert (Hm0 : 0 <= F2Q (t * 0.18)%float)
    by (apply (rounded_nonneg _ _ Hm); nra).
  assert (Hm1 : F2Q (t * 0.18)%float <= F2Q t)
    by (apply (rounded_le_number _ _ _ Hm Hfin); nra).
  assert (Hs : rounded (F2Q t - F2Q (t * 0.18)%float)
                 (Prim2SF (t - t * 0.18)%float)).
  { apply sub_rounded; auto; [exact (rounded_is_finite _ _ Hm)|].
    rewrite Qabs_pos by lra. lra. }
  apply finite_non_negative; [exact (rounded_is_finite _ _ Hs)|].
  apply (rounded_nonneg _ _ Hs). lra.
Qed.

(** The total the fallback parser settles on is not negative. *)
Lemma parseViaRegex_total (text : jsstring) :
  non_negative (total (parseViaRegex text)) = true.
Proof.
  unfold parseViaRegex. cbn [total].
  match goal with
  | |- context [if gt ?t 0%float then _ else _] =>
      destruct (gt t 0%float) eqn:Hpos; [now apply gt_zero_non_negative|]
  end.
  assert (Hitems : Forall (fun item => non_negative (totalPrice item) = true)
                     (matched_items text)).
  { unfold matched_items.
    induction (slice_from_to_last 1 3 (nonblank_lines text)) as [|line rest IH];
      cbn [scan_lines]; [constructor|].
    destruct (line_item line) as [item|] eqn:Hline; [|exact IH].
    constructor; [|exact IH].
    apply line_item_rejects in Hline. apply gt_zero_non_negative, Hline. }
  assert (Hfold : forall start, non_negative start = true ->
            non_negative (fold_left (fun acc item => (acc + totalPrice item)%float)
                            (matched_items text) start) = true).
  { induction Hitems as [|item rest Hitem _ IH]; intros start Hs; [exact Hs|].
    cbn [fold_left]. apply IH. now apply add_non_negative. }
  now apply Hfold.
Qed.

End FallbackAmounts.

(** C4, as the code has it.  In the record [recalculateFinancials] returns
    for a record with at least one item, the total, the tax, the subtotal
    and, unless the record brought a breakdown of its own, the base and the
    amount of each entry are results of [Number(x.toFixed(2))]: each one
    that is finite is a number nearest to a decimal with two places, and
    none is negative when the price and the rate of every item are finite
    and not negative.  The fallback parser returns its total, 18 percent of
    it as the tax and the rest as the subtotal as they are computed, not
    rounded; the total and the tax are not negative, nor is the subtotal of
    a finite total. *)
Theorem output_amounts (data : ReceiptData) (its : list ReceiptItem)
  (text : jsstring) :
  (items data = Some its -> its <> [] ->
   let out := recalculateFinancials data in
   (exists tx st entries,
       tax out = Some tx /\ subtotal out = Some st
       /\ taxBreakdown out = Some entries)
   /\ (forall v, In v (written data out) ->
       is_finite v = true -> two_places v)
   /\ (Forall sound_item its ->
       forall v, In v (written data out) -> non_negative v = true))
  /\ (let out := parseViaRegex text in
      tax out = Some (total out * 0.18)%float
      /\ subtotal out = Some (total out - total out * 0.18)%float
      /\ non_negative (total out) = true
      /\ non_negative (total out * 0.18)%float = true
      /\ (is_finite (total out) = true ->
          non_negative (total out - total out * 0.18)%float = true)).
Proof.
  split.
  - intros Hits Hne out. split; [|split].
    + unfold out, recalculateFinancials. rewrite Hits.
      destruct its as [|item rest]; [contradiction|].
      cbn [tax subtotal taxBreakdown].
      destruct (taxBreakdown data) as [[|? ?]|];
        do 3 eexists; repeat split; reflexivity.
    + intros v Hv Hfin.
      destruct (written_rounded data its Hits Hne v Hv) as (x & -> & _).
      now apply toFixed2_two_places.
    + intros Hs v Hv.
      destruct (written_rounded data its Hits Hne v Hv) as (x & -> & Hx).
      apply toFixed2_non_negative. now apply Hx.
  - intros out.
    pose proof (parseViaRegex_total text) as Ht. fold out in Ht.
    destruct (fallback_shares _ Ht) as [Htax Hsub].
    repeat split; auto.
Qed.

Lemma output_amounts_witness :
  let its := [Samples.item 60%float (Some 20%float);
              Samples.item 40%float (Some 10%float)] in
  let out :=
    recalculateFinancials (Samples.receipt its 0%float None None None) in
  two_places (total out) /\ non_negative (total out) = true.
Proof.
  intros its out.
  destruct (proj1 (output_amounts
                     (Samples.receipt its 0%float None None None) its
                     Scenario.receipt) eq_refl)
    as (_ & Hplaces & Hsign); [discriminate|].
  split.
  - apply Hplaces; [left; reflexivity | reflexivity].
  - apply Hsign; [|left; reflexivity].
    repeat constructor; vm_compute; congruence.
Defined.

(** The fallback path hands out the tax as computed: for a text with the
    total 10,01 it is [10.01 * 0.18], about 1.8018, which is not a number
    nearest to a decimal with two places; rounding would make it 1.8. *)
Lemma fallback_tax_not_rounded :
  let out :=
    parseReceiptWithGemini (fun _ => None) (fun _ => None)
      Scenario.bare_total None in
  tax out = Some (10.01 * 0.18)%float
  /\ ~ two_places (10.01 * 0.18)%float
  /\ toFixed2 (10.01 * 0.18)%float = 1.8%float.
Proof.
  split; [vm_compute; reflexivity|]. split; [|vm_compute; reflexivity].
  intros [n Hr]. set (v := (10.01 * 0.18)%float) in *.
  destruct (Z_le_gt_dec n 180) as [Hn | Hn].
  - assert (Hq : (inject_Z n / 100 <= F2Q 1.801%float)%Q).
    { apply Qle_shift_div_r; [reflexivity|].
      apply Qle_trans with (inject_Z 180); [now rewrite <- Zle_Qle|].
      vm_compute. discriminate. }
    pose proof (rounded_le_number _ _ 1.801%float Hr eq_refl Hq) as H.
    vm_compute in H. now apply H.
  - assert (Hq : (F2Q 1.805%float <= inject_Z n / 100)%Q).
    { apply Qle_shift_div_l; [reflexivity|].
      apply Qle_trans with (inject_Z 181); [|rewrite <- Zle_Qle; lia].
      vm_compute. discriminate. }
    pose proof (rounded_ge_number _ _ 1.805%float Hr eq_refl Hq) as H.
    vm_compute in H. now apply H.
Qed.

(** ** The override policy *)

Section Gross100.
Local Open Scope Q_scope.








End Gross100.



(** * Further properties

    Properties of the same code that the specification does not state: of
    the fallback parser, of the reconciler, of the OCR client and of the
    handler that runs a scan. *)

Import Matching Shapes Order Reading Pages Addresses MistralService.

(** ** The matcher and what a pattern matches *)

Section MatcherFacts.
Local Open Scope nat_scope.

Lemma run_star (g : bool) (a : regex) (k : cont) (rest : jsstring) (pos : nat)
  (caps : captures) :
  run (Star g a) k rest pos caps
  = star_loop (run a) k g (length rest) rest pos caps.
Proof. reflexivity. Qed.

(** Whatever the matcher finds is a match. *)
Lemma run_sound (r : regex) :
  forall (k : cont) (input : jsstring) (pos : nat) (caps : captures)
         (res : match_result),
    run r k input pos caps = Some res ->
    exists w rest cs,
      input = w ++ rest /\ matches r pos w rest cs
      /\ k rest (pos + length w) (cs ++ caps) = Some res.
Proof.
  induction r as [p| |a IHa b IHb|a IHa b IHb|g a IHa|i a IHa| |];
    intros k input pos caps res H.
  - cbn in H. destruct input as [|c t]; [discriminate|].
    destruct (p c) eqn:Hp; [|discriminate].
    exists [c], t, []. cbn [length app]. rewrite Nat.add_1_r.
    repeat split; [now constructor | exact H].
  - exists [], input, []. cbn [length app]. rewrite Nat.add_0_r.
    repeat split; [constructor | exact H].
  - cbn [run] in H.
    destruct (IHa _ _ _ _ _ H) as (w1 & rest1 & c1 & -> & Ha & H1).
    destruct (IHb _ _ _ _ _ H1) as (w2 & rest & c2 & -> & Hb & H2).
    exists (w1 ++ w2), rest, (c2 ++ c1).
    rewrite <- !app_assoc, length_app, Nat.add_assoc.
    repeat split; [now constructor | exact H2].
  - cbn [run] in H. destruct (run a k input pos caps) as [x|] eqn:Ha.
    + destruct (IHa _ _ _ _ _ Ha) as (w & rest & cs & -> & Hm & Hk).
      exists w, rest, cs. injection H as <-.
      repeat split; [now apply M_alt_l | exact Hk].
    + destruct (IHb _ _ _ _ _ H) as (w & rest & cs & -> & Hm & Hk).
      exists w, rest, cs. repeat split; [now apply M_alt_r | exact Hk].
  - rewrite run_star in H. remember (length input) as fuel eqn:Ef.
    clear Ef. revert input pos caps res H.
    induction fuel as [|fuel IH]; intros input pos caps res H.
    + cbn in H. exists [], input, []. cbn [length app]. rewrite Nat.add_0_r.
      repeat split; [constructor | exact H].
    + cbn [star_loop] in H.
      assert (Hk : k input pos caps = Some res ->
                   exists w rest cs, input = w ++ rest
                     /\ matches (Star g a) pos w rest cs
                     /\ k rest (pos + length w) (cs ++ caps) = Some res).
      { intros Hk. exists [], input, []. cbn [length app].
        rewrite Nat.add_0_r. repeat split; [constructor | exact Hk]. }
      assert (Hagain : forall res',
                run a (fun rest' pos' caps' =>
                         if Nat.eqb pos' pos then None
                         else star_loop (run a) k g fuel rest' pos' caps')
                  input pos caps = Some res' ->
                exists w rest cs, input = w ++ rest
                  /\ matches (Star g a) pos w rest cs
                  /\ k rest (pos + length w) (cs ++ caps) = Some res').
      { intros res' Ha.
        destruct (IHa _ _ _ _ _ Ha) as (w1 & rest1 & c1 & -> & Hm & Hl).
        destruct (Nat.eqb (pos + length w1) pos) eqn:E; [discriminate|].
        apply Nat.eqb_neq in E.
        destruct (IH _ _ _ _ Hl) as (w2 & rest & c2 & -> & Hs & Hk2).
        exists (w1 ++ w2), rest, (c2 ++ c1).
        rewrite <- !app_assoc, length_app, Nat.add_assoc.
        repeat split; [|exact Hk2].
        apply M_star_cons; auto. intros ->. cbn in E. lia. }
      destruct g.
      * match type of H with
        | match ?x with _ => _ end = _ => destruct x as [y|] eqn:Ha
        end; [injection H as <-; now apply Hagain | now apply Hk].
      * destruct (k input pos caps) as [y|] eqn:Hk';
          [injection H as <-; now apply Hk | now apply Hagain].
  - cbn [run] in H.
    destruct (IHa _ _ _ _ _ H) as (w & rest & cs & -> & Hm & Hk).
    exists w, rest, ((i, (pos, pos + length w)) :: cs).
    repeat split; [now constructor | exact Hk].
  - cbn [run] in H. destruct (Nat.eqb pos 0) eqn:E; [|discriminate].
    apply Nat.eqb_eq in E. subst pos.
    exists [], input, []. repeat split; [constructor | exact H].
  - cbn [run] in H. destruct input; [|discriminate].
    exists [], [], []. cbn [length app]. rewrite Nat.add_0_r.
    repeat split; [constructor | exact H].
Qed.

(** Whenever there is a match, the matcher finds one (maybe another). *)
Lemma run_complete (r : regex) (pos : nat) (w rest : jsstring)
  (cs : captures) :
  matches r pos w rest cs ->
  (forall k caps, unfailing k rest (pos + length w) ->
                  run r k (w ++ rest) pos caps <> None)
  /\ (forall g a, r = Star g a ->
      forall k fuel caps, length w <= fuel ->
        unfailing k rest (pos + length w) ->
        star_loop (run a) k g fuel (w ++ rest) pos caps <> None).
Proof.
  induction 1 as [p c pos rest Hp|pos rest
                 |a b pos w1 w2 rest c1 c2 _ [IHa _] _ [IHb _]
                 |a b pos w rest c _ [IH _]|a b pos w rest c _ [IH _]
                 |g a pos rest
                 |g a pos w1 w2 rest c1 c2 Hne _ [IHa _] _ [_ IHs]
                 |i a pos w rest c _ [IH _]|rest|pos];
    (split; [|try (intros ? ? ?; discriminate)]).
  - intros k caps Hk. cbn. rewrite Hp. rewrite Nat.add_1_r in Hk. apply Hk.
  - intros k caps Hk. cbn. rewrite Nat.add_0_r in Hk. apply Hk.
  - intros k caps Hk. cbn [run]. rewrite <- app_assoc. apply IHa.
    intros caps'. apply IHb. rewrite length_app, Nat.add_assoc in Hk. exact Hk.
  - intros k caps Hk. cbn [run].
    destruct (run a k (w ++ rest) pos caps) eqn:E; [discriminate|].
    exfalso. revert E. now apply IH.
  - intros k caps Hk. cbn [run].
    destruct (run a k (w ++ rest) pos caps) eqn:E; [discriminate|].
    now apply IH.
  - intros k caps Hk. rewrite run_star. cbn [app length] in *.
    rewrite Nat.add_0_r in Hk.
    destruct (length rest) as [|fuel]; cbn [star_loop]; [apply Hk|].
    destruct g.
    + match goal with |- match ?x with _ => _ end <> _ => destruct x end;
        [discriminate | apply Hk].
    + destruct (k rest pos caps) eqn:E; [discriminate|]. now apply Hk in E.
  - intros g' a' [= <- <-] k fuel caps _ Hk. cbn [app length] in *.
    rewrite Nat.add_0_r in Hk.
    destruct fuel as [|fuel]; cbn [star_loop]; [apply Hk|].
    destruct g.
    + match goal with |- match ?x with _ => _ end <> _ => destruct x end;
        [discriminate | apply Hk].
    + destruct (k rest pos caps) eqn:E; [discriminate|]. now apply Hk in E.
  - intros k caps Hk. rewrite run_star.
    assert (Hloop : forall fuel, length (w1 ++ w2) <= fuel ->
              star_loop (run a) k g fuel ((w1 ++ w2) ++ rest) pos caps <> None).
    { intros fuel Hfuel. rewrite length_app in Hfuel.
      assert (Hw1 : 0 < length w1) by (destruct w1; [contradiction | cbn; lia]).
      destruct fuel as [|fuel]; [lia|]. cbn [star_loop].
      assert (Hagain :
                run a (fun rest' pos' caps' =>
                         if Nat.eqb pos' pos then None
                         else star_loop (run a) k g fuel rest' pos' caps')
                  ((w1 ++ w2) ++ rest) pos caps <> None).
      { rewrite <- app_assoc. apply IHa. intros caps'.
        destruct (Nat.eqb (pos + length w1) pos) eqn:E;
          [apply Nat.eqb_eq in E; lia|].
        apply (IHs g a eq_refl); [lia|].
        rewrite length_app, Nat.add_assoc in Hk. exact Hk. }
      destruct g.
      - match goal with |- match ?x with _ => _ end <> _ => destruct x end;
          [discriminate | contradiction].
      - destruct (k ((w1 ++ w2) ++ rest) pos caps); [discriminate | exact Hagain]. }
    apply Hloop. rewrite !length_app. lia.
  - intros g' a' [= <- <-] k fuel caps Hfuel Hk.
    rewrite length_app in Hfuel.
    assert (Hw1 : 0 < length w1) by (destruct w1; [contradiction | cbn; lia]).
    destruct fuel as [|fuel]; [lia|]. cbn [star_loop].
    assert (Hagain :
              run a (fun rest' pos' caps' =>
                       if Nat.eqb pos' pos then None
                       else star_loop (run a) k g fuel rest' pos' caps')
                ((w1 ++ w2) ++ rest) pos caps <> None).
    { rewrite <- app_assoc. apply IHa. intros caps'.
      destruct (Nat.eqb (pos + length w1) pos) eqn:E;
        [apply Nat.eqb_eq in E; lia|].
      apply (IHs g a eq_refl); [lia|].
      rewrite length_app, Nat.add_assoc in Hk. exact Hk. }
    destruct g.
    + match goal with |- match ?x with _ => _ end <> _ => destruct x end;
        [discriminate | contradiction].
    + destruct (k ((w1 ++ w2) ++ rest) pos caps); [discriminate | exact Hagain].
  - intros k caps Hk. cbn [run]. apply IH. intros caps'. apply Hk.
  - intros k caps Hk. cbn. apply Hk.
  - intros k caps Hk. cbn. rewrite Nat.add_0_r in Hk. apply Hk.
Qed.

Lemma accept_unfailing (rest : jsstring) (pos : nat) :
  unfailing accept rest pos.
Proof. intros caps. discriminate. Qed.

(** No match starts where the matcher finds none. *)
Lemma run_none (r : regex) (pos : nat) (w rest : jsstring) (cs : captures) :
  run r accept (w ++ rest) pos [] = None -> ~ matches r pos w rest cs.
Proof.
  intros Hrun Hm. revert Hrun.
  apply (proj1 (run_complete r pos w rest cs Hm)), accept_unfailing.
Qed.

(** The search returns the leftmost place where the pattern matches. *)
Lemma search_sound (r : regex) (s : jsstring) :
  forall (pos start : nat) (m : match_result),
    search r s pos = Some (start, m) ->
    exists pre w rest,
      s = pre ++ w ++ rest /\ start = pos + length pre
      /\ matches r start w rest (m_caps m)
      /\ m_end m = start + length w
      /\ (forall pre' w' rest' cs',
            s = pre' ++ w' ++ rest' -> length pre' < length pre ->
            ~ matches r (pos + length pre') w' rest' cs').
Proof.
  induction s as [|c t IH]; intros pos start m H; cbn [search] in H.
  - destruct (run r accept [] pos []) as [x|] eqn:Hrun; [|discriminate].
    injection H as <- <-.
    destruct (run_sound _ _ _ _ _ _ Hrun) as (w & rest & cs & E & Hm & Hk).
    injection Hk as <-. cbn [m_caps m_end]. rewrite app_nil_r.
    exists [], w, rest. cbn [app length]. rewrite Nat.add_0_r.
    repeat split; auto. intros pre' w' rest' cs' _ Hlt. lia.
  - destruct (run r accept (c :: t) pos []) as [x|] eqn:Hrun.
    + injection H as <- <-.
      destruct (run_sound _ _ _ _ _ _ Hrun) as (w & rest & cs & E & Hm & Hk).
      injection Hk as <-. cbn [m_caps m_end]. rewrite app_nil_r.
      exists [], w, rest. cbn [app length]. rewrite Nat.add_0_r.
      repeat split; auto. intros pre' w' rest' cs' _ Hlt. lia.
    + destruct (IH _ _ _ H) as (pre & w & rest & -> & -> & Hm & He & Hleft).
      exists (c :: pre), w, rest. cbn [app length].
      replace (pos + S (length pre)) with (S pos + length pre) by lia.
      repeat split; auto.
      intros pre' w' rest' cs' E Hlt. destruct pre' as [|c' pre'].
      * cbn [app length] in *. rewrite Nat.add_0_r. rewrite E in Hrun.
        now apply run_none.
      * cbn [app length] in *. injection E as <- E.
        replace (pos + S (length pre')) with (S pos + length pre') by lia.
        apply (Hleft pre' w' rest' cs' E). lia.
Qed.

Lemma search_none (r : regex) (s : jsstring) :
  forall pos, search r s pos = None ->
  forall pre w rest cs,
    s = pre ++ w ++ rest -> ~ matches r (pos + length pre) w rest cs.
Proof.
  induction s as [|c t IH]; intros pos H pre w rest cs E; cbn [search] in H.
  - destruct (run r accept [] pos []) eqn:Hrun; [discriminate|].
    destruct pre; [|discriminate E]. cbn [app length] in *.
    rewrite Nat.add_0_r. rewrite E in Hrun. now apply run_none.
  - destruct (run r accept (c :: t) pos []) eqn:Hrun; [discriminate|].
    destruct pre as [|c' pre].
    + cbn [app length] in *. rewrite Nat.add_0_r. rewrite E in Hrun.
      now apply run_none.
    + cbn [app length] in *. injection E as <- E.
      replace (pos + S (length pre)) with (S pos + length pre) by lia.
      now apply (IH (S pos) H pre w rest cs).
Qed.

(** [r.test(s)] holds exactly when the pattern matches somewhere in [s]. *)
Lemma test_spec (r : regex) (s : jsstring) :
  test r s = true
  <-> exists pre w rest cs,
        s = pre ++ w ++ rest /\ matches r (length pre) w rest cs.
Proof.
  unfold test. split.
  - destruct (search r s 0) as [[start m]|] eqn:H; [|discriminate].
    intros _.
    destruct (search_sound _ _ _ _ _ H) as (pre & w & rest & E & -> & Hm & _).
    exists pre, w, rest, (m_caps m). auto.
  - intros (pre & w & rest & cs & E & Hm).
    destruct (search r s 0) as [[start m]|] eqn:H; [reflexivity|].
    exfalso. exact (search_none _ _ _ H pre w rest cs E Hm).
Qed.

Lemma substring_middle (pre w rest : jsstring) :
  substring (pre ++ w ++ rest) (length pre) (length pre + length w) = w.
Proof.
  unfold substring. rewrite skipn_app, skipn_all, Nat.sub_diag. cbn [skipn app].
  replace (length pre + length w - length pre) with (length w) by lia.
  rewrite firstn_app, firstn_all, Nat.sub_diag. cbn [firstn]. apply app_nil_r.
Qed.

(** [s.match(r)]: the matched text is the leftmost match, and the groups
    are cut out of [s] at the captured positions. *)
Lemma exec_sound (r : regex) (s : jsstring) (m : match_array) :
  exec r s = Some m ->
  exists pre w rest cs,
    s = pre ++ w ++ rest /\ matches r (length pre) w rest cs
    /\ whole m = w
    /\ (forall i, group m i
                  = match capture i cs with
                    | Some (a, b) => Some (substring s a b)
                    | None => None
                    end)
    /\ (forall pre' w' rest' cs',
          s = pre' ++ w' ++ rest' -> length pre' < length pre ->
          ~ matches r (length pre') w' rest' cs').
Proof.
  unfold exec. destruct (search r s 0) as [[start res]|] eqn:H; [|discriminate].
  intros [= <-].
  destruct (search_sound _ _ _ _ _ H)
    as (pre & w & rest & E & -> & Hm & He & Hleft).
  exists pre, w, rest, (m_caps res). cbn [whole group Nat.add] in *.
  repeat split; auto.
  rewrite He, E. apply substring_middle.
Qed.

Lemma exec_none (r : regex) (s : jsstring) :
  exec r s = None ->
  forall pre w rest cs,
    s = pre ++ w ++ rest -> ~ matches r (length pre) w rest cs.
Proof.
  unfold exec. destruct (search r s 0) as [[start res]|] eqn:H; [discriminate|].
  intros _ pre w rest cs E. exact (search_none _ _ _ H pre w rest cs E).
Qed.

End MatcherFacts.

Section PatternFacts.
Local Open Scope nat_scope.

(** What the parts of a pattern match. *)
Lemma matches_chr (p : codeunit -> bool) pos w rest cs :
  matches (Chr p) pos w rest cs -> exists c, w = [c] /\ p c = true /\ cs = [].
Proof. inversion 1; subst. eauto. Qed.

Lemma matches_eps pos w rest cs :
  matches Eps pos w rest cs -> w = [] /\ cs = [].
Proof. inversion 1; subst. auto. Qed.

Lemma matches_seq a b pos w rest cs :
  matches (Seq a b) pos w rest cs ->
  exists w1 w2 c1 c2,
    w = w1 ++ w2 /\ cs = c2 ++ c1
    /\ matches a pos w1 (w2 ++ rest) c1
    /\ matches b (pos + length w1) w2 rest c2.
Proof. inversion 1; subst. eauto 10. Qed.

Lemma matches_alt a b pos w rest cs :
  matches (Alt a b) pos w rest cs ->
  matches a pos w rest cs \/ matches b pos w rest cs.
Proof. inversion 1; subst; auto. Qed.

Lemma matches_group i a pos w rest cs :
  matches (Group i a) pos w rest cs ->
  exists c, cs = (i, (pos, pos + length w)) :: c /\ matches a pos w rest c.
Proof. inversion 1; subst. eauto. Qed.

Lemma matches_eol pos w rest cs :
  matches Eol pos w rest cs -> w = [] /\ rest = [] /\ cs = [].
Proof. inversion 1; subst. auto. Qed.

Lemma matches_bol pos w rest cs :
  matches Bol pos w rest cs -> w = [] /\ pos = 0 /\ cs = [].
Proof. inversion 1; subst. auto. Qed.

(** A repeated class takes characters of the class, and captures nothing. *)
Lemma matches_star_chr g (p : codeunit -> bool) pos w rest cs :
  matches (Star g (Chr p)) pos w rest cs ->
  Forall (fun c => p c = true) w /\ cs = [].
Proof.
  remember (Star g (Chr p)) as r eqn:Er. intros H. revert Er.
  induction H; try discriminate; intros [= -> ->].
  - auto.
  - apply matches_chr in H0. destruct H0 as (c & -> & Hc & ->).
    destruct (IHmatches2 eq_refl) as [Hw ->]. split; [|reflexivity].
    constructor; assumption.
Qed.

Lemma star_chr_matches g (p : codeunit -> bool) pos w rest :
  Forall (fun c => p c = true) w -> matches (Star g (Chr p)) pos w rest [].
Proof.
  intros H. revert pos. induction H as [|c w Hc _ IH]; intros pos.
  - constructor.
  - change (c :: w) with ([c] ++ w). change (@nil (nat * (nat * nat)))
      with (@nil (nat * (nat * nat)) ++ []).
    apply M_star_cons; [discriminate | now constructor | apply IH].
Qed.

Lemma matches_plus_chr g (p : codeunit -> bool) pos w rest cs :
  matches (plus g (Chr p)) pos w rest cs ->
  w <> [] /\ Forall (fun c => p c = true) w /\ cs = [].
Proof.
  intros H. apply matches_seq in H.
  destruct H as (w1 & w2 & c1 & c2 & -> & -> & H1 & H2).
  apply matches_chr in H1. destruct H1 as (c & -> & Hc & ->).
  apply matches_star_chr in H2. destruct H2 as [Hw ->].
  split; [discriminate|]. split; [|reflexivity]. constructor; assumption.
Qed.

Lemma plus_chr_matches g (p : codeunit -> bool) pos w rest :
  w <> [] -> Forall (fun c => p c = true) w ->
  matches (plus g (Chr p)) pos w rest [].
Proof.
  intros Hne H. destruct H as [|c w Hc Hw]; [contradiction|].
  change (c :: w) with ([c] ++ w).
  change (@nil (nat * (nat * nat))) with (@nil (nat * (nat * nat)) ++ []).
  apply M_seq; [now constructor | now apply star_chr_matches].
Qed.

Lemma matches_opt a pos w rest cs :
  matches (opt a) pos w rest cs ->
  matches a pos w rest cs \/ (w = [] /\ cs = []).
Proof.
  intros H. apply matches_alt in H. destruct H as [H|H]; [now left|right].
  now apply matches_eps in H.
Qed.

(** A sequence of classes takes one character for each of them. *)
Lemma matches_classes (ps : list (codeunit -> bool)) pos w rest cs :
  matches (seq_of (map Chr ps)) pos w rest cs ->
  Forall2 (fun p c => p c = true) ps w /\ cs = [].
Proof.
  revert pos w cs. induction ps as [|p ps IH]; intros pos w cs H.
  - cbn in H. apply matches_eps in H. destruct H as [-> ->]. auto.
  - destruct ps as [|q ps].
    + cbn in H. apply matches_chr in H. destruct H as (c & -> & Hc & ->).
      auto.
    + change (seq_of (map Chr (p :: q :: ps)))
        with (Seq (Chr p) (seq_of (map Chr (q :: ps)))) in H.
      apply matches_seq in H.
      destruct H as (w1 & w2 & c1 & c2 & -> & -> & H1 & H2).
      apply matches_chr in H1. destruct H1 as (c & -> & Hc & ->).
      apply IH in H2. destruct H2 as [Hw ->]. split; [|reflexivity].
      constructor; assumption.
Qed.

Lemma classes_matches (ps : list (codeunit -> bool)) pos w rest :
  Forall2 (fun p c => p c = true) ps w ->
  matches (seq_of (map Chr ps)) pos w rest [].
Proof.
  intros H. revert pos. induction H as [|p c ps w Hc Hw IH]; intros pos.
  - constructor.
  - destruct ps as [|q ps].
    + inversion Hw; subst. cbn. now constructor.
    + change (seq_of (map Chr (p :: q :: ps)))
        with (Seq (Chr p) (seq_of (map Chr (q :: ps)))).
      change (c :: w) with ([c] ++ w).
      change (@nil (nat * (nat * nat))) with (@nil (nat * (nat * nat)) ++ []).
      apply M_seq; [now constructor | apply IH].
Qed.

End PatternFacts.

Section GreedyFacts.
Local Open Scope nat_scope.

(** The search, as runs of the matcher: it succeeds at the first position
    where a run does. *)
Lemma search_run (r : regex) (s : jsstring) :
  forall (pos start : nat) (res : match_result),
    search r s pos = Some (start, res) ->
    exists pre s',
      s = pre ++ s' /\ start = pos + length pre
      /\ run r accept s' start [] = Some res
      /\ (forall pre' s'', s = pre' ++ s'' -> length pre' < length pre ->
            run r accept s'' (pos + length pre') [] = None).
Proof.
  induction s as [|c t IH]; intros pos start res H; cbn [search] in H.
  - destruct (run r accept [] pos []) as [x|] eqn:Hrun; [|discriminate].
    injection H as <- <-. exists [], []. cbn [app length].
    rewrite Nat.add_0_r. repeat split; auto. intros; lia.
  - destruct (run r accept (c :: t) pos []) as [x|] eqn:Hrun.
    + injection H as <- <-. exists [], (c :: t). cbn [app length].
      rewrite Nat.add_0_r. repeat split; auto. intros; lia.
    + destruct (IH _ _ _ H) as (pre & s' & -> & -> & Hr & Hleft).
      exists (c :: pre), s'. cbn [app length].
      replace (pos + S (length pre)) with (S pos + length pre) by lia.
      repeat split; auto.
      intros pre' s'' E Hlt. destruct pre' as [|c' pre'].
      * cbn [app length] in *. rewrite Nat.add_0_r. now rewrite <- E.
      * cbn [app length] in *. injection E as <- E.
        replace (pos + S (length pre')) with (S pos + length pre') by lia.
        apply (Hleft pre' s'' E). lia.
Qed.

Lemma search_fails (r : regex) (s : jsstring) :
  forall pos,
    (forall pre s', s = pre ++ s' ->
                    run r accept s' (pos + length pre) [] = None) ->
    search r s pos = None.
Proof.
  induction s as [|c t IH]; intros pos H; cbn [search].
  - pose proof (H [] [] eq_refl) as H0. cbn [length] in H0.
    rewrite Nat.add_0_r in H0. now rewrite H0.
  - pose proof (H [] (c :: t) eq_refl) as H0. cbn [length] in H0.
    rewrite Nat.add_0_r in H0. rewrite H0.
    apply IH. intros pre s' ->.
    replace (S pos + length pre) with (pos + length (c :: pre))
      by (cbn; lia).
    now apply H.
Qed.

(** A greedy repetition of a class before a continuation that cannot fail
    takes every character of the class that is there. *)
Lemma run_star_greedy (p : codeunit -> bool) (k : cont) :
  (forall rest pos caps, k rest pos caps <> None) ->
  forall input pos caps,
    run (Star true (Chr p)) k input pos caps
    = k (drop_while p input) (pos + length (take_while p input)) caps.
Proof.
  intros Hk input pos caps. rewrite run_star.
  assert (H : forall fuel input pos, length input <= fuel ->
            star_loop (run (Chr p)) k true fuel input pos caps
            = k (drop_while p input) (pos + length (take_while p input)) caps).
  { clear input pos. induction fuel as [|fuel IH]; intros input pos Hlen.
    - destruct input; [|cbn in Hlen; lia]. cbn. now rewrite Nat.add_0_r.
    - cbn [star_loop]. destruct input as [|c t].
      + cbn. now rewrite Nat.add_0_r.
      + cbn [run drop_while take_while]. destruct (p c) eqn:Hc.
        * destruct (Nat.eqb (S pos) pos) eqn:E;
            [apply Nat.eqb_eq in E; lia|].
          rewrite IH by (cbn in Hlen; lia). cbn [length].
          replace (S pos + length (take_while p t))
            with (pos + S (length (take_while p t))) by lia.
          destruct (k _ _ caps) eqn:E'; [reflexivity|]. now apply Hk in E'.
        * cbn. now rewrite Nat.add_0_r. }
  now apply H.
Qed.

Lemma skipn_take_while (p : codeunit -> bool) (s : jsstring) :
  skipn (length (take_while p s)) s = drop_while p s.
Proof.
  induction s as [|c t IH]; [reflexivity|]. cbn.
  destruct (p c); [exact IH | reflexivity].
Qed.

End GreedyFacts.

(** ** The lines of the fallback parser *)

Section SubstringFacts.
Local Open Scope nat_scope.

Lemma substring_at (a w b : jsstring) (from to : nat) :
  from = length a -> to = length a + length w ->
  substring (a ++ w ++ b) from to = w.
Proof. intros -> ->. apply substring_middle. Qed.

End SubstringFacts.

Section PriceLine.
Local Open Scope nat_scope.

(** The groups of a match of the price-line pattern. *)
Lemma priceLine_matches (pos : nat) (w rest : jsstring) (cs : captures) :
  matches priceLineRegex pos w rest cs ->
  exists text gap price gap' sign,
    w = text ++ gap ++ price ++ gap' ++ sign /\ rest = []
    /\ capture 1 cs = Some (pos, pos + length text)
    /\ capture 2 cs
       = Some (pos + length text + length gap,
               pos + length text + length gap + length price)
    /\ (text <> [] /\ Forall (fun c => is_line_terminator c = false) text)
    /\ (gap <> [] /\ Forall (fun c => is_space c = true) gap)
    /\ (price <> [] /\ Forall (fun c => is_price_char c = true) price)
    /\ Forall (fun c => is_space c = true) gap'
    /\ (sign = [] \/ exists c, sign = [c] /\ is_currency_sign c = true).
Proof.
  unfold priceLineRegex. cbn [seq_of]. intros H.
  apply matches_seq in H.
  destruct H as (text & w1 & c1 & cs1 & -> & -> & Hg1 & H).
  apply matches_seq in H.
  destruct H as (gap & w2 & c2 & cs2 & -> & -> & Hgap & H).
  apply matches_seq in H.
  destruct H as (price & w3 & c3 & cs3 & -> & -> & Hg2 & H).
  apply matches_seq in H.
  destruct H as (gap' & w4 & c4 & cs4 & -> & -> & Hgap' & H).
  apply matches_seq in H.
  destruct H as (sign & w5 & c5 & cs5 & -> & -> & Hg3 & H).
  apply matches_eol in H. destruct H as (-> & -> & ->).
  apply matches_group in Hg1. destruct Hg1 as (d1 & -> & Hg1).
  apply matches_plus_chr in Hg1. destruct Hg1 as (Ht0 & Ht & ->).
  apply matches_plus_chr in Hgap. destruct Hgap as (Hgap0 & Hgap & ->).
  apply matches_group in Hg2. destruct Hg2 as (d2 & -> & Hg2).
  apply matches_plus_chr in Hg2. destruct Hg2 as (Hp0 & Hp & ->).
  apply matches_star_chr in Hgap'. destruct Hgap' as (Hgap' & ->).
  apply matches_group in Hg3. destruct Hg3 as (d3 & -> & Hg3).
  exists text, gap, price, gap', sign.
  rewrite !app_nil_r. split; [reflexivity|]. split; [reflexivity|].
  assert (Hsign : d3 = [] /\ (sign = [] \/ exists c, sign = [c]
                                /\ is_currency_sign c = true)).
  { apply matches_opt in Hg3. destruct Hg3 as [H|[-> ->]]; [|auto].
    apply matches_chr in H. destruct H as (c & -> & Hc & ->).
    split; [reflexivity|]. right. exists c. auto. }
  destruct Hsign as [-> Hsign].
  split; [reflexivity|]. split; [reflexivity|].
  repeat split; auto.
  - eapply Forall_impl; [|exact Ht]. intros c Hc.
    now apply negb_true_iff in Hc.
Qed.

End PriceLine.

Section PriceShape.
Local Open Scope nat_scope.

(** White space, the characters of a price and the currency signs are
    apart. *)
Lemma space_not_price (c : codeunit) :
  is_space c = true -> is_price_char c = false.
Proof.
  intros H. destruct (is_price_char c) eqn:E; [exfalso|reflexivity].
  revert H E. unfold is_space, is_price_char, is_digit.
  rewrite !orb_true_iff, !andb_true_iff, !N.eqb_eq, !N.leb_le. lia.
Qed.

Lemma space_not_currency (c : codeunit) :
  is_space c = true -> is_currency_sign c = false.
Proof.
  intros H. destruct (is_currency_sign c) eqn:E; [exfalso|reflexivity].
  revert H E. unfold is_space, is_currency_sign. cbn [existsb].
  rewrite orb_false_r.
  rewrite !orb_true_iff, !andb_true_iff, !N.eqb_eq, !N.leb_le. lia.
Qed.

Lemma price_not_currency (c : codeunit) :
  is_price_char c = true -> is_currency_sign c = false.
Proof.
  intros H. destruct (is_currency_sign c) eqn:E; [exfalso|reflexivity].
  revert H E. unfold is_price_char, is_digit, is_currency_sign.
  cbn [existsb]. rewrite orb_false_r.
  rewrite !orb_true_iff, !andb_true_iff, !N.eqb_eq, !N.leb_le. lia.
Qed.

Lemma price_not_space (c : codeunit) :
  is_price_char c = true -> is_space c = false.
Proof.
  intros H. destruct (is_space c) eqn:E; [|reflexivity].
  apply space_not_price in E. congruence.
Qed.

(** A run of characters of one kind, followed by a character of another:
    the run is what [take_while] takes. *)
Lemma span_unique (p : codeunit -> bool) (u v : jsstring) :
  Forall (fun c => p c = true) u ->
  match v with c :: _ => p c = false | [] => True end ->
  take_while p (u ++ v) = u /\ drop_while p (u ++ v) = v.
Proof.
  intros Hu Hv. induction Hu as [|c u Hc _ [IH1 IH2]]; cbn [app].
  - destruct v as [|c t]; [auto|]. cbn. rewrite Hv. auto.
  - cbn. rewrite Hc, IH1, IH2. auto.
Qed.

Lemma head_of_run (q : codeunit -> Prop) (l z : jsstring) :
  l <> [] -> Forall q l ->
  match l ++ z with c :: _ => q c | [] => True end.
Proof. intros Hne H. destruct H; [contradiction|]. cbn. assumption. Qed.

Lemma head_of_runs (q : codeunit -> Prop) (a b z : jsstring) :
  Forall q a -> b <> [] -> Forall q b ->
  match a ++ b ++ z with c :: _ => q c | [] => True end.
Proof.
  intros Ha Hne Hb. destruct Ha as [|c a Hc _]; [|exact Hc].
  cbn [app]. apply head_of_run; assumption.
Qed.

Lemma rev_nonempty (l : jsstring) : l <> [] -> rev l <> [].
Proof.
  intros H E. apply H. rewrite <- (rev_involutive l), E. reflexivity.
Qed.

(** The end of a text that ends in a price, read from the right. *)
Lemma ends_in_price_rev (s text gap price : jsstring) :
  ends_in_price s text gap price ->
  exists sign gap',
    rev s = sign ++ gap' ++ rev price ++ rev gap ++ rev text
    /\ (sign = [] \/ exists c, sign = [c] /\ is_currency_sign c = true)
    /\ Forall (fun c => is_space c = true) gap'.
Proof.
  intros [(gap' & sign & -> & Hg' & Hsign) _ _ _].
  exists (rev sign), (rev gap').
  rewrite !rev_app_distr, <- !app_assoc. split; [reflexivity|]. split.
  - destruct Hsign as [-> | (c & -> & Hc)]; [now left|]. right. now exists c.
  - now apply Forall_rev.
Qed.

(** The price of a text that ends in one is determined, and so is what
    precedes the price. *)
Lemma ends_in_price_unique (s t1 g1 p1 t2 g2 p2 : jsstring) :
  ends_in_price s t1 g1 p1 -> ends_in_price s t2 g2 p2 ->
  p1 = p2 /\ t1 ++ g1 = t2 ++ g2.
Proof.
  intros H1 H2.
  destruct (ends_in_price_rev _ _ _ _ H1) as (s1 & a1 & E1 & Hs1 & Ha1).
  destruct (ends_in_price_rev _ _ _ _ H2) as (s2 & a2 & E2 & Hs2 & Ha2).
  destruct H1 as [_ _ [Hg1 Hg1'] [Hp1 Hp1']].
  destruct H2 as [_ _ [Hg2 Hg2'] [Hp2 Hp2']].
  apply rev_nonempty in Hg1, Hg2, Hp1, Hp2.
  apply Forall_rev in Hg1', Hg2', Hp1', Hp2'.
  set (z1 := rev g1 ++ rev t1) in *. set (z2 := rev g2 ++ rev t2) in *.
  (* the sign *)
  assert (Hc1 : match a1 ++ rev p1 ++ z1 with
                | c :: _ => is_currency_sign c = false | [] => True end).
  { apply head_of_runs; [|assumption|].
    - eapply Forall_impl; [|exact Ha1]. apply space_not_currency.
    - eapply Forall_impl; [|exact Hp1']. apply price_not_currency. }
  assert (Hc2 : match a2 ++ rev p2 ++ z2 with
                | c :: _ => is_currency_sign c = false | [] => True end).
  { apply head_of_runs; [|assumption|].
    - eapply Forall_impl; [|exact Ha2]. apply space_not_currency.
    - eapply Forall_impl; [|exact Hp2']. apply price_not_currency. }
  assert (EX : a1 ++ rev p1 ++ z1 = a2 ++ rev p2 ++ z2).
  { rewrite E1 in E2. clear E1.
    destruct Hs1 as [-> | (c1 & -> & C1)], Hs2 as [-> | (c2 & -> & C2)];
      cbn [app] in E2.
    - exact E2.
    - rewrite E2 in Hc1. congruence.
    - rewrite <- E2 in Hc2. congruence.
    - now injection E2. }
  clear E1 E2 Hs1 Hs2 Hc1 Hc2.
  (* the white space after the price *)
  assert (Hh1 : match rev p1 ++ z1 with
                | c :: _ => is_space c = false | [] => True end).
  { apply head_of_run; [assumption|].
    eapply Forall_impl; [|exact Hp1']. apply price_not_space. }
  assert (Hh2 : match rev p2 ++ z2 with
                | c :: _ => is_space c = false | [] => True end).
  { apply head_of_run; [assumption|].
    eapply Forall_impl; [|exact Hp2']. apply price_not_space. }
  apply (f_equal (drop_while is_space)) in EX.
  rewrite (proj2 (span_unique is_space a1 _ Ha1 Hh1)),
    (proj2 (span_unique is_space a2 _ Ha2 Hh2)) in EX.
  clear Hh1 Hh2.
  (* the price *)
  assert (Hz1 : match z1 with
                | c :: _ => is_price_char c = false | [] => True end).
  { unfold z1. apply head_of_run; [assumption|].
    eapply Forall_impl; [|exact Hg1']. apply space_not_price. }
  assert (Hz2 : match z2 with
                | c :: _ => is_price_char c = false | [] => True end).
  { unfold z2. apply head_of_run; [assumption|].
    eapply Forall_impl; [|exact Hg2']. apply space_not_price. }
  pose proof (span_unique is_price_char _ _ Hp1' Hz1) as [T1 D1].
  pose proof (span_unique is_price_char _ _ Hp2' Hz2) as [T2 D2].
  rewrite EX in T1, D1. rewrite T2 in T1. rewrite D2 in D1.
  split.
  - rewrite <- (rev_involutive p1), <- (rev_involutive p2). now f_equal.
  - unfold z1, z2 in D1. rewrite <- !rev_app_distr in D1.
    rewrite <- (rev_involutive (t1 ++ g1)), <- (rev_involutive (t2 ++ g2)).
    now f_equal.
Qed.

Lemma drop_while_run (p : codeunit -> bool) (u v : jsstring) :
  Forall (fun c => p c = true) u -> drop_while p (u ++ v) = drop_while p v.
Proof.
  intros Hu. induction Hu as [|c u Hc _ IH]; [reflexivity|].
  cbn. now rewrite Hc.
Qed.

Lemma drop_while_kept (p : codeunit -> bool) (t b : jsstring) c d :
  drop_while p t = c :: d -> drop_while p (t ++ b) = (c :: d) ++ b.
Proof.
  induction t as [|a t IH]; cbn; [discriminate|].
  destruct (p a); [exact IH|]. intros [= -> ->]. reflexivity.
Qed.

Lemma drop_while_none (p : codeunit -> bool) (t : jsstring) :
  drop_while p t = [] -> Forall (fun c => p c = true) t.
Proof.
  induction t as [|a t IH]; cbn; [constructor|].
  destruct (p a) eqn:E; [|discriminate]. intros H. constructor; auto.
Qed.

(** White space at the end of a text is trimmed away. *)
Lemma trim_app_blank (t ws : jsstring) :
  Forall (fun c => is_space c = true) ws -> trim (t ++ ws) = trim t.
Proof.
  intros Hws. unfold trim.
  destruct (drop_while is_space t) as [|c d] eqn:E.
  - apply drop_while_none in E. rewrite (drop_while_run _ _ _ E).
    rewrite <- (app_nil_r ws), (drop_while_run _ _ _ Hws). reflexivity.
  - rewrite (drop_while_kept _ _ ws _ _ E), rev_app_distr.
    rewrite drop_while_run by (now apply Forall_rev). reflexivity.
Qed.

(** A text that ends in a price is one that the pattern matches, at any
    place. *)
Lemma ends_in_price_matches (s text gap price : jsstring) (pos : nat) :
  ends_in_price s text gap price ->
  exists cs, matches priceLineRegex pos s [] cs.
Proof.
  intros [(gap' & sign & -> & Hg' & Hsign) [Ht0 Ht] [Hg0 Hg] [Hp0 Hp]].
  rewrite <- (app_nil_r sign).
  unfold priceLineRegex. cbn [seq_of]. eexists.
  eapply M_seq.
  { apply M_group, plus_chr_matches; [exact Ht0|].
    eapply Forall_impl; [|exact Ht]. intros c Hc. cbn. now rewrite Hc. }
  eapply M_seq. { apply plus_chr_matches; assumption. }
  eapply M_seq. { apply M_group, plus_chr_matches; assumption. }
  eapply M_seq. { apply star_chr_matches; assumption. }
  eapply M_seq; [|apply M_eol].
  apply M_group. destruct Hsign as [-> | (c & -> & Hc)].
  - apply M_alt_r, M_eps.
  - apply M_alt_l, M_chr. exact Hc.
Qed.

(** Two parts of one line that begin at the same place. *)
Lemma same_place (a1 s1 a2 s2 : jsstring) :
  a1 ++ s1 = a2 ++ s2 -> length a1 = length a2 -> s1 = s2.
Proof.
  intros E Hlen. apply (f_equal (skipn (length a1))) in E.
  rewrite Hlen in E at 2.
  rewrite !skipn_app, !skipn_all, !Nat.sub_diag in E. exact E.
Qed.

(** The price of a line and the trimmed text in front of it are
    determined. *)
Lemma price_line_unique (line b1 t1 g1 p1 b2 t2 g2 p2 : jsstring) :
  price_line line b1 t1 g1 p1 -> price_line line b2 t2 g2 p2 ->
  trim t1 = trim t2 /\ p1 = p2.
Proof.
  intros [(s1 & E1 & H1) L1] [(s2 & E2 & H2) L2].
  pose proof (L1 _ _ _ _ _ E2 H2). pose proof (L2 _ _ _ _ _ E1 H1).
  assert (E : s1 = s2).
  { apply (same_place b1 s1 b2 s2); [congruence | lia]. }
  subst s2. destruct (ends_in_price_unique _ _ _ _ _ _ _ H1 H2) as [Hp Ht].
  split; [|exact Hp].
  rewrite <- (trim_app_blank t1 g1), <- (trim_app_blank t2 g2), Ht;
    [reflexivity | apply H2 | apply H1].
Qed.

End PriceShape.

Section LineItems.
Local Open Scope nat_scope.

(** The two groups the callback reads, in a line the pattern matches. *)
Lemma priceLine_groups (s : jsstring) (m : match_array) :
  exec priceLineRegex s = Some m ->
  exists before text gap price,
    price_line s before text gap price
    /\ group_text m 1 = text /\ group_text m 2 = price.
Proof.
  intros H. destruct (exec_sound _ _ _ H)
    as (pre & w & rest & cs & E & Hm & _ & Hgroup & Hleft).
  destruct (priceLine_matches _ _ _ _ Hm)
    as (text & gap & price & gap' & sign & -> & -> & Hc1 & Hc2
        & Ht & Hg & Hp & Hg' & Hs).
  rewrite app_nil_r in E.
  exists pre, text, gap, price. split; [|split].
  - split.
    + eexists. split; [exact E|]. constructor; auto.
      exists gap', sign. auto.
    + intros before' s' text' gap1 price' E' H'.
      destruct (Nat.le_gt_cases (length pre) (length before'))
        as [Hle|Hlt]; [exact Hle | exfalso].
      destruct (ends_in_price_matches _ _ _ _ (length before') H')
        as [cs' Hm'].
      apply (Hleft before' s' [] cs'); [|exact Hlt|exact Hm'].
      now rewrite app_nil_r.
  - unfold group_text. rewrite Hgroup, Hc1, E. now apply substring_at.
  - unfold group_text. rewrite Hgroup, Hc2, E.
    replace (pre ++ text ++ gap ++ price ++ gap' ++ sign)
      with ((pre ++ text ++ gap) ++ price ++ (gap' ++ sign))
      by (rewrite <- !app_assoc; reflexivity).
    apply substring_at; rewrite !length_app; lia.
Qed.

End LineItems.

Section Trimming.

Lemma drop_while_head (p : codeunit -> bool) (s : jsstring) :
  match drop_while p s with
  | c :: _ => p c = false
  | [] => True
  end.
Proof.
  induction s as [|c t IH]; cbn; [exact I|].
  destruct (p c) eqn:E; [exact IH | exact E].
Qed.

Lemma drop_while_fixed (p : codeunit -> bool) (s : jsstring) :
  match s with c :: _ => p c = false | [] => True end ->
  drop_while p s = s.
Proof. destruct s as [|c t]; cbn; [reflexivity|]. now intros ->. Qed.

(** Dropping from the end keeps a head that is not dropped. *)
Lemma drop_end_head (p : codeunit -> bool) (s : jsstring) :
  match s with c :: _ => p c = false | [] => True end ->
  match rev (drop_while p (rev s)) with
  | c :: _ => p c = false
  | [] => True
  end.
Proof.
  destruct s as [|c t]; [intros _; exact I|]. intros Hc.
  assert (H : forall l, exists l', rev (drop_while p (rev (c :: l))) = c :: l').
  { intros l. induction l as [|d l IH] using rev_ind.
    - cbn. rewrite Hc. cbn. eauto.
    - rewrite app_comm_cons, rev_app_distr.
      change (rev [d]) with [d]. cbn [app].
      remember (rev (c :: l)) as X eqn:EX.
      cbn [drop_while]. destruct (p d).
      + exact IH.
      + cbn [rev]. rewrite EX, rev_involutive. cbn. eauto. }
  destruct (H t) as [l' ->]. exact Hc.
Qed.

(** [trim] leaves no white space at either end: trimming again changes
    nothing. *)
Lemma trim_trim (s : jsstring) : trim (trim s) = trim s.
Proof.
  unfold trim at 1.
  assert (H1 : drop_while is_space (trim s) = trim s).
  { apply drop_while_fixed. unfold trim. apply drop_end_head.
    apply drop_while_head. }
  rewrite H1. unfold trim at 1. rewrite rev_involutive.
  rewrite drop_while_fixed; [reflexivity|]. apply drop_while_head.
Qed.

End Trimming.

Section Keywords.
Local Open Scope nat_scope.

Lemma word_i_matches (word : String.string) pos (w rest : jsstring) :
  same_letters w (lit word) -> matches (word_i word) pos w rest [].
Proof.
  unfold same_letters, word_i. intros H.
  rewrite <- map_map with (g := Chr). apply classes_matches.
  generalize dependent (lit word). clear word.
  induction w as [|c w IH]; intros [|p l] H; try discriminate; constructor.
  - cbn in H. injection H as H _. unfold eq_ignore_case.
    rewrite H. apply N.eqb_refl.
  - apply IH. cbn in H. now injection H.
Qed.

Lemma matches_word_i (word : String.string) pos (w rest : jsstring) cs :
  matches (word_i word) pos w rest cs -> same_letters w (lit word) /\ cs = [].
Proof.
  unfold same_letters, word_i. rewrite <- map_map with (g := Chr).
  intros H. apply matches_classes in H. destruct H as [H ->].
  split; [|reflexivity]. generalize dependent (lit word). clear word.
  intros l. revert w. induction l as [|p l IH]; intros w H; cbn [map] in H.
  - inversion H. reflexivity.
  - inversion H as [|? c ? w' Hc Hw]; subst. cbn. f_equal; [|now apply IH].
    unfold eq_ignore_case in Hc. apply N.eqb_eq in Hc. now symmetry.
Qed.

(** A text in which the summary pattern finds nothing holds none of the
    summary words. *)
Lemma no_summary_word (desc : jsstring) :
  test summaryKeyword desc = false ->
  forall kw w, In kw summary_words -> same_letters w kw ->
               ~ occurs_in w desc.
Proof.
  intros Htest kw w Hkw Hw (pre & rest & E).
  assert (Hm : matches summaryKeyword (length pre) w rest []).
  { unfold summaryKeyword. cbn [alt_of].
    cbn [summary_words In] in Hkw.
    destruct Hkw as [<-|[<-|[<-|[<-|[<-|[]]]]]].
    - apply M_alt_l. now apply word_i_matches.
    - apply M_alt_r, M_alt_l. now apply word_i_matches.
    - do 2 apply M_alt_r. apply M_alt_l. now apply word_i_matches.
    - do 3 apply M_alt_r. apply M_alt_l. now apply word_i_matches.
    - do 4 apply M_alt_r. now apply word_i_matches. }
  assert (Ht : test summaryKeyword desc = true).
  { apply test_spec. exists pre, w, rest, []. auto. }
  congruence.
Qed.

End Keywords.

(** ** The items of the fallback parser *)

(** The text of a line's price begins where the first such part of the
    line begins: in ["AB 12"] it is ["AB"], and ["B"] is no reading of
    it. *)
Lemma later_start_is_no_price_line :
  ~ price_line (lit "AB 12") (lit "A") (lit "B") (lit " ") (lit "12").
Proof.
  intros [_ L].
  assert (H : ends_in_price (lit "AB 12") (lit "AB") (lit " ") (lit "12")).
  { constructor.
    - exists [], []. repeat split; auto.
    - split; [discriminate | repeat constructor].
    - split; [discriminate | repeat constructor].
    - split; [discriminate | repeat constructor]. }
  specialize (L [] _ _ _ _ eq_refl H). cbn in L. lia.
Qed.

(** A line break other than a new line may come before it: the description
    of the item of ["X\rAB 12"] is ["AB"]. *)
Lemma line_item_after_break :
  option_map description (line_item (lit "X" ++ [13%N] ++ lit "AB 12"))
  = Some (lit "AB").
Proof. vm_compute. reflexivity. Qed.

(** X1. An item comes from a line that, without a pipe at either end, has a
    part that consists of some text without line breaks, white space, a run
    of digits, commas and points, and then only white space and at most one
    currency sign, up to the end of the line.  Of the first such part of
    the line, however it is read, the text trimmed is the description of
    the item, and the run is its price, as [parseFloat] reads it once its
    first comma is a point. *)
Theorem line_item_shape (line : jsstring) (item : ReceiptItem) :
  line_item line = Some item ->
  (exists before text gap price,
      price_line (clean_line line) before text gap price)
  /\ (forall before text gap price,
        price_line (clean_line line) before text gap price ->
        description item = trim text
        /\ totalPrice item = parseFloat (replace_first 44%N 46%N price)).
Proof.
  unfold line_item. fold (clean_line line).
  destruct (exec priceLineRegex (clean_line line)) as [m|] eqn:Hexec;
    [|discriminate].
  destruct (priceLine_groups _ _ Hexec)
    as (before0 & text0 & gap0 & price0 & Hline & <- & <-).
  destruct (test summaryKeyword _); [discriminate|].
  destruct (negb _ && gt _ _); [|discriminate].
  intros [= <-]. split.
  - exists before0, (group_text m 1), gap0, (group_text m 2). exact Hline.
  - intros before text gap price H.
    destruct (price_line_unique _ _ _ _ _ _ _ _ _ Hline H) as [-> ->].
    cbn [description totalPrice]. auto.
Qed.

Lemma line_item_shape_witness :
  (exists before text gap price,
      price_line (clean_line Scenario.item_line) before text gap price)
  /\ (forall before text gap price,
        price_line (clean_line Scenario.item_line) before text gap price ->
        description Scenario.expected_item = trim text
        /\ totalPrice Scenario.expected_item
           = parseFloat (replace_first 44%N 46%N price)).
Proof.
  apply (line_item_shape Scenario.item_line Scenario.expected_item).
  vm_compute. reflexivity.
Defined.

(** X2. Every item taken from a line has the quantity 1, a unit price equal
    to its total price, the rate 20 and the category ["General"]; its
    description has no white space at either end and holds none of the words
    of a summary line, in whatever case. *)
Theorem matched_items_uniform (text : jsstring) :
  Forall (fun item =>
            quantity item = 1%float
            /\ unitPrice item = totalPrice item
            /\ vatRate item = Some 20%float
            /\ category item = Some (lit "General")
            /\ trim (description item) = description item
            /\ (forall kw w, In kw summary_words -> same_letters w kw ->
                             ~ occurs_in w (description item)))
         (matched_items text).
Proof.
  unfold matched_items.
  induction (slice_from_to_last 1 3 (nonblank_lines text)) as [|line rest IH];
    cbn [scan_lines]; [constructor|].
  destruct (line_item line) as [item|] eqn:Hline; [|exact IH].
  constructor; [|exact IH]. clear IH.
  unfold line_item in Hline.
  destruct (exec priceLineRegex _) as [m|]; [|discriminate].
  destruct (test summaryKeyword _) eqn:Htest; [discriminate|].
  destruct (negb _ && gt _ _); [|discriminate].
  injection Hline as <-.
  cbn [quantity unitPrice totalPrice vatRate category description].
  repeat split; auto using trim_trim.
  now apply no_summary_word.
Qed.

(** X3. The first line that is not blank and the last three never give an
    item: the items are at most as many as such lines less four, and a text
    of up to four of them gives none, so that the record has the one
    placeholder item, priced at the total. *)
Theorem scanned_lines_bound (text : jsstring) :
  (length (matched_items text) <= length (nonblank_lines text) - 4)%nat
  /\ ((length (nonblank_lines text) <= 4)%nat ->
      items (parseViaRegex text)
      = Some [placeholder_item (total (parseViaRegex text))]).
Proof.
  assert (Hscan : forall lines, (length (scan_lines lines) <= length lines)%nat).
  { induction lines as [|line rest IH]; cbn; [lia|].
    destruct (line_item line); cbn; lia. }
  assert (Hlen : (length (matched_items text)
                  <= length (nonblank_lines text) - 4)%nat).
  { unfold matched_items, slice_from_to_last.
    eapply Nat.le_trans; [apply Hscan|].
    rewrite length_skipn, length_firstn. lia. }
  split; [exact Hlen|]. intros Hshort.
  unfold parseViaRegex.
  destruct (matched_items text) as [|item rest]; [reflexivity|].
  cbn [length] in Hlen. lia.
Qed.

(** ** The text of a price *)

Section Prefixes.

Lemma take_while_app (p : codeunit -> bool) (a rest : jsstring) :
  Forall (fun c => p c = true) a ->
  match rest with c :: _ => p c = false | [] => True end ->
  take_while p (a ++ rest) = a /\ drop_while p (a ++ rest) = rest.
Proof.
  intros Ha Hrest. induction Ha as [|c a Hc _ IH]; cbn [app].
  - destruct rest as [|c t]; [split; reflexivity|].
    cbn. rewrite Hrest. split; reflexivity.
  - cbn. rewrite Hc. destruct IH as [-> ->]. split; reflexivity.
Qed.

Lemma take_while_all (p : codeunit -> bool) (a : jsstring) :
  Forall (fun c => p c = true) a ->
  take_while p a = a /\ drop_while p a = [].
Proof.
  intros Ha. rewrite <- (app_nil_r a) at 1 3. now apply take_while_app.
Qed.

Lemma digit_not_space (c : codeunit) : is_digit c = true -> is_space c = false.
Proof.
  unfold is_digit, is_space. rewrite andb_true_iff, !N.leb_le.
  intros [H1 H2].
  repeat match goal with
         | |- context [(?a <=? ?b)%N] =>
             destruct (N.leb_spec a b); try lia
         | |- context [(?a =? ?b)%N] =>
             destruct (N.eqb_spec a b); try lia
         end; reflexivity.
Qed.

Lemma replace_first_app (a rest : jsstring) (x y : codeunit) :
  Forall (fun c => (c =? x)%N = false) a ->
  replace_first x y (a ++ x :: rest) = a ++ y :: rest.
Proof.
  induction 1 as [|c a Hc _ IH]; cbn [app replace_first].
  - now rewrite N.eqb_refl.
  - now rewrite Hc, IH.
Qed.

Lemma replace_first_none (a : jsstring) (x y : codeunit) :
  Forall (fun c => (c =? x)%N = false) a -> replace_first x y a = a.
Proof.
  induction 1 as [|c a Hc _ IH]; cbn [replace_first]; [reflexivity|].
  now rewrite Hc, IH.
Qed.

End Prefixes.

Section PriceTexts.

Lemma parseFloat_decimal (a b rest : jsstring) :
  all_digits a -> all_digits b -> a ++ b <> [] ->
  match rest with c :: _ => is_digit c = false | [] => True end ->
  parseFloat (a ++ 46%N :: b ++ rest) = decimal_number a b.
Proof.
  intros Ha Hb Hne Hrest. unfold parseFloat, decimal_number.
  assert (Hs : drop_while is_space (a ++ 46%N :: b ++ rest)
               = a ++ 46%N :: b ++ rest).
  { apply drop_while_fixed. destruct Ha as [|c a Hc _]; [reflexivity|].
    now apply digit_not_space. }
  rewrite Hs.
  destruct (take_while_app is_digit a (46%N :: b ++ rest) Ha eq_refl)
    as [-> ->].
  destruct (take_while_app is_digit b rest Hb Hrest) as [-> _].
  destruct (a ++ b) eqn:E; [contradiction | reflexivity].
Qed.

Lemma parseFloat_decimal_end (a b : jsstring) :
  all_digits a -> all_digits b -> a ++ b <> [] ->
  parseFloat (a ++ 46%N :: b) = decimal_number a b.
Proof.
  intros Ha Hb Hne. rewrite <- (app_nil_r b) at 1.
  now apply parseFloat_decimal.
Qed.

Lemma digits_no (x : codeunit) (a : jsstring) :
  (x <? 48)%N = true -> all_digits a -> Forall (fun c => (c =? x)%N = false) a.
Proof.
  intros Hx Ha. eapply Forall_impl; [|exact Ha]. intros c Hc.
  unfold is_digit in Hc. apply andb_true_iff in Hc. destruct Hc as [H1 _].
  apply N.leb_le in H1. apply N.ltb_lt in Hx. apply N.eqb_neq. lia.
Qed.

(** X4. How the text of a price is read: the first comma counts as the
    decimal point, and reading stops at a second point or comma. So ["a,b"]
    is read as [a.b], but a price with a point for the thousands, ["a.b,c"],
    is read as [a.b] as well, and so is ["a,b,c"]. *)
Theorem price_text_reading (a b c : jsstring) :
  all_digits a -> all_digits b -> all_digits c -> a ++ b <> [] ->
  parseFloat (replace_first 44%N 46%N (a ++ 44%N :: b)) = decimal_number a b
  /\ parseFloat (replace_first 44%N 46%N (a ++ 46%N :: b ++ 44%N :: c))
     = decimal_number a b
  /\ parseFloat (replace_first 44%N 46%N (a ++ 44%N :: b ++ 44%N :: c))
     = decimal_number a b.
Proof.
  intros Ha Hb Hc Hne.
  pose proof (digits_no 44%N a eq_refl Ha) as Ha'.
  pose proof (digits_no 44%N b eq_refl Hb) as Hb'.
  split; [|split].
  - etransitivity;
      [apply (f_equal parseFloat), replace_first_app; exact Ha'|].
    now apply parseFloat_decimal_end.
  - replace (a ++ 46%N :: b ++ 44%N :: c)
      with ((a ++ 46%N :: b) ++ 44%N :: c)
      by (rewrite <- app_assoc; reflexivity).
    etransitivity.
    + apply (f_equal parseFloat).
      apply (replace_first_app (a ++ 46%N :: b) c 44%N 46%N).
      apply Forall_app. split; [exact Ha'|].
      constructor; [reflexivity | exact Hb'].
    + rewrite <- app_assoc. now apply parseFloat_decimal.
  - etransitivity;
      [apply (f_equal parseFloat), replace_first_app; exact Ha'|].
    now apply parseFloat_decimal.
Qed.

Lemma price_text_reading_witness :
  parseFloat (replace_first 44%N 46%N (lit "12,50")) = 12.5%float
  /\ parseFloat (replace_first 44%N 46%N (lit "1.234,56")) = 1.234%float.
Proof.
  split.
  - destruct (price_text_reading (lit "12") (lit "50") []) as (H & _);
      [repeat constructor.. | discriminate |].
    etransitivity; [exact H | vm_compute; reflexivity].
  - destruct (price_text_reading (lit "1") (lit "234") (lit "56"))
      as (_ & H & _); [repeat constructor.. | discriminate |].
    etransitivity; [exact H | vm_compute; reflexivity].
Defined.

End PriceTexts.

(** ** The name of the merchant *)

Section MerchantName.
Local Open Scope nat_scope.

Lemma accept_total (rest : jsstring) (pos : nat) (caps : captures) :
  accept rest pos caps <> None.
Proof. discriminate. Qed.

Lemma run_star_accept (p : codeunit -> bool) (input : jsstring) (pos : nat)
  (caps : captures) :
  run (Star true (Chr p)) accept input pos caps
  = Some {| m_end := pos + length (take_while p input); m_caps := caps |}.
Proof. now rewrite run_star_greedy by apply accept_total. Qed.

Lemma remove_heading (line : jsstring) :
  remove_first headingMarkup line = strip_heading line.
Proof.
  unfold remove_first.
  assert (Hlater : forall s pos, search headingMarkup s (S pos) = None).
  { intros s pos. apply search_fails. intros pre s' _. reflexivity. }
  destruct line as [|c t]; [reflexivity|].
  cbn [search strip_heading].
  change (run headingMarkup accept (c :: t) 0 [])
    with (if is_heading_mark c
          then run (Star true (Chr is_heading_mark))
                 (run (Star true space) accept) t 1 []
          else None).
  destruct (is_heading_mark c) eqn:Hc.
  - rewrite run_star_greedy.
    2:{ intros rest pos caps. unfold space. rewrite run_star_accept.
        discriminate. }
    unfold space. rewrite run_star_accept. cbn [firstn app m_end].
    cbn [drop_while]. rewrite Hc.
    set (marks := take_while is_heading_mark t).
    set (after := drop_while is_heading_mark t).
    replace (skipn (1 + length marks + length (take_while is_space after))
               (c :: t))
      with (skipn (length (take_while is_space after))
              (skipn (length marks) t)).
    + unfold marks. rewrite skipn_take_while. fold after.
      apply skipn_take_while.
    + rewrite skipn_skipn. cbn [Nat.add skipn]. f_equal. lia.
  - rewrite Hlater. reflexivity.
Qed.

End MerchantName.

(** X5. The merchant's name is the first line that is not blank, without the
    heading marks ([#] and [*]) it begins with and the white space after
    them; a line that begins with anything else, white space included, is
    taken as it is. A text without such a line gives the empty name. *)
Theorem merchant_name_source (text : jsstring) :
  merchantName (parseViaRegex text)
  = match nonblank_lines text with
    | first :: _ => strip_heading first
    | [] => []
    end.
Proof.
  unfold parseViaRegex. cbn [merchantName].
  destruct (nonblank_lines text) as [|first rest]; [reflexivity|].
  apply remove_heading.
Qed.

(** ** The total of the fallback parser: the pattern *)

Section TotalPattern.
Local Open Scope nat_scope.

Lemma take_drop_while (p : codeunit -> bool) (s : jsstring) :
  s = take_while p s ++ drop_while p s
  /\ Forall (fun c => p c = true) (take_while p s).
Proof.
  induction s as [|c t [IH1 IH2]]; cbn; [auto|].
  destruct (p c) eqn:Hc; cbn; [|auto].
  split; [now f_equal | now constructor].
Qed.

(** A greedy repetition of a class before a continuation that fails on
    the characters of the class takes all of them, too. *)
Lemma run_star_exclusive (p : codeunit -> bool) (k : cont) :
  (forall c t pos caps, p c = true -> k (c :: t) pos caps = None) ->
  forall input pos caps,
    run (Star true (Chr p)) k input pos caps
    = k (drop_while p input) (pos + length (take_while p input)) caps.
Proof.
  intros Hk input pos caps. rewrite run_star.
  assert (H : forall fuel input pos, length input <= fuel ->
            star_loop (run (Chr p)) k true fuel input pos caps
            = k (drop_while p input) (pos + length (take_while p input)) caps).
  { clear input pos. induction fuel as [|fuel IH]; intros input pos Hlen.
    - destruct input; [|cbn in Hlen; lia]. cbn. now rewrite Nat.add_0_r.
    - cbn [star_loop]. destruct input as [|c t].
      + cbn. now rewrite Nat.add_0_r.
      + cbn [run drop_while take_while]. destruct (p c) eqn:Hc.
        * destruct (Nat.eqb (S pos) pos) eqn:E;
            [apply Nat.eqb_eq in E; lia|].
          rewrite IH by (cbn in Hlen; lia). cbn [length].
          replace (S pos + length (take_while p t))
            with (pos + S (length (take_while p t))) by lia.
          destruct (k _ _ caps) eqn:E'; [reflexivity|].
          now apply Hk.
        * cbn. now rewrite Nat.add_0_r. }
  now apply H.
Qed.

Lemma run_seq (a b : regex) (k : cont) rest pos caps :
  run (Seq a b) k rest pos caps = run a (run b k) rest pos caps.
Proof. reflexivity. Qed.

Lemma run_chr (p : codeunit -> bool) (k : cont) rest pos caps :
  run (Chr p) k rest pos caps
  = match rest with
    | c :: t => if p c then k t (S pos) caps else None
    | [] => None
    end.
Proof. reflexivity. Qed.

Lemma run_group (i : nat) (a : regex) (k : cont) rest pos caps :
  run (Group i a) k rest pos caps
  = run a (fun rest' pos' caps' => k rest' pos' ((i, (pos, pos')) :: caps'))
      rest pos caps.
Proof. reflexivity. Qed.

(** The end of the pattern, [\s*([$€₺]?)], always matches, and leaves the
    first group as it was. *)
Lemma total_tail (rest : jsstring) (pos : nat) (caps : captures) :
  exists res,
    run (Seq (Star true space)
             (Group 2 (opt (one_of [36; 8364; 8378]%N)))) accept rest pos caps
    = Some res
    /\ capture 1 (m_caps res) = capture 1 caps.
Proof.
  assert (Hg : forall rest pos caps, exists res,
            run (Group 2 (opt (one_of [36; 8364; 8378]%N))) accept rest pos caps
            = Some res /\ capture 1 (m_caps res) = capture 1 caps).
  { clear. intros rest pos caps. cbn [run opt one_of].
    destruct rest as [|c t]; [eexists; split; reflexivity|].
    destruct (existsb (N.eqb c) [36; 8364; 8378]%N);
      eexists; split; reflexivity. }
  rewrite run_seq. unfold space. rewrite run_star_greedy.
  - apply Hg.
  - intros rest' pos' caps'. destruct (Hg rest' pos' caps') as (res & -> & _).
    discriminate.
Qed.

(** From the amount on: the pattern takes the digits, commas and points
    that are there, at least one. *)
Lemma total_amount (input : jsstring) (pos : nat) (caps : captures) :
  let amount := take_while is_price_char input in
  match amount with
  | [] =>
      run (Seq (Group 1 (plus true (Chr is_price_char)))
               (Seq (Star true space)
                    (Group 2 (opt (one_of [36; 8364; 8378]%N)))))
        accept input pos caps = None
  | _ :: _ =>
      exists res,
        run (Seq (Group 1 (plus true (Chr is_price_char)))
                 (Seq (Star true space)
                      (Group 2 (opt (one_of [36; 8364; 8378]%N)))))
          accept input pos caps = Some res
        /\ capture 1 (m_caps res) = Some (pos, pos + length amount)
  end.
Proof.
  cbv zeta. destruct input as [|c t]; [reflexivity|].
  cbn [take_while]. destruct (is_price_char c) eqn:Hc.
  - rewrite run_seq, run_group. unfold plus. rewrite run_seq, run_chr, Hc.
    rewrite run_star_greedy.
    + match goal with
      | |- exists res, run ?r accept ?rest ?p ?cs = _ /\ _ =>
          destruct (total_tail rest p cs) as (res & Hres & Hcap)
      end.
      exists res. split; [exact Hres|]. rewrite Hcap. cbn [capture Nat.eqb].
      cbn [length]. do 2 f_equal. lia.
    + intros rest' pos' caps'.
      match goal with
      | |- run ?r accept ?rest ?p ?cs <> None =>
          destruct (total_tail rest p cs) as (res & Hres & _)
      end.
      rewrite Hres. discriminate.
  - rewrite run_seq, run_group. unfold plus. rewrite run_seq, run_chr, Hc.
    reflexivity.
Qed.

Lemma sep_not_price (c : codeunit) :
  is_total_sep c = true -> is_price_char c = false.
Proof.
  unfold is_total_sep, is_price_char, is_space, is_digit.
  rewrite !orb_true_iff, !andb_true_iff, !N.leb_le, !N.eqb_eq.
  intros H.
  repeat match goal with
         | |- context [(?a <=? ?b)%N] =>
             destruct (N.leb_spec a b); try lia
         | |- context [(?a =? ?b)%N] =>
             destruct (N.eqb_spec a b); try lia
         end; reflexivity.
Qed.

(** After the word: separators, then the amount. *)
Lemma total_after (after : jsstring) (pos : nat) (caps : captures) :
  match amount_after after with
  | [] =>
      run (Seq (Star true (Chr is_total_sep))
               (Seq (Group 1 (plus true (Chr is_price_char)))
                    (Seq (Star true space)
                         (Group 2 (opt (one_of [36; 8364; 8378]%N))))))
        accept after pos caps = None
  | _ :: _ =>
      exists res,
        run (Seq (Star true (Chr is_total_sep))
                 (Seq (Group 1 (plus true (Chr is_price_char)))
                      (Seq (Star true space)
                           (Group 2 (opt (one_of [36; 8364; 8378]%N))))))
          accept after pos caps = Some res
        /\ capture 1 (m_caps res)
           = Some (pos + length (take_while is_total_sep after),
                   pos + length (take_while is_total_sep after)
                   + length (amount_after after))
  end.
Proof.
  unfold amount_after.
  set (tail := Seq (Group 1 (plus true (Chr is_price_char)))
                 (Seq (Star true space)
                    (Group 2 (opt (one_of [36; 8364; 8378]%N))))).
  assert (E : run (Seq (Star true (Chr is_total_sep)) tail) accept after pos caps
              = run tail accept (drop_while is_total_sep after)
                  (pos + length (take_while is_total_sep after)) caps).
  { change (run (Seq (Star true (Chr is_total_sep)) tail) accept after pos caps)
      with (run (Star true (Chr is_total_sep)) (run tail accept) after pos caps).
    apply run_star_exclusive. intros c t pos' caps' Hc.
    pose proof (total_amount (c :: t) pos' caps') as H. cbv zeta in H.
    cbn [take_while] in H. rewrite (sep_not_price c Hc) in H. exact H. }
  pose proof (total_amount (drop_while is_total_sep after)
                (pos + length (take_while is_total_sep after)) caps) as H.
  cbv zeta in H. fold tail in H.
  destruct (take_while is_price_char (drop_while is_total_sep after));
    rewrite E; exact H.
Qed.

Lemma search_none_run (r : regex) (s : jsstring) :
  forall pos, search r s pos = None ->
    forall pre s', s = pre ++ s' ->
                   run r accept s' (pos + length pre) [] = None.
Proof.
  induction s as [|c t IH]; intros pos H pre s' E; cbn [search] in H.
  - destruct pre; [|discriminate]. cbn [app] in E. subst s'.
    cbn [length]. rewrite Nat.add_0_r.
    destruct (run r accept [] pos []); [discriminate | reflexivity].
  - destruct (run r accept (c :: t) pos []) eqn:Hrun; [discriminate|].
    destruct pre as [|c' pre]; cbn [app length] in *.
    + subst s'. now rewrite Nat.add_0_r.
    + injection E as <- E.
      replace (pos + S (length pre)) with (S pos + length pre) by lia.
      now apply IH.
Qed.

Lemma total_keyword (pos : nat) (w rest : jsstring) (cs : captures) :
  matches (alt_of [word_i "TOPLAM"; word_i "TOTAL"; word_i "TUTAR";
                   word_i "AMOUNT"]) pos w rest cs ->
  (exists word, In word total_words /\ same_letters w word) /\ cs = [].
Proof.
  cbn [alt_of]. intros H.
  repeat (apply matches_alt in H; destruct H as [H|H]);
    apply matches_word_i in H; destruct H as [H ->];
    (split; [|reflexivity]); eexists; (split; [|exact H]);
    cbn [total_words In]; auto.
Qed.

Lemma keyword_total (pos : nat) (w rest : jsstring) :
  (exists word, In word total_words /\ same_letters w word) ->
  matches (alt_of [word_i "TOPLAM"; word_i "TOTAL"; word_i "TUTAR";
                   word_i "AMOUNT"]) pos w rest [].
Proof.
  intros (word & Hin & Hw). cbn [alt_of]. cbn [total_words In] in Hin.
  destruct Hin as [<-|[<-|[<-|[<-|[]]]]].
  - apply M_alt_l. now apply word_i_matches.
  - apply M_alt_r, M_alt_l. now apply word_i_matches.
  - do 2 apply M_alt_r. apply M_alt_l. now apply word_i_matches.
  - do 3 apply M_alt_r. now apply word_i_matches.
Qed.

Lemma totalRegex_seq :
  totalRegex
  = Seq (alt_of [word_i "TOPLAM"; word_i "TOTAL"; word_i "TUTAR";
                 word_i "AMOUNT"])
        (Seq (Star true (Chr is_total_sep))
             (Seq (Group 1 (plus true (Chr is_price_char)))
                  (Seq (Star true space)
                       (Group 2 (opt (one_of [36; 8364; 8378]%N)))))).
Proof. reflexivity. Qed.

(** A run of the pattern of the total that succeeds has read a word of the
    total and the amount after it. *)
Lemma total_run (s : jsstring) (pos : nat) (res : match_result) :
  run totalRegex accept s pos [] = Some res ->
  exists kw after,
    s = kw ++ after
    /\ (exists word, In word total_words /\ same_letters kw word)
    /\ amount_after after <> []
    /\ capture 1 (m_caps res)
       = Some (pos + length kw + length (take_while is_total_sep after),
               pos + length kw + length (take_while is_total_sep after)
               + length (amount_after after)).
Proof.
  rewrite totalRegex_seq, run_seq. intros H.
  apply run_sound in H. destruct H as (kw & after & cs & -> & Hm & Hk).
  apply total_keyword in Hm. destruct Hm as [Hw ->]. cbn [app] in Hk.
  exists kw, after. split; [reflexivity|]. split; [exact Hw|].
  pose proof (total_after after (pos + length kw) []) as Ha.
  destruct (amount_after after) as [|c t] eqn:Eam.
  - rewrite Ha in Hk. discriminate.
  - destruct Ha as (res' & Hr & Hcap). rewrite Hr in Hk.
    injection Hk as <-. split; [discriminate | exact Hcap].
Qed.

(** Where a word of the total stands with an amount after it, a run of
    the pattern succeeds. *)
Lemma total_found_run (kw after : jsstring) (pos : nat) :
  (exists word, In word total_words /\ same_letters kw word) ->
  amount_after after <> [] ->
  run totalRegex accept (kw ++ after) pos [] <> None.
Proof.
  intros Hw Ham. rewrite totalRegex_seq, run_seq.
  apply (proj1 (run_complete _ pos kw after [] (keyword_total pos kw after Hw))).
  intros caps.
  pose proof (total_after after (pos + length kw) caps) as Ha.
  destruct (amount_after after); [congruence|].
  destruct Ha as (res & -> & _). discriminate.
Qed.

End TotalPattern.

(** ** The total of the fallback parser *)

(** X6. The total is read at the first place of the text where one of the
    words TOPLAM, TOTAL, TUTAR and AMOUNT, in whatever case, is followed
    (after white space, colons and asterisks) by digits, commas or points:
    it is the number these characters read as, the first comma taken for the
    decimal point. Where there is no such place, or the number read is not
    above zero, the total is the sum of the prices of the items. *)
Theorem fallback_total_source (text : jsstring) :
  let items_sum :=
    fold_left (fun acc item => acc + totalPrice item)%float
      (matched_items text) 0%float in
  ((forall pre kw after, ~ total_found text pre kw after)
   /\ total (parseViaRegex text) = items_sum)
  \/ (exists pre kw after,
        total_found text pre kw after
        /\ (forall pre' kw' after',
              total_found text pre' kw' after' ->
              (length pre <= length pre')%nat)
        /\ let found :=
             parseFloat (replace_first 44%N 46%N (amount_after after)) in
           total (parseViaRegex text)
           = if gt found 0%float then found else items_sum).
Proof.
  cbv zeta. unfold parseViaRegex. cbn [total]. unfold exec.
  destruct (search totalRegex text 0) as [[start res]|] eqn:Hs.
  - right. apply search_run in Hs.
    destruct Hs as (pre & s' & E & -> & Hrun & Hleft).
    apply total_run in Hrun.
    destruct Hrun as (kw & after & -> & Hw & Ham & Hcap).
    exists pre, kw, after. split; [now repeat split|]. split.
    + intros pre' kw' after' (E' & Hw' & Ham').
      destruct (Nat.le_gt_cases (length pre) (length pre')) as [|Hlt];
        [assumption|].
      exfalso.
      apply (total_found_run kw' after' (0 + length pre') Hw' Ham').
      now apply (Hleft pre' (kw' ++ after')).
    + unfold group_text. cbn [group]. rewrite Hcap.
      destruct (take_drop_while is_total_sep after) as [Ea _].
      destruct (take_drop_while is_price_char (drop_while is_total_sep after))
        as [Eb _].
      fold (amount_after after) in Eb.
      assert (Esub : substring text
                (0 + length pre + length kw
                 + length (take_while is_total_sep after))
                (0 + length pre + length kw
                 + length (take_while is_total_sep after)
                 + length (amount_after after))
              = amount_after after).
      { rewrite E. rewrite Ea at 1. rewrite Eb at 1.
        replace (pre ++ kw ++ take_while is_total_sep after ++
                 amount_after after ++
                 drop_while is_price_char (drop_while is_total_sep after))
          with ((pre ++ kw ++ take_while is_total_sep after) ++
                amount_after after ++
                drop_while is_price_char (drop_while is_total_sep after))
          by (now rewrite <- !app_assoc).
        apply substring_at; rewrite !length_app; lia. }
      rewrite Esub. reflexivity.
  - left. split; [|reflexivity].
    intros pre kw after (E & Hw & Ham).
    apply (total_found_run kw after (0 + length pre) Hw Ham).
    now apply (search_none_run _ _ _ Hs pre (kw ++ after)).
Qed.

(** ** The date of the fallback parser: the pattern *)

Section DatePattern.
Local Open Scope nat_scope.

Variables p q : codeunit -> bool.

Local Abbreviation the_pattern :=
  (Alt
     (Group 1 (seq_of [Chr p; Chr p; Chr q; Chr p; Chr p; Chr q;
                       Chr p; Chr p; opt (Seq (Chr p) (opt (Chr p)))]))
     (Group 2 (seq_of [Chr p; Chr p; Chr p; Chr p; Chr q; Chr p; Chr p; Chr q;
                       Chr p; Chr p]))).

Local Abbreviation at_start s :=
  (if fits [p; p; q; p; p; q; p; p] (firstn 8 s) then
     Some (8 + length (take_while p (firstn 2 (skipn 8 s))))
   else if fits [p; p; p; p; q; p; p; q; p; p] (firstn 10 s) then Some 10
   else None).

Lemma pattern_run (s : jsstring) (pos : nat) :
  match at_start s with
  | Some n => exists res, run the_pattern accept s pos [] = Some res
                          /\ m_end res = pos + n
  | None => run the_pattern accept s pos [] = None
  end.
Proof.
  do 11 (destruct s as [|? s]; [cbn;
    repeat match goal with
           | |- context [p ?c] => destruct (p c) eqn:?; cbn
           | |- context [q ?c] => destruct (q c) eqn:?; cbn
           end;
    try reflexivity; eexists; (split; [reflexivity|cbn; lia])|]).
  cbn.
  repeat match goal with
         | |- context [p ?c] => destruct (p c) eqn:?; cbn
         | |- context [q ?c] => destruct (q c) eqn:?; cbn
         end;
    try reflexivity; eexists; (split; [reflexivity|cbn; lia]).
Qed.

Local Abbreviation shape w :=
  (fits [p; p; q; p; p; q; p; p] w
   || fits ([p; p; q; p; p; q; p; p] ++ [p]) w
   || fits ([p; p; q; p; p; q; p; p] ++ [p; p]) w
   || fits [p; p; p; p; q; p; p; q; p; p] w).

Hypothesis Hpq : forall c, p c = true -> q c = false.

Ltac conditions :=
  repeat (match goal with
          | H : q ?c = false |- context [q ?c] => rewrite H
          | |- context [p ?c] =>
              let E := fresh in
              destruct (p c) eqn:E; [pose proof (Hpq c E)|]
          | |- context [q ?c] => destruct (q c) eqn:?
          end; cbn).

Lemma at_start_shape (s : jsstring) (n : nat) :
  at_start s = Some n ->
  exists w rest, s = w ++ rest /\ length w = n /\ shape w = true.
Proof.
  do 8 (destruct s as [|? s]; [cbn; conditions; discriminate|]).
  do 2 (destruct s as [|? s]; [cbn; conditions; try discriminate;
    intros [= <-];
    match goal with
    | |- exists w rest, ?l = _ /\ length w = ?k /\ _ =>
        exists (firstn k l), (skipn k l)
    end;
    (split; [reflexivity|]); cbn;
    repeat match goal with H : _ = true |- _ => rewrite H end;
    repeat match goal with H : _ = false |- _ => rewrite H end;
    cbn; auto|]).
  cbn; conditions; try discriminate;
    intros [= <-];
    match goal with
    | |- exists w rest, ?l = _ /\ length w = ?k /\ _ =>
        exists (firstn k l), (skipn k l)
    end;
    (split; [reflexivity|]); cbn;
    repeat match goal with H : _ = true |- _ => rewrite H end;
    repeat match goal with H : _ = false |- _ => rewrite H end;
    cbn; auto.
Qed.

Lemma shape_at_start (w rest : jsstring) :
  shape w = true ->
  exists n, at_start (w ++ rest) = Some n /\ length w <= n.
Proof.
  do 11 (destruct w as [|? w]; [cbn; conditions; try discriminate;
    intros _; eexists; (split; [reflexivity|cbn; lia])|]).
  cbn. conditions; try discriminate; destruct w; discriminate.
Qed.

End DatePattern.

Section DateFacts.
Local Open Scope nat_scope.

Lemma digit_not_date_sep (c : codeunit) :
  is_digit c = true -> is_date_sep c = false.
Proof.
  unfold is_digit, is_date_sep. cbn [existsb].
  rewrite andb_true_iff, !N.leb_le. intros H.
  repeat match goal with
         | |- context [(?a =? ?b)%N] => destruct (N.eqb_spec a b); try lia
         end; reflexivity.
Qed.

Lemma date_run (s : jsstring) (pos : nat) :
  match date_at s with
  | Some n => exists res, run dateRegex accept s pos [] = Some res
                          /\ m_end res = pos + n
  | None => run dateRegex accept s pos [] = None
  end.
Proof. exact (pattern_run is_digit is_date_sep s pos). Qed.

Lemma date_at_shape (s : jsstring) (n : nat) :
  date_at s = Some n ->
  exists w rest, s = w ++ rest /\ length w = n /\ date_shape w = true.
Proof. exact (at_start_shape is_digit is_date_sep digit_not_date_sep s n). Qed.

Lemma date_shape_at (w rest : jsstring) :
  date_shape w = true ->
  exists n, date_at (w ++ rest) = Some n /\ length w <= n.
Proof. exact (shape_at_start is_digit is_date_sep digit_not_date_sep w rest). Qed.

End DateFacts.

(** ** The date of the fallback parser *)

(** X7. The date is the first text of the receipt that has the shape of a
    date: two digits, a separator, two digits, a separator and two to four
    digits, or four digits, a separator, two digits, a separator and two
    digits, the separators being points, slashes and hyphens. It is taken as
    it stands, in the longest form that is there, and is empty when the
    receipt has no text of that shape. *)
Theorem fallback_date_source (text : jsstring) :
  let d := date (parseViaRegex text) in
  (d = [] /\ forall pre w rest, text = pre ++ w ++ rest -> date_shape w = false)
  \/ (date_shape d = true
      /\ exists pre rest,
          text = pre ++ d ++ rest
          /\ (forall pre' w rest',
                text = pre' ++ w ++ rest' -> date_shape w = true ->
                (length pre <= length pre')%nat)
          /\ (forall w rest',
                d ++ rest = w ++ rest' -> date_shape w = true ->
                (length w <= length d)%nat)).
Proof.
  cbv zeta. unfold parseViaRegex. cbn [date]. unfold exec.
  destruct (search dateRegex text 0) as [[start res]|] eqn:Hs.
  - right. apply search_run in Hs.
    destruct Hs as (pre & s' & E & -> & Hrun & Hleft).
    pose proof (date_run s' (0 + length pre)) as Hd.
    destruct (date_at s') as [n|] eqn:Hat; [|congruence].
    destruct Hd as (res' & Hr & Hend). rewrite Hr in Hrun.
    injection Hrun as ->.
    destruct (date_at_shape _ _ Hat) as (w & rest & -> & Hlen & Hw).
    cbn [whole].
    assert (Ew : substring text (0 + length pre) (m_end res) = w).
    { rewrite E, Hend, <- Hlen. now apply substring_at. }
    rewrite Ew. split; [exact Hw|]. exists pre, rest.
    split; [exact E|]. split.
    + intros pre' w' rest' E' Hw'.
      destruct (Nat.le_gt_cases (length pre) (length pre')) as [|Hlt];
        [assumption|].
      exfalso. pose proof (Hleft pre' (w' ++ rest') E' Hlt) as Hnone.
      destruct (date_shape_at w' rest' Hw') as (n' & Hat' & _).
      pose proof (date_run (w' ++ rest') (0 + length pre')) as Hd'.
      rewrite Hat' in Hd'. destruct Hd' as (? & Hr' & _). congruence.
    + intros w' rest' E' Hw'.
      destruct (date_shape_at w' rest' Hw') as (n' & Hat' & Hle).
      rewrite <- E', Hat in Hat'. injection Hat' as <-. lia.
  - left. split; [reflexivity|]. intros pre w rest E.
    destruct (date_shape w) eqn:Hw; [exfalso|reflexivity].
    pose proof (search_none_run _ _ _ Hs pre (w ++ rest) E) as Hnone.
    destruct (date_shape_at w rest Hw) as (n & Hat & _).
    pose proof (date_run (w ++ rest) (0 + length pre)) as Hd.
    rewrite Hat in Hd. destruct Hd as (? & Hr & _). congruence.
Qed.

(** ** Texts of white space *)

Section BlankText.
Local Open Scope nat_scope.

Lemma drop_while_all (p : codeunit -> bool) (s : jsstring) :
  Forall (fun c => p c = true) s -> drop_while p s = [].
Proof. induction 1 as [|c t Hc _ IH]; cbn; [|rewrite Hc]; auto. Qed.

Lemma trim_blank (s : jsstring) : blank_text s -> trim s = [].
Proof. intros H. unfold trim. now rewrite (drop_while_all _ _ H). Qed.

Lemma split_on_blank (sep : codeunit) (s : jsstring) :
  blank_text s -> Forall blank_text (split_on sep s).
Proof.
  induction 1 as [|c t Hc Ht IH]; cbn [split_on].
  - repeat constructor.
  - destruct (N.eqb c sep).
    + constructor; [constructor | exact IH].
    + destruct (split_on sep t) as [|l ls]; [repeat constructor; exact Hc|].
      inversion IH; subst. constructor; [now constructor | assumption].
Qed.

Lemma nonblank_lines_blank (text : jsstring) :
  blank_text text -> nonblank_lines text = [].
Proof.
  intros H. unfold nonblank_lines.
  pose proof (split_on_blank 10%N text H) as Hl.
  induction Hl as [|l ls Hb _ IH]; cbn [filter]; [reflexivity|].
  now rewrite (trim_blank l Hb).
Qed.

Lemma blank_suffix (pre s : jsstring) :
  blank_text (pre ++ s) -> blank_text s.
Proof. intros H. apply Forall_app in H. tauto. Qed.

Lemma space_not_total_letter (c : codeunit) (word : jsstring) :
  In word total_words -> is_space c = true ->
  forall kw, same_letters (c :: kw) word -> False.
Proof.
  intros Hin Hc kw Hs. unfold same_letters in Hs.
  assert (Hu : upper_ascii c = 84%N \/ upper_ascii c = 65%N).
  { cbn [total_words In] in Hin.
    destruct Hin as [<-|[<-|[<-|[<-|[]]]]]; cbn in Hs; injection Hs; auto. }
  revert Hc Hu. unfold upper_ascii, is_space.
  rewrite !orb_true_iff, !andb_true_iff, !N.leb_le, !N.eqb_eq.
  destruct ((97 <=? c)%N && (c <=? 122)%N) eqn:E.
  - apply andb_prop in E. rewrite !N.leb_le in E. lia.
  - lia.
Qed.

Lemma total_blank (text : jsstring) :
  blank_text text -> exec totalRegex text = None.
Proof.
  intros H. unfold exec.
  rewrite (search_fails totalRegex text 0); [reflexivity|].
  intros pre s' E.
  destruct (run totalRegex accept s' (0 + length pre) []) eqn:Hrun;
    [exfalso|reflexivity].
  apply total_run in Hrun.
  destruct Hrun as (kw & after & -> & (word & Hin & Hw) & _).
  destruct kw as [|c kw].
  - cbn [total_words In] in Hin.
    destruct Hin as [<-|[<-|[<-|[<-|[]]]]]; discriminate.
  - rewrite E in H. apply blank_suffix in H. inversion H; subst.
    eapply space_not_total_letter; eauto.
Qed.

Lemma date_shape_digit (w : jsstring) :
  date_shape w = true -> exists c t, w = c :: t /\ is_digit c = true.
Proof.
  unfold date_shape, day_first, year_first.
  destruct w as [|c t]; [discriminate|].
  cbn [app fits]. intros H. exists c, t. split; [reflexivity|].
  destruct (is_digit c); [reflexivity|]. cbn in H. discriminate.
Qed.

Lemma date_blank (text : jsstring) :
  blank_text text -> exec dateRegex text = None.
Proof.
  intros H. unfold exec.
  rewrite (search_fails dateRegex text 0); [reflexivity|].
  intros pre s' E.
  pose proof (date_run s' (0 + length pre)) as Hd.
  destruct (date_at s') as [n|] eqn:Hat; [exfalso|exact Hd].
  destruct (date_at_shape _ _ Hat) as (w & rest & -> & _ & Hw).
  destruct (date_shape_digit w Hw) as (c & t & -> & Hc).
  rewrite E in H. apply blank_suffix in H. inversion H; subst.
  apply digit_not_space in Hc. congruence.
Qed.

End BlankText.

(** ** A receipt without text *)

(** X8. A text of white space only, the empty text among them, gives the
    receipt without a merchant and without a date, whose total, tax and
    subtotal are zero and whose one item is the placeholder, priced at zero.
    *)
Theorem blank_text_receipt (text : jsstring) :
  blank_text text ->
  let r := parseViaRegex text in
  merchantName r = [] /\ date r = []
  /\ total r = 0%float /\ tax r = Some 0%float /\ subtotal r = Some 0%float
  /\ items r = Some [placeholder_item 0%float].
Proof.
  intros H. cbv zeta. unfold parseViaRegex, matched_items.
  rewrite (nonblank_lines_blank text H), (total_blank text H),
    (date_blank text H).
  cbn. repeat split; reflexivity.
Qed.

Lemma blank_text_receipt_witness :
  total (parseViaRegex [32; 10; 9]%N) = 0%float
  /\ items (parseViaRegex [32; 10; 9]%N) = Some [placeholder_item 0%float].
Proof.
  destruct (blank_text_receipt [32; 10; 9]%N ltac:(repeat constructor))
    as (_ & _ & Ht & _ & _ & Hi).
  split; [exact Ht | exact Hi].
Defined.

(** ** The keys of the breakdown *)

Section KeyOrder.
Context {V : Type}.
Implicit Types (o : object V) (k : key).

Lemma named_keys_filter o :
  named_keys o = filter (fun k => negb (whole_rate k)) (map fst o).
Proof.
  induction o as [|[k v] o IH]; cbn; [reflexivity|].
  unfold whole_rate. destruct (array_index k); cbn; now rewrite IH.
Qed.

Lemma insert_index_sorted (i : Z) (k : key) (l : list (Z * key)) :
  StronglySorted (fun a b => fst a <= fst b) l ->
  StronglySorted (fun a b => fst a <= fst b) (insert_index i k l).
Proof.
  induction 1 as [|[j k'] l Hs IH Hall]; cbn.
  - repeat constructor.
  - destruct (Z.ltb_spec i j).
    + constructor; [now constructor|]. constructor; [cbn; lia|].
      eapply Forall_impl; [|exact Hall]. cbn. intros; lia.
    + constructor; [exact IH|].
      assert (Hin : Forall (fun b => j <= fst b) ((i, k) :: l))
        by (constructor; [cbn; lia | exact Hall]).
      clear - Hin. rewrite Forall_forall in *. intros x Hx. apply Hin.
      clear Hin. induction l as [|[j' k''] l IH]; cbn in *.
      * destruct Hx as [<-|[]]. now left.
      * destruct (i <? j'); cbn in *; [tauto|].
        destruct Hx as [<-|Hx]; [tauto|]. specialize (IH Hx). tauto.
Qed.

Lemma insert_index_in (i : Z) (k : key) (l : list (Z * key)) x :
  In x (insert_index i k l) <-> x = (i, k) \/ In x l.
Proof.
  induction l as [|[j k'] l IH]; cbn; [intuition|].
  destruct (i <? j); cbn; [intuition|]. rewrite IH. intuition.
Qed.

Lemma index_keys_sorted o :
  StronglySorted (fun a b => fst a <= fst b) (index_keys o).
Proof.
  induction o as [|[k v] o IH]; cbn; [constructor|].
  destruct (array_index k); [now apply insert_index_sorted | exact IH].
Qed.

Lemma index_keys_index o :
  Forall (fun ik => array_index (snd ik) = Some (fst ik)) (index_keys o).
Proof.
  induction o as [|[k v] o IH]; cbn; [constructor|].
  destruct (array_index k) as [i|] eqn:E; [|exact IH].
  rewrite Forall_forall in *. intros x Hx.
  apply insert_index_in in Hx. destruct Hx as [->|Hx]; [exact E | now apply IH].
Qed.

Lemma index_keys_perm o :
  Permutation (map snd (index_keys o)) (filter whole_rate (map fst o)).
Proof.
  induction o as [|[k v] o IH]; cbn; [reflexivity|].
  unfold whole_rate at 1. destruct (array_index k) as [i|]; [|exact IH].
  rewrite insert_index_perm. now constructor.
Qed.

Lemma keys_split o :
  keys o
  = map snd (index_keys o)
    ++ filter (fun k => negb (whole_rate k)) (map fst o).
Proof. unfold keys. now rewrite named_keys_filter. Qed.

End KeyOrder.

Section RateValues.
Local Open Scope Q_scope.

(** The value of a key that is an array index is the index. *)
Lemma array_index_value (k : key) (i : Z) :
  array_index k = Some i -> SF2Q k == inject_Z i.
Proof.
  destruct k as [s|s| |[|] m e]; cbn [array_index]; try discriminate.
  - intros [= <-]. reflexivity.
  - intros H.
    assert (Hn : match e with
                 | Zneg p => if (Zpos m mod Z.pow_pos 2 p =? 0)%Z
                             then Some (Zpos m / Z.pow_pos 2 p)%Z else None
                 | _ => Some (Zpos m * 2 ^ e)%Z
                 end = Some i).
    { destruct (match e with Zneg p => _ | _ => _ end) as [n|];
        [|discriminate].
      destruct (n <? 2 ^ 32 - 1)%Z; [|discriminate]. exact H. }
    clear H. rewrite SF2Q_finite. cbn [signed].
    destruct e as [|p|p].
    + injection Hn as <-. rewrite pow2_Z by lia.
      now rewrite <- inject_Z_mult.
    + injection Hn as <-. rewrite pow2_Z by lia.
      now rewrite <- inject_Z_mult.
    + destruct (Z.eqb_spec (Zpos m mod Z.pow_pos 2 p) 0) as [Hmod|];
        [|discriminate].
      injection Hn as <-.
      rewrite Z.pow_pos_fold in *.
      assert (Hp : (0 < 2 ^ Zpos p)%Z) by (apply Z.pow_pos_nonneg; lia).
      assert (Hm : Zpos m = (2 ^ Zpos p * (Zpos m / 2 ^ Zpos p))%Z).
      { rewrite (Z.div_mod (Zpos m) (2 ^ Zpos p)) at 1 by lia. lia. }
      rewrite Hm at 1. rewrite inject_Z_mult.
      change (Zneg p) with (- Zpos p)%Z.
      assert (Hq : pow2 (Zpos p) * pow2 (- Zpos p) == 1).
      { rewrite <- pow2_add. now rewrite Z.add_opp_diag_r. }
      rewrite <- (pow2_Z (Zpos p)) by lia.
      rewrite <- Qmult_assoc, (Qmult_comm (inject_Z _)), Qmult_assoc, Hq.
      ring.
Qed.

Lemma key_of_valid (r : number) : valid_binary (key_of r) = true.
Proof.
  unfold key_of. pose proof (Prim2SF_valid r) as H.
  destruct (Prim2SF r); [reflexivity | exact H..].
Qed.

Lemma rate_value_key (r : number) : rate_value (key_of r) = SF2Q (key_of r).
Proof.
  unfold rate_value, F2Q, number_of.
  now rewrite Prim2SF_SF2Prim by apply key_of_valid.
Qed.

(** Two keys with the same index are the same key. *)
Lemma array_index_inj (r r' : number) (i : Z) :
  array_index (key_of r) = Some i -> array_index (key_of r') = Some i ->
  key_of r = key_of r'.
Proof.
  intros H H'.
  pose proof (array_index_value _ _ H) as E.
  pose proof (array_index_value _ _ H') as E'.
  pose proof (key_of_valid r) as Hv. pose proof (key_of_valid r') as Hv'.
  assert (Hz : forall x, key_of x = S754_zero true -> False).
  { intros x. unfold key_of. destruct (Prim2SF x); discriminate. }
  destruct (key_of r) as [[|]|s| |[|] m e] eqn:K;
    try discriminate; [now apply Hz in K|..];
    destruct (key_of r') as [[|]|s'| |[|] m' e'] eqn:K';
    try discriminate; try (now apply Hz in K'); try reflexivity.
  - rewrite SF2Q_finite in E'. cbn [signed SF2Q] in *.
    pose proof (pow2_pos e').
    assert (0 < inject_Z (Zpos m')) by reflexivity.
    rewrite <- E in E'. nra.
  - rewrite SF2Q_finite in E. cbn [signed SF2Q] in *.
    pose proof (pow2_pos e).
    assert (0 < inject_Z (Zpos m)) by reflexivity.
    rewrite <- E' in E. nra.
  - rewrite SF2Q_finite in E, E'. cbn [signed] in *.
    cbn [valid_binary] in Hv, Hv'.
    destruct (valid_unique m m' e e' Hv Hv') as [-> ->];
      [now rewrite E, E' | reflexivity].
Qed.

End RateValues.

Section BreakdownOrder.

Lemma filter_and {A : Type} (f g : A -> bool) (l : list A) :
  filter f (filter g l) = filter (fun x => g x && f x) l.
Proof.
  induction l as [|a l IH]; cbn; [reflexivity|].
  destruct (g a); cbn; [destruct (f a)|]; now rewrite IH.
Qed.

(** The map holds the rates in the order in which they first occur. *)
Lemma fold_add_item_order (its : list ReceiptItem) (acc : totals) :
  map fst (breakdownMap (fold_left add_item its acc))
  = map fst (breakdownMap acc)
    ++ filter (fun k => negb (existsb (key_eqb k) (map fst (breakdownMap acc))))
         (distinct_rates its).
Proof.
  revert acc. induction its as [|item rest IH]; intros acc.
  - cbn. now rewrite app_nil_r.
  - cbn [fold_left distinct_rates]. rewrite IH. fold (item_key item).
    assert (Hk : map fst (breakdownMap (add_item acc item))
                 = if existsb (key_eqb (item_key item))
                        (map fst (breakdownMap acc))
                   then map fst (breakdownMap acc)
                   else map fst (breakdownMap acc) ++ [item_key item]).
    { unfold add_item, add_amounts. fold (item_key item).
      destruct (get (breakdownMap acc) (item_key item)) as [[b a]|];
        cbn [breakdownMap]; apply set_keys. }
    rewrite Hk. cbn [filter].
    destruct (existsb (key_eqb (item_key item)) (map fst (breakdownMap acc)))
      eqn:E; cbn [negb].
    + f_equal. rewrite filter_and. apply filter_ext. intros k.
      destruct (key_eqb k (item_key item)) eqn:Ek; cbn; [|reflexivity].
      apply key_eqb_eq in Ek. subst k. now rewrite E.
    + rewrite <- app_assoc. cbn [app]. do 2 f_equal.
      rewrite filter_and. apply filter_ext. intros k.
      rewrite existsb_app. cbn [existsb]. rewrite orb_false_r, negb_orb.
      apply andb_comm.
Qed.

Lemma accumulate_order (its : list ReceiptItem) :
  map fst (breakdownMap (accumulate its)) = distinct_rates its.
Proof.
  unfold accumulate. rewrite fold_add_item_order. cbn.
  induction (distinct_rates its) as [|k l IH]; cbn; now f_equal.
Qed.

Lemma distinct_rates_keys (its : list ReceiptItem) (k : key) :
  In k (distinct_rates its) -> exists r, k = key_of r.
Proof.
  rewrite distinct_rates_in, in_map_iff. intros (item & <- & _).
  now exists (item_rate item).
Qed.

End BreakdownOrder.

(** ** The order of the breakdown *)

(** X9. The entries of a breakdown that the reconciler makes (for a record
    with items that brings none) come in the order of JavaScript's object
    keys, whatever the order of the items: first the rates that are whole
    numbers (from 0 to 2^32 - 2), in ascending order, then the other rates
    in the order in which they first occur among the items. *)
Theorem breakdown_order (data : ReceiptData) (its : list ReceiptItem) :
  items data = Some its -> its <> [] ->
  taxBreakdown data = None \/ taxBreakdown data = Some [] ->
  exists whole others,
    taxBreakdown (recalculateFinancials data)
    = Some (map (group_entry its) (whole ++ others))
    /\ Permutation whole (filter whole_rate (distinct_rates its))
    /\ StronglySorted (fun a b => (rate_value a < rate_value b)%Q) whole
    /\ others = filter (fun k => negb (whole_rate k)) (distinct_rates its).
Proof.
  intros Hits Hne Hbd.
  assert (Hout : taxBreakdown (recalculateFinancials data)
                 = Some (newBreakdown (breakdownMap (accumulate its)))).
  { unfold recalculateFinancials. rewrite Hits.
    destruct its as [|item rest]; [contradiction|].
    cbn [taxBreakdown]. destruct Hbd as [-> | ->]; reflexivity. }
  rewrite Hout. clear Hout Hits Hne Hbd data.
  set (o := breakdownMap (accumulate its)).
  exists (map snd (index_keys o)),
    (filter (fun k => negb (whole_rate k)) (distinct_rates its)).
  assert (Hperm : Permutation (map snd (index_keys o))
                    (filter whole_rate (distinct_rates its))).
  { rewrite <- accumulate_order. apply index_keys_perm. }
  split; [|split; [exact Hperm|split; [|reflexivity]]].
  - unfold o. rewrite newBreakdown_groups, keys_split.
    now rewrite accumulate_order.
  - assert (Hnd : NoDup (map snd (index_keys o))).
    { eapply Permutation_NoDup; [symmetry; exact Hperm|].
      apply NoDup_filter, distinct_rates_NoDup. }
    assert (Hkeys : Forall (fun ik => exists r, snd ik = key_of r)
                      (index_keys o)).
    { rewrite Forall_forall. intros ik Hik.
      apply (distinct_rates_keys its).
      assert (Hin : In (snd ik) (map snd (index_keys o)))
        by now apply in_map.
      eapply Permutation_in in Hin; [|exact Hperm].
      apply filter_In in Hin. tauto. }
    pose proof (index_keys_sorted o) as Hs.
    pose proof (index_keys_index o) as Hi.
    clear Hperm. generalize dependent (index_keys o). intros l Hnd Hkeys Hs.
    induction Hs as [|[i k] l Hs IH Hall]; intros Hi; cbn [map] in *;
      constructor.
    + apply IH.
      * now inversion Hnd.
      * now inversion Hkeys.
      * now inversion Hi.
    + inversion Hnd as [|? ? Hnotin _]; subst.
      inversion Hkeys as [|? ? (r & Hr) Hkl]; subst.
      inversion Hi as [|? ? Hik Hil]; subst. cbn [fst snd] in *.
      rewrite Forall_forall in *. intros k' Hk'.
      apply in_map_iff in Hk'. destruct Hk' as ([j k''] & <- & Hin).
      cbn [snd]. specialize (Hall _ Hin). specialize (Hil _ Hin).
      destruct (Hkl _ Hin) as (r' & Hr'). cbn [fst snd] in *.
      subst k k''. rewrite !rate_value_key.
      rewrite (array_index_value _ _ Hik), (array_index_value _ _ Hil).
      rewrite <- Zlt_Qlt.
      destruct (Z.eq_dec i j) as [->|]; [|lia].
      exfalso. apply Hnotin. apply in_map_iff.
      exists (j, key_of r'). split; [|exact Hin]. cbn [snd].
      symmetry. now apply (array_index_inj r r' j).
Qed.

Lemma breakdown_order_witness :
  let its := [Samples.item 60%float (Some 20%float);
              Samples.item 40%float (Some 1%float);
              Samples.item 12%float (Some 10%float)] in
  exists whole others,
    taxBreakdown
      (recalculateFinancials (Samples.receipt its 0%float None None None))
    = Some (map (group_entry its) (whole ++ others))
    /\ Permutation whole (filter whole_rate (distinct_rates its))
    /\ StronglySorted (fun a b => (rate_value a < rate_value b)%Q) whole
    /\ others = filter (fun k => negb (whole_rate k)) (distinct_rates its).
Proof.
  intros its.
  apply (breakdown_order (Samples.receipt its 0%float None None None) its);
    [reflexivity | discriminate | left; reflexivity].
Defined.

(** ** The items the reconciler reads *)

Section ReadingFacts.

Lemma accumulate_priced (its its' : list ReceiptItem) (acc : totals) :
  map priced its = map priced its' ->
  fold_left add_item its acc = fold_left add_item its' acc.
Proof.
  revert its' acc. induction its as [|item rest IH];
    intros [|item' rest'] acc H; try discriminate; [reflexivity|].
  cbn [map] in H. injection H as Hp Hr Hrest. cbn [fold_left].
  assert (E : add_item acc item = add_item acc item').
  { unfold add_item, item_price, item_rate. now rewrite Hp, Hr. }
  rewrite E. now apply IH.
Qed.

End ReadingFacts.

(** ** What the reconciler reads *)

(** X10. Of the items the reconciler reads the total price and the rate
    only: two records with items whose items agree in these, one by one, and
    which state the same total, tax, subtotal and breakdown, get the same
    total, tax, subtotal and breakdown. The quantity and the unit price of
    an item are never compared with its total price. *)
Theorem reconciler_reads_totals_only (data data' : ReceiptData)
  (its its' : list ReceiptItem) :
  items data = Some its -> items data' = Some its' ->
  map priced its = map priced its' ->
  stated data = stated data' ->
  stated (recalculateFinancials data) = stated (recalculateFinancials data').
Proof.
  intros Hits Hits' Hmap Hst. unfold stated in Hst.
  injection Hst as Ht Hx Hs Hb.
  unfold recalculateFinancials. rewrite Hits, Hits'.
  destruct its as [|item rest], its' as [|item' rest']; try discriminate.
  - unfold stated. now rewrite Ht, Hx, Hs, Hb.
  - unfold stated. cbn [total tax subtotal taxBreakdown].
    unfold accumulate.
    rewrite (accumulate_priced _ _ no_totals Hmap), Ht, Hx, Hs, Hb.
    reflexivity.
Qed.

Lemma reconciler_reads_totals_only_witness :
  let item :=
    {| description := lit "milk"; quantity := 2%float;
       unitPrice := 10%float; totalPrice := 50%float;
       category := None; vatRate := Some 20%float |} in
  stated (recalculateFinancials
            (Samples.receipt [item] 0%float None None None))
  = stated (recalculateFinancials
              (Samples.receipt [Samples.item 50%float (Some 20%float)]
                 0%float None None None)).
Proof.
  intros item.
  apply (reconciler_reads_totals_only _ _ [item]
           [Samples.item 50%float (Some 20%float)]); reflexivity.
Defined.

(** ** The list of pages *)

Section ParseInt.
Local Open Scope Q_scope.

Lemma of_decimal_not_nan (neg : bool) (n : Z) (d : positive) :
  (0 <= n)%Z -> isNaN (of_decimal neg n d) = false.
Proof.
  intros Hn. unfold of_decimal. destruct n as [|n|n]; [|clear Hn|lia].
  - destruct neg; reflexivity.
  - pose proof (div_core_spec n d 0 0) as H.
    destruct (SFdiv_core_binary prec emax (Zpos n) 0 (Zpos d) 0)
      as [[q e] l].
    destruct H as (Hq & Hloc & Hprec).
    destruct (round_aux_spec _ neg q e l Hq Hloc Hprec)
      as (m2 & e1 & _ & _ & _ & _ & _ & Hrep).
    unfold isNaN. rewrite eqb_spec.
    set (r := binary_round_aux prec emax neg q e l) in *.
    assert (Hv : valid_binary r = true /\ SFeqb r r = true).
    { destruct Hrep as [[_ ->]|[[_ ->]|(m & e' & -> & Hb & _)]].
      - split; reflexivity.
      - split; [reflexivity|]. destruct neg; reflexivity.
      - split; [exact Hb|]. unfold SFeqb, SFcompare.
        destruct neg; rewrite Z.compare_refl, ?Pos.compare_refl;
          try reflexivity.
        all: unfold CompOpp; rewrite ?Pos.compare_refl; reflexivity. }
    destruct Hv as [Hv He]. rewrite Prim2SF_SF2Prim by exact Hv.
    now rewrite He.
Qed.

End ParseInt.

Section PageFields.
Local Open Scope N_scope.

Lemma no_sign (c : codeunit) (t : jsstring) :
  c <> 45 -> c <> 43 -> strip_sign (c :: t) = (false, c :: t).
Proof.
  intros H45 H43. unfold strip_sign. destruct c as [|p]; [reflexivity|].
  do 7 (try (destruct p as [p|p|]; try reflexivity)); congruence.
Qed.

Lemma no_prefix (s : jsstring) :
  (forall c t, s = 48 :: c :: t -> c <> 120 /\ c <> 88) ->
  strip_prefix s = (false, s).
Proof.
  intros H. unfold strip_prefix. destruct s as [|c1 s1]; [reflexivity|].
  destruct c1 as [|p]; [reflexivity|].
  do 7 (try (destruct p as [p|p|]; try reflexivity)).
  destruct s1 as [|c2 t]; [reflexivity|].
  destruct (H c2 t eq_refl) as [H120 H88].
  destruct c2 as [|p]; [reflexivity|].
  do 8 (try (destruct p as [p|p|]; try reflexivity)); congruence.
Qed.

Lemma digit_range (c : codeunit) : is_digit c = true -> 48 <= c <= 57.
Proof.
  unfold is_digit. rewrite andb_true_iff, !N.leb_le. tauto.
Qed.

(** A text that begins with digits reads as the number they stand for. *)
Lemma parseInt_digits (d t : jsstring) :
  d <> [] -> Forall (fun c => is_digit c = true) d ->
  match t with
  | [] => True
  | c :: _ => is_digit c = false /\ c <> 120 /\ c <> 88
  end ->
  parseInt (d ++ t) = of_decimal false (digits_value 0 d) 1.
Proof.
  intros Hne Hd Ht. unfold parseInt.
  destruct d as [|c0 d']; [contradiction|]. clear Hne.
  inversion Hd as [|? ? Hc0 Hd']; subst.
  pose proof (digit_range c0 Hc0) as Hr.
  cbn [app drop_while]. rewrite (digit_not_space c0 Hc0).
  rewrite no_sign by lia. rewrite no_prefix.
  - change (c0 :: d' ++ t) with ((c0 :: d') ++ t).
    assert (Ht' : match t with c :: _ => is_digit c = false | [] => True end)
      by (destruct t; tauto).
    destruct (take_while_app is_digit (c0 :: d') t Hd Ht') as [-> _].
    reflexivity.
  - intros c t' E. injection E as -> E.
    destruct d' as [|c1 d'']; cbn [app] in E.
    + subst t. destruct Ht as (_ & ? & ?). auto.
    + injection E as <- _. inversion Hd' as [|? ? Hc1 _]; subst.
      apply digit_range in Hc1. lia.
Qed.

Lemma drop_while_app_fixed (p : codeunit -> bool) (a b : jsstring) :
  drop_while p b = b -> drop_while p (a ++ b) = drop_while p a ++ b.
Proof.
  intros Hb. induction a as [|c a IH]; cbn [app drop_while]; [exact Hb|].
  destruct (p c); [exact IH | reflexivity].
Qed.

Lemma drop_while_blank (g s : jsstring) :
  Forall (fun c => is_space c = true) g ->
  drop_while is_space (g ++ s) = drop_while is_space s.
Proof. induction 1 as [|c g Hc _ IH]; cbn; [|rewrite Hc]; auto. Qed.

(** Trimming a text that begins with digits, after white space: the
    digits stay, with a part of what follows them. *)
Lemma trim_digits (g d t : jsstring) :
  Forall (fun c => is_space c = true) g ->
  d <> [] -> Forall (fun c => is_digit c = true) d ->
  exists t' sfx, trim (g ++ d ++ t) = d ++ t' /\ t = t' ++ sfx.
Proof.
  intros Hg Hne Hd. unfold trim. rewrite (drop_while_blank g _ Hg).
  assert (H1 : drop_while is_space (d ++ t) = d ++ t).
  { destruct d as [|c d']; [contradiction|]. cbn.
    inversion Hd; subst. now rewrite digit_not_space. }
  rewrite H1, rev_app_distr.
  assert (H2 : drop_while is_space (rev d) = rev d).
  { apply drop_while_fixed.
    destruct (rev d) as [|c l] eqn:E; [exact I|].
    apply digit_not_space. rewrite Forall_forall in Hd. apply Hd.
    apply in_rev. rewrite E. now left. }
  rewrite (drop_while_app_fixed _ _ _ H2), rev_app_distr, rev_involutive.
  exists (rev (drop_while is_space (rev t))),
    (rev (take_while is_space (rev t))).
  split; [reflexivity|].
  rewrite <- rev_app_distr.
  destruct (take_drop_while is_space (rev t)) as [E _].
  rewrite <- E. now rewrite rev_involutive.
Qed.

Lemma split_on_none (sep : codeunit) (a : jsstring) :
  Forall (fun c => (c =? sep) = false) a -> split_on sep a = [a].
Proof.
  induction 1 as [|c a Hc _ IH]; cbn [split_on]; [reflexivity|].
  now rewrite Hc, IH.
Qed.

Lemma split_on_app (sep : codeunit) (a b : jsstring) :
  Forall (fun c => (c =? sep) = false) a ->
  split_on sep (a ++ sep :: b) = a :: split_on sep b.
Proof.
  induction 1 as [|c a Hc _ IH]; cbn [app split_on].
  - now rewrite N.eqb_refl.
  - now rewrite Hc, IH.
Qed.

(** Splitting what was joined gives the parts back, when none of them
    holds the separator. *)
Lemma split_join (sep : codeunit) (parts : list jsstring) :
  parts <> [] ->
  Forall (Forall (fun c => (c =? sep) = false)) parts ->
  split_on sep (join [sep] parts) = parts.
Proof.
  intros Hne H. induction H as [|a l Ha Hl IH]; [contradiction|].
  destruct l as [|b l].
  - cbn [join]. now apply split_on_none.
  - change (join [sep] (a :: b :: l)) with (a ++ sep :: join [sep] (b :: l)).
    rewrite split_on_app by exact Ha. f_equal. apply IH. discriminate.
Qed.

Lemma trim_nil_blank (s : jsstring) :
  trim s = [] -> Forall (fun c => is_space c = true) s.
Proof.
  unfold trim. intros H.
  apply (f_equal (@rev codeunit)) in H. rewrite rev_involutive in H.
  cbn [rev] in H.
  pose proof (drop_while_head is_space s) as Hh.
  destruct (take_drop_while is_space (rev (drop_while is_space s)))
    as [E Hall].
  rewrite H, app_nil_r in E.
  destruct (take_drop_while is_space s) as [Es Hs].
  destruct (drop_while is_space s) as [|c t] eqn:Ed.
  - rewrite app_nil_r in Es. now rewrite Es.
  - exfalso. rewrite <- E in Hall. rewrite Forall_forall in Hall.
    assert (Hc : is_space c = true).
    { apply Hall. apply -> in_rev. now left. }
    congruence.
Qed.

End PageFields.

Section PageList.
Local Open Scope N_scope.

Lemma digits_value_nonneg (ds : jsstring) (acc : Z) :
  (0 <= acc)%Z -> Forall (fun c => is_digit c = true) ds ->
  (0 <= digits_value acc ds)%Z.
Proof.
  intros Hacc H. revert acc Hacc.
  induction H as [|c ds Hc _ IH]; intros acc Hacc; cbn [digits_value];
    [exact Hacc|].
  apply IH. apply digit_range in Hc. lia.
Qed.

Lemma well_formed_spec (f : page_field) :
  well_formed f = true ->
  Forall (fun c => is_space c = true) (gap f)
  /\ page_digits f <> []
  /\ Forall (fun c => is_digit c = true) (page_digits f)
  /\ match tail f with
     | [] => True
     | c :: _ => is_digit c = false /\ c <> 120 /\ c <> 88
     end
  /\ Forall (fun c => (c =? 44) = false) (tail f).
Proof.
  unfold well_formed, ends_number.
  rewrite !andb_true_iff, !forallb_forall, <- !Forall_forall, negb_true_iff.
  intros [[[Hg Hne] Hd] [Hh Ht]]. repeat split; auto.
  - intros E. rewrite E in Hne. discriminate.
  - destruct (tail f) as [|c t]; [exact I|].
    rewrite negb_true_iff, !orb_false_iff, !N.eqb_neq in Hh. tauto.
  - eapply Forall_impl; [|exact Ht]. cbn. intros c Hc.
    now apply negb_true_iff.
Qed.

Lemma field_no_comma (f : page_field) :
  well_formed f = true ->
  Forall (fun c => (c =? 44) = false) (field_text f).
Proof.
  intros H. destruct (well_formed_spec f H) as (Hg & _ & Hd & _ & Ht).
  unfold field_text. rewrite !Forall_app. repeat split; [| |exact Ht].
  - eapply Forall_impl; [|exact Hg]. cbn. intros c Hc.
    apply N.eqb_neq. intros ->. discriminate.
  - eapply Forall_impl; [|exact Hd]. cbn. intros c Hc.
    apply digit_range in Hc. apply N.eqb_neq. lia.
Qed.

Lemma field_reading (f : page_field) :
  well_formed f = true ->
  parseInt (trim (field_text f)) = page_number f
  /\ isNaN (page_number f) = false.
Proof.
  intros H. destruct (well_formed_spec f H) as (Hg & Hne & Hd & Hh & _).
  split.
  - destruct (trim_digits (gap f) (page_digits f) (tail f) Hg Hne Hd)
      as (t' & sfx & Et & Etail).
    unfold field_text. rewrite Et. apply parseInt_digits; auto.
    destruct t' as [|c t'']; [exact I|]. rewrite Etail in Hh. exact Hh.
  - apply of_decimal_not_nan. now apply digits_value_nonneg.
Qed.

Lemma join_head (sep a : jsstring) (l : list jsstring) :
  exists more, join sep (a :: l) = a ++ more.
Proof.
  destruct l as [|b l]; cbn [join]; [exists []; now rewrite app_nil_r|].
  eauto.
Qed.

End PageList.

(** ** The pages of a request *)

(** X11. A list of pages in which every field, between the commas, begins
    with a whole number (after white space, if any) asks for these numbers,
    in order. What follows the number in its field is not read: of a range
    such as ["1-5"] only the first page is asked for. *)
Theorem page_list_reading (fields : list page_field) :
  fields <> [] ->
  Forall (fun f => well_formed f = true) fields ->
  requested_pages (join [44%N] (map field_text fields))
  = Some (map page_number fields).
Proof.
  intros Hne Hwf. unfold requested_pages.
  set (pages := join [44%N] (map field_text fields)).
  assert (Hlist : pageList pages = map page_number fields).
  { unfold pageList, pages. rewrite split_join.
    - clear Hne. induction Hwf as [|f l Hf _ IH]; [reflexivity|].
      cbn [map filter]. destruct (field_reading f Hf) as [-> ->].
      cbn [negb]. now rewrite IH.
    - destruct fields; [contradiction | discriminate].
    - clear Hne. induction Hwf as [|f l Hf _ IH]; cbn [map]; constructor;
        [now apply field_no_comma | exact IH]. }
  assert (Hdigit : exists c, In c pages /\ is_space c = false).
  { destruct fields as [|f l]; [contradiction|].
    inversion Hwf as [|? ? Hf _]; subst.
    destruct (well_formed_spec f Hf) as (_ & Hd & Hds & _).
    destruct (page_digits f) as [|c d] eqn:Ed; [contradiction|].
    exists c. split.
    - unfold pages. cbn [map].
      destruct (join_head [44%N] (field_text f) (map field_text l))
        as [more ->].
      unfold field_text. rewrite Ed, !in_app_iff. left. right. left.
      now left.
    - inversion Hds; subst. now apply digit_not_space. }
  destruct Hdigit as (c & Hin & Hc).
  assert (E1 : JsString.eqb pages [] = false).
  { destruct pages; [destruct Hin | reflexivity]. }
  assert (E2 : JsString.eqb (trim pages) [] = false).
  { destruct (trim pages) eqn:Et; [|reflexivity].
    apply trim_nil_blank in Et. rewrite Forall_forall in Et.
    rewrite (Et c Hin) in Hc. discriminate. }
  rewrite E1, E2, Hlist. cbn [negb andb].
  destruct fields; [contradiction | reflexivity].
Qed.

Lemma page_list_reading_witness :
  requested_pages (lit "1-5, 12")
  = Some [of_decimal false 1 1; of_decimal false 12 1].
Proof.
  exact (page_list_reading
           [ {| gap := []; page_digits := lit "1"; tail := lit "-5" |};
             {| gap := lit " "; page_digits := lit "12"; tail := [] |} ]
           ltac:(discriminate)
           ltac:(repeat constructor)).
Defined.

(** ** Addresses and files *)

Section ImageAddress.
Local Open Scope nat_scope.

Lemma imageExtension_matches (pos : nat) (w rest : jsstring) (cs : captures) :
  matches imageExtension pos w rest cs ->
  rest = []
  /\ exists ext, w = [46%N] ++ ext
                 /\ exists x, In x image_extensions /\ same_letters ext x.
Proof.
  unfold imageExtension. cbn [seq_of alt_of]. intros H.
  apply matches_seq in H.
  destruct H as (w1 & w2 & c1 & c2 & -> & -> & H1 & H2).
  apply matches_chr in H1. destruct H1 as (c & -> & Hc & ->).
  apply N.eqb_eq in Hc. subst c.
  apply matches_seq in H2.
  destruct H2 as (w3 & w4 & c3 & c4 & -> & -> & H3 & H4).
  apply matches_eol in H4. destruct H4 as (-> & -> & ->).
  apply matches_group in H3. destruct H3 as (c & -> & H3).
  rewrite app_nil_r in *. split; [reflexivity|]. exists w3.
  split; [reflexivity|].
  repeat (apply matches_alt in H3; destruct H3 as [H3|H3]);
    apply matches_word_i in H3; destruct H3 as [H3 _];
    eexists; (split; [|exact H3]); cbn [image_extensions In]; auto.
Qed.

Lemma matches_imageExtension (pos : nat) (ext x : jsstring) :
  In x image_extensions -> same_letters ext x ->
  exists cs, matches imageExtension pos ([46%N] ++ ext) [] cs.
Proof.
  intros Hin Hx. unfold imageExtension. cbn [seq_of alt_of].
  assert (Hw : matches (Alt (word_i "jpeg")
                          (Alt (word_i "jpg")
                             (Alt (word_i "png") (word_i "webp"))))
                 (pos + length [46%N]) ext [] []).
  { cbn [image_extensions In] in Hin.
    destruct Hin as [<-|[<-|[<-|[<-|[]]]]].
    - apply M_alt_l. now apply word_i_matches.
    - apply M_alt_r, M_alt_l. now apply word_i_matches.
    - do 2 apply M_alt_r. apply M_alt_l. now apply word_i_matches.
    - do 3 apply M_alt_r. now apply word_i_matches. }
  apply (M_group 1) in Hw.
  pose proof (M_seq _ Eol _ ext [] [] _ [] Hw (M_eol _)) as Hs.
  rewrite app_nil_r in Hs.
  eexists. apply M_seq; [apply M_chr; reflexivity | exact Hs].
Qed.

End ImageAddress.

(** ** The document of a request *)

(** X12. An address is sent as an image exactly when it ends with [.jpeg],
    [.jpg], [.png] or [.webp], in whatever case; every other address, one
    with a query after the extension among them, is sent as a document. The
    address itself goes into the request as it is. *)
Theorem url_document_kind (url : jsstring) :
  document_value (url_document url) = url
  /\ document_key (url_document url) = document_type (url_document url)
  /\ (image_address url ->
      document_type (url_document url) = lit "image_url")
  /\ (~ image_address url ->
      document_type (url_document url) = lit "document_url").
Proof.
  unfold url_document. cbn [document_value document_key document_type].
  split; [reflexivity|]. split; [reflexivity|].
  destruct (test imageExtension url) eqn:Ht.
  - split; [reflexivity|]. intros Hn. exfalso. apply Hn.
    apply test_spec in Ht.
    destruct Ht as (pre & w & rest & cs & -> & Hm).
    apply imageExtension_matches in Hm.
    destruct Hm as (-> & ext & -> & Hx).
    exists pre, ext. rewrite app_nil_r. auto.
  - split; [|reflexivity]. intros (stem & ext & -> & x & Hin & Hx).
    exfalso.
    destruct (matches_imageExtension (length stem) ext x Hin Hx) as [cs Hm].
    assert (Htrue : test imageExtension (stem ++ [46%N] ++ ext) = true).
    { apply test_spec. exists stem, ([46%N] ++ ext), [], cs.
      rewrite app_nil_r. auto. }
    congruence.
Qed.

Lemma url_document_kind_witness :
  document_type (url_document (lit "https://host/scan.PNG"))
  = lit "image_url".
Proof.
  apply (url_document_kind (lit "https://host/scan.PNG")).
  exists (lit "https://host/scan"), (lit "PNG").
  split; [reflexivity|]. exists (lit "png"). split; [|reflexivity].
  cbn. auto.
Defined.

Section DataUrl.
Local Open Scope N_scope.

Lemma split_data_url (type content : jsstring) :
  no_comma type -> no_comma content ->
  split_on 44 (data_url type content)
  = [lit "data:" ++ type ++ lit ";base64"; content].
Proof.
  intros Ht Hc. unfold data_url.
  change (lit ";base64,") with (lit ";base64" ++ [44]).
  replace (lit "data:" ++ type ++ (lit ";base64" ++ [44]) ++ content)
    with ((lit "data:" ++ type ++ lit ";base64") ++ 44 :: content)
    by (now rewrite <- !app_assoc).
  rewrite split_on_app.
  - f_equal. now apply split_on_none.
  - rewrite !Forall_app. repeat split; [|exact Ht|];
      repeat constructor.
Qed.

End DataUrl.

(** X13. A file goes into the request as a data URL of its own type and of
    the content that the reader delivers: when the reader delivers the data
    URL of a content, of whatever type, and neither the types nor the
    content hold a comma, the request carries that content under the type of
    the file; it is sent as an image exactly when that type begins with
    [image/]. *)
Theorem file_document_content (File : Type) (file_type : File -> jsstring)
  (readAsDataURL : File -> Thrown + jsstring) (file : File)
  (type content : jsstring) :
  readAsDataURL file = inr (data_url type content) ->
  no_comma type -> no_comma content ->
  exists base64Image,
    fileToBase64 File readAsDataURL file = inr base64Image
    /\ let doc := file_document (file_type file) base64Image in
       document_value doc = data_url (file_type file) content
       /\ document_key doc = document_type doc
       /\ document_type doc
          = if startsWith (file_type file) (lit "image/")
            then lit "image_url" else lit "document_url".
Proof.
  intros Hread Ht Hc. exists (Some content). split.
  - unfold fileToBase64. rewrite Hread, split_data_url by assumption.
    reflexivity.
  - unfold file_document.
    cbn [document_value document_key document_type in_template].
    destruct (startsWith (file_type file) (lit "image/")); repeat split.
Qed.

Lemma file_document_content_witness :
  exists base64Image,
    fileToBase64 unit (fun _ => inr (data_url (lit "image/png") (lit "QUJD")))
      tt = inr base64Image
    /\ document_value (file_document (lit "image/png") base64Image)
       = data_url (lit "image/png") (lit "QUJD").
Proof.
  destruct (file_document_content unit (fun _ => lit "image/png")
              (fun _ => inr (data_url (lit "image/png") (lit "QUJD"))) tt
              (lit "image/png") (lit "QUJD") eq_refl
              ltac:(repeat constructor) ltac:(repeat constructor))
    as (b & Hb & Hv & _).
  exists b. split; [exact Hb | exact Hv].
Defined.

(** ** Steps of the client *)

Section Steps.

Lemma bind_value {A B : Type} (m : step A) (f : A -> step B)
  (reports : list jsstring) (b : B) :
  bind m f = (reports, inr b) ->
  exists r1 a r2, m = (r1, inr a) /\ f a = (r2, inr b) /\ reports = r1 ++ r2.
Proof.
  unfold bind. destruct m as [r1 [e|a]]; [discriminate|].
  destruct (f a) as [r2 out] eqn:E. intros [= <- ->]. eauto 6.
Qed.

Lemma bind_thrown {A B : Type} (m : step A) (f : A -> step B)
  (reports : list jsstring) (e : Thrown) :
  bind m f = (reports, inl e) ->
  m = (reports, inl e)
  \/ exists r1 a r2, m = (r1, inr a) /\ f a = (r2, inl e)
                     /\ reports = r1 ++ r2.
Proof.
  unfold bind. destruct m as [r1 [e'|a]].
  - intros [= <- <-]. now left.
  - destruct (f a) as [r2 out] eqn:E. intros [= <- ->]. right. eauto 6.
Qed.

Lemma or_number_truthy (v : option number) (d : number) :
  truthy d = true -> truthy (or_number v d) = true.
Proof.
  intros Hd. unfold or_number, or_else. destruct v as [n|]; [|exact Hd].
  destruct (truthy n) eqn:E; [exact E | exact Hd].
Qed.

Lemma usagePages_truthy (data : ResponseBody) : truthy (usagePages data) = true.
Proof.
  unfold usagePages. apply or_number_truthy, or_number_truthy. reflexivity.
Qed.

(** What a result of the client is made of. *)
Lemma processDocument_result (File : Type) (file_type : File -> jsstring)
  (readAsDataURL : File -> Thrown + jsstring) (new_URL : jsstring -> bool)
  (VITE_MISTRAL_MODEL : option jsstring)
  (fetch : Request -> Thrown + Response)
  (inputSource : File + jsstring) (apiKey : option jsstring)
  (apiMode : ApiMode) (pages : jsstring)
  (reports : list jsstring) (result : OCRResult) :
  processDocument File file_type readAsDataURL new_URL VITE_MISTRAL_MODEL
    fetch inputSource apiKey apiMode pages = (reports, inr result) ->
  if no_key apiKey then result = mockResult
  else exists data,
      result = {| result_markdown := fullMarkdown data;
                  result_json := data;
                  result_images := allImages data;
                  receiptData := None;
                  usage := {| usage_pages := usagePages data;
                              usage_cost := 0%float |} |}.
Proof.
  unfold processDocument. destruct (no_key apiKey).
  - intros H. destruct apiMode; cbn in H; now injection H as _ <-.
  - intros H. unfold try_catch in H.
    match type of H with
    | (let '(_, _) := ?m in _) = _ => destruct m as [r [e|res]] eqn:Hm
    | match ?m with _ => _ end = _ => destruct m as [r [e|res]] eqn:Hm
    end.
    + exfalso.
      destruct (match error_name e, error_text e with
                | Some n, Some m =>
                    JsString.eqb n (lit "TypeError")
                    && JsString.eqb m (lit "Failed to fetch")
                | _, _ => false
                end); cbn in H; discriminate.
    + injection H as -> ->.
      repeat (apply bind_value in Hm;
              destruct Hm as (? & ? & ? & _ & Hm & _)).
      destruct (negb (ok _)); [discriminate|].
      apply bind_value in Hm. destruct Hm as (? & data & ? & _ & Hm & _).
      injection Hm as _ <-. now exists data.
Qed.

End Steps.

(** ** The result of the client *)

(** X14. Whatever the input, the key, the mode and the answer of the
    service: the number of pages that a result of the client reports is
    never zero and never [NaN], also when the answer lacks the count or the
    pages; and without a key the result is the one the mock mode makes up.
    *)
Theorem result_counts_pages (File : Type) (file_type : File -> jsstring)
  (readAsDataURL : File -> Thrown + jsstring) (new_URL : jsstring -> bool)
  (VITE_MISTRAL_MODEL : option jsstring)
  (fetch : Request -> Thrown + Response)
  (inputSource : File + jsstring) (apiKey : option jsstring)
  (apiMode : ApiMode) (pages : jsstring)
  (reports : list jsstring) (result : OCRResult) :
  processDocument File file_type readAsDataURL new_URL VITE_MISTRAL_MODEL
    fetch inputSource apiKey apiMode pages = (reports, inr result) ->
  truthy (usage_pages (usage result)) = true
  /\ (no_key apiKey = true -> result = mockResult).
Proof.
  intros H. apply processDocument_result in H.
  destruct (no_key apiKey).
  - subst result. split; [reflexivity | auto].
  - destruct H as [data ->]. split; [|discriminate].
    apply usagePages_truthy.
Qed.

Lemma result_counts_pages_witness :
  let answer :=
    {| model := None; pages := Some []; markdown := None;
       usage_info := Some {| pages_processed := Some 0%float;
                             doc_size_bytes := None |};
       message := None; error_message := None |} in
  truthy (usagePages answer) = true.
Proof.
  intros answer.
  apply (result_counts_pages unit (fun _ => []) (fun _ => inr [])
           (fun _ => true) None
           (fun _ => inr {| ok := true; status := lit "200";
                            statusText := lit "OK"; json := inr answer |})
           (inr (lit "https://host/scan.pdf")) (Some (lit "key")) realtime []
           [lit "Preparing document..."; lit "Sending URL to Mistral..."]
           {| result_markdown := fullMarkdown answer;
              result_json := answer;
              result_images := allImages answer;
              receiptData := None;
              usage := {| usage_pages := usagePages answer;
                          usage_cost := 0%float |} |}).
  reflexivity.
Defined.

(** ** The failures of the client *)

(** X15. The client fails only with a key, and after it has reported that it
    prepares the document. What it throws is never the [TypeError] with the
    message ["Failed to fetch"]: that one is replaced by the error of the
    network. A string that is not a URL is refused as an invalid input
    source, after that one report. *)
Theorem client_failures (File : Type) (file_type : File -> jsstring)
  (readAsDataURL : File -> Thrown + jsstring) (new_URL : jsstring -> bool)
  (VITE_MISTRAL_MODEL : option jsstring)
  (fetch : Request -> Thrown + Response)
  (inputSource : File + jsstring) (apiKey : option jsstring)
  (apiMode : ApiMode) (pages : jsstring)
  (reports : list jsstring) (thrown : Thrown) :
  processDocument File file_type readAsDataURL new_URL VITE_MISTRAL_MODEL
    fetch inputSource apiKey apiMode pages = (reports, inl thrown) ->
  no_key apiKey = false
  /\ hd_error reports = Some (lit "Preparing document...")
  /\ ~ (error_name thrown = Some (lit "TypeError")
        /\ error_text thrown = Some (lit "Failed to fetch"))
  /\ (forall str, inputSource = inr str -> new_URL str = false ->
        thrown = Error (lit "Invalid input source")
        /\ reports = [lit "Preparing document..."]).
Proof.
  unfold processDocument. destruct (no_key apiKey).
  { intros H. exfalso. destruct apiMode; cbn in H; discriminate. }
  intros H. split; [reflexivity|]. unfold try_catch in H.
  match type of H with
  | (let '(_, _) := ?m in _) = _ => destruct m as [r [e|res]] eqn:Hm
  | match ?m with _ => _ end = _ => destruct m as [r [e|res]] eqn:Hm
  end; [|discriminate].
  assert (Hr : hd_error r = Some (lit "Preparing document...")).
  { apply bind_thrown in Hm. destruct Hm as [Hm|(r1 & a & r2 & Hm & _ & ->)].
    - discriminate.
    - injection Hm as <- _. reflexivity. }
  destruct (match error_name e, error_text e with
            | Some n, Some m =>
                JsString.eqb n (lit "TypeError")
                && JsString.eqb m (lit "Failed to fetch")
            | _, _ => false
            end) eqn:Hc; cbn in H; injection H as <- <-;
    rewrite app_nil_r; (split; [exact Hr|]); split.
  - intros [Hn _]. discriminate.
  - intros str -> Hurl. exfalso. unfold isUrl in Hm. rewrite Hurl in Hm.
    cbn in Hm. injection Hm as _ <-. discriminate.
  - intros [Hn Ht]. rewrite Hn, Ht in Hc. discriminate.
  - intros str -> Hurl. unfold isUrl in Hm. rewrite Hurl in Hm.
    cbn in Hm. injection Hm as <- <-. split; reflexivity.
Qed.

Lemma client_failures_witness :
  no_key (Some (lit "key")) = false
  /\ ~ (error_name (Error (lit "Invalid input source"))
        = Some (lit "TypeError")
        /\ error_text (Error (lit "Invalid input source"))
           = Some (lit "Failed to fetch")).
Proof.
  destruct (client_failures unit (fun _ => []) (fun _ => inr [])
              (fun _ => false) None (fun _ => inl (Error []))
              (inr (lit "receipt.pdf")) (Some (lit "key")) realtime []
              [lit "Preparing document..."]
              (Error (lit "Invalid input source")) eq_refl)
    as (Hkey & _ & Hnot & _).
  split; [exact Hkey | exact Hnot].
Defined.

(** ** A scan *)

Section Scan.

Import App.

Variable File : Type.
Variable file_type : File -> jsstring.
Variable readAsDataURL : File -> Thrown + jsstring.
Variable new_URL : jsstring -> bool.
Variable VITE_MISTRAL_MODEL : option jsstring.
Variable fetch : Request -> Thrown + Response.
Variable generateContent : jsstring -> option (option jsstring).
Variable JSON_parse : jsstring -> option ReceiptData.
Variable JSON_stringify : ReceiptData -> jsstring.
Variable mistralApiKey geminiApiKey : option jsstring.

(** X16. A scan ends as a success or as an error, and as a success exactly
    when the client returns a result. The state then holds that result
    together with the receipt that [parseReceiptWithGemini] makes of its
    text, and the number of pages is the one the result reports, whatever it
    was before. When the client fails, the result of an earlier scan is gone
    and the message is the one of the failure, if it has one. Without one of
    the keys nothing is asked of either service. *)
Theorem scan_outcome (s : State File) (source : File + jsstring) :
  inputSource File s = Some source -> source <> inr [] ->
  let s' :=
    handleProcess File file_type readAsDataURL new_URL VITE_MISTRAL_MODEL
      fetch generateContent JSON_parse JSON_stringify mistralApiKey
      geminiApiKey s in
  if truthy_string mistralApiKey && truthy_string geminiApiKey then
    match processDocument File file_type readAsDataURL new_URL
            VITE_MISTRAL_MODEL fetch source mistralApiKey
            (apiMode File s) (pageRange File s) with
    | (_, inr ocrData) =>
        status File s' = success
        /\ estimatedPages File s' = usage_pages (usage ocrData)
        /\ exists finalResult,
            result File s' = Some finalResult
            /\ receiptData finalResult
               = Some (parseReceiptWithGemini generateContent JSON_parse
                         (result_markdown ocrData) geminiApiKey)
            /\ result_markdown finalResult = result_markdown ocrData
            /\ result_json finalResult = result_json ocrData
            /\ result_images finalResult = result_images ocrData
            /\ usage finalResult = usage ocrData
    | (_, inl thrown) =>
        status File s' = error
        /\ result File s' = None
        /\ statusMessage File s'
           = or_string (error_text thrown) something_failed
        /\ estimatedPages File s' = estimatedPages File s
    end
  else
    status File s' = error
    /\ statusMessage File s' = keys_missing
    /\ result File s' = result File s
    /\ estimatedPages File s' = estimatedPages File s.
Proof.
  intros Hin Hne. cbv zeta. unfold handleProcess. rewrite Hin.
  destruct source as [file|[|c str]]; [|contradiction|]; cbv beta iota.
  all: destruct (truthy_string mistralApiKey), (truthy_string geminiApiKey);
    cbn [negb orb andb]; try (repeat split; reflexivity).
  all: match goal with
       | |- context [processDocument ?a ?b ?c ?d ?e ?f ?g ?h ?i ?j] =>
           destruct (processDocument a b c d e f g h i j)
             as [reports [thrown|ocrData]] eqn:Hp
       end.
  all: try (repeat split; reflexivity).
  all: cbn [status estimatedPages result].
  all: assert (Ht : truthy (usage_pages (usage ocrData)) = true)
         by (apply processDocument_result in Hp;
             destruct (no_key mistralApiKey);
             [now subst ocrData
             | destruct Hp as [data ->]; apply usagePages_truthy]).
  all: rewrite Ht; split; [reflexivity|]; split; [reflexivity|];
         eexists; split; [reflexivity|]; repeat split; reflexivity.
Qed.

End Scan.

Lemma scan_outcome_witness :
  let s :=
    {| App.inputSource := Some (inr (lit "https://host/scan.pdf"));
       App.status := App.idle; App.statusMessage := [];
       App.result := None; App.estimatedPages := 7%float;
       App.apiMode := batch; App.pageRange := [];
       App.inputCharCount := 0; App.outputCharCount := 0;
       App.activeTab := App.raw; App.isMobileMenuOpen := true |} in
  let s' :=
    App.handleProcess unit (fun _ => []) (fun _ => inr []) (fun _ => true)
      None (fun _ => inl (Error [])) (fun _ => None) (fun _ => None)
      (fun _ => []) (Some (lit " ")) (Some (lit " ")) s in
  App.status unit s' = App.success
  /\ App.estimatedPages unit s' = 1%float.
Proof.
  intros s s'.
  pose proof (scan_outcome unit (fun _ => []) (fun _ => inr [])
                (fun _ => true) None (fun _ => inl (Error []))
                (fun _ => None) (fun _ => None) (fun _ => [])
                (Some (lit " ")) (Some (lit " ")) s
                (inr (lit "https://host/scan.pdf")) eq_refl
                ltac:(discriminate)) as H.
  cbv zeta in H. destruct H as (Hs & He & _).
  split; [exact Hs | exact He].
Defined.
